(** * randomsound: text-driven melody and drum generators

    A shallow embedding of the two generators of the repository,
    [en_musictester.py] (bucketed pitch mapper, drum track fitted to the
    melody) and [random_music.py] (section data shared between channels,
    BGM and SONG assembly, Markov drum scheduler, genre marker), followed
    by the properties of their tick accounting.

    Python integers are [Z], [len] and list positions are [nat], Python
    floats are binary64 primitive floats, [str] is [string] read as a
    sequence of code points below 256.  A [MidiTrack] is the list of its
    messages, [track.append m] is [track ++ [m]].  The process-wide
    generator of the [random] module is an explicit source threaded
    through every function that draws from it; a Python exception is the
    [Raise] outcome, and a [while] loop runs on fuel, with [OutOfFuel]
    for a loop that has not left when the fuel is spent.  The handler of
    either window is a function of the content of its widgets that
    yields the message box it shows or the file it builds; the dialog
    that saves the file is left out, and a message is the record of its
    fields, whose range the statements give where it matters.

    The file has the programs first, then the vocabulary of the
    statements, then the lemmas and the theorems. *)

From Stdlib Require Import ZArith String Ascii List Bool Lia PrimFloat.
Import ListNotations.
Set Warnings "-inexact-float".
Local Open Scope string_scope.
Local Open Scope list_scope.
Local Open Scope Z_scope.

(** ** Outcomes, the random source and the monad that threads it *)

Inductive exn : Type :=
| IndexError
| KeyError
| ValueError
| OutOfFuel.

Inductive result (A : Type) : Type :=
| Ok (a : A)
| Raise (e : exn).
Arguments Ok {A} a.
Arguments Raise {A} e.

(** The generator: an unbounded supply of raw integer draws and of
    floating-point draws, read at a cursor that every draw advances. *)
Record rng : Type := mkRng {
  ints : nat -> Z;
  units : nat -> float;
  cursor : nat
}.

Definition advance (g : rng) : rng :=
  mkRng (ints g) (units g) (S (cursor g)).

Definition M (A : Type) : Type := rng -> result (A * rng).

Definition ret {A : Type} (a : A) : M A := fun g => Ok (a, g).

Definition bind {A B : Type} (c : M A) (k : A -> M B) : M B :=
  fun g => match c g with
           | Ok (a, g') => k a g'
           | Raise e => Raise e
           end.

Definition raise {A : Type} (e : exn) : M A := fun _ => Raise e.

Declare Scope rand_scope.
Delimit Scope rand_scope with rand.
Notation "x <- c ;; k" := (bind c (fun x => k))
  (at level 100, c at next level, right associativity) : rand_scope.
Notation "' p <- c ;; k" := (bind c (fun x => match x with p => k end))
  (at level 100, p pattern, c at next level, right associativity) : rand_scope.
Local Open Scope rand_scope.

(** [random.randint(a, b)]: an integer of [a..b]; [ValueError] on an
    empty range. *)
Definition randint (a b : Z) : M Z :=
  fun g => if b <? a then Raise ValueError
           else Ok (a + ints g (cursor g) mod (b - a + 1), advance g).

(** [random.choice(seq)]: an element of [seq]; [IndexError] on an empty
    sequence. *)
Definition choice {A : Type} (seq : list A) : M A :=
  fun g => match nth_error seq
                   (Z.to_nat (ints g (cursor g) mod Z.of_nat (length seq))) with
           | Some x => Ok (x, advance g)
           | None => Raise IndexError
           end.

(** [random.random()]: the next floating-point draw; the library promises
    a value of [0, 1), see [in_unit]. *)
Definition random_random : M float :=
  fun g => Ok (units g (cursor g), advance g).

Definition in_unit (r : float) : Prop :=
  (0 <=? r)%float = true /\ (r <? 1)%float = true.

(** ** MIDI messages *)

Inductive Message : Type :=
| note_on (note velocity time channel : Z)
| note_off (note velocity time channel : Z)
| program_change (program channel time : Z)
| control_change (channel control value time : Z)
| set_tempo (tempo time : Z).

Definition MidiTrack : Type := list Message.

Definition time_of (m : Message) : Z :=
  match m with
  | note_on _ _ t _ => t
  | note_off _ _ t _ => t
  | program_change _ _ t => t
  | control_change _ _ _ t => t
  | set_tempo _ t => t
  end.

(** Ticks a track lasts: the sum of the delta-times of its messages. *)
Definition total_ticks (track : MidiTrack) : Z :=
  fold_right (fun m acc => time_of m + acc) 0 track.

(** ** Python containers *)

(** A dict literal with string keys, in insertion order. *)
Fixpoint lookup {V : Type} (k : string) (d : list (string * V)) : option V :=
  match d with
  | [] => None
  | (k', v) :: d' => if String.eqb k k' then Some v else lookup k d'
  end.

Definition keys {V : Type} (d : list (string * V)) : list string :=
  map fst d.

(** [sorted(pattern, key=lambda x: x[1])]: a stable sort on the step. *)
Fixpoint insert_by_step (x : string * Z) (l : list (string * Z))
  : list (string * Z) :=
  match l with
  | [] => [x]
  | y :: l' => if snd x <=? snd y then x :: l else y :: insert_by_step x l'
  end.

Definition sorted (pattern : list (string * Z)) : list (string * Z) :=
  fold_right insert_by_step [] pattern.

(** ** Drum tables, the same in both programs *)

Definition DRUM_PATTERN_A : list (string * Z) :=
  [ ("K",1); ("H",2); ("H",3); ("H",4);
    ("S",5); ("H",6); ("H",7); ("H",8);
    ("K",9); ("H",10); ("H",11); ("H",12);
    ("S",13); ("H",14); ("H",15); ("H",16) ].

Definition DRUM_PATTERN_B : list (string * Z) :=
  [ ("K",1); ("H",2); ("H",3); ("H",4);
    ("S",5); ("H",6); ("K",7); ("H",8);
    ("K",9); ("H",10); ("H",11); ("H",12);
    ("S",13); ("H",14); ("K",15); ("H",16) ].

Definition DRUM_PATTERN_C : list (string * Z) :=
  [ ("K",1); ("H",2); ("H",3); ("H",4);
    ("S",5); ("H",6); ("S",7); ("H",8);
    ("K",9); ("K",10); ("S",11); ("S",12);
    ("K",13); ("H",14); ("S",15); ("H",16) ].

Definition DRUM_NOTE_MAP : list (string * Z) :=
  [ ("K", 36); ("S", 38); ("H", 42) ].

Definition DRUM_MARKOV : list (string * list (string * float)) :=
  [ ("A", [("A", 0.4%float); ("B", 0.4%float); ("C", 0.2%float)]);
    ("B", [("A", 0.3%float); ("B", 0.2%float); ("C", 0.5%float)]);
    ("C", [("A", 0.6%float); ("B", 0.4%float)]) ].

Definition get_drum_pattern_map : list (string * list (string * Z)) :=
  [ ("A", DRUM_PATTERN_A); ("B", DRUM_PATTERN_B); ("C", DRUM_PATTERN_C) ].

(** The walk of [choose_next_pattern] over the transition list, the same
    in both programs: one starts its accumulator at [0.0], the other at
    the integer [0], which the first addition turns into the same
    float. *)
Fixpoint choose_walk (choices : list (string * float)) (r accum : float)
  : option string :=
  match choices with
  | [] => None
  | (pat_id, prob) :: rest =>
      let accum := (accum + prob)%float in
      if (r <? accum)%float then Some pat_id else choose_walk rest r accum
  end.

Definition choose_next_pattern (current_id : string) : M (option string) :=
  match lookup current_id DRUM_MARKOV with
  | None => ret None
  | Some choices =>
      r <- random_random ;;
      ret (choose_walk choices r 0%float)
  end.

(** What one pass through the body of a [while] loop leaves behind. *)
Inductive flow (S : Type) : Type :=
| Continue (s : S)
| Break (s : S).
Arguments Continue {S} s.
Arguments Break {S} s.

(** State of the drum loops: elapsed ticks, current pattern, track. *)
Record drum_state : Type := mkDrum {
  current_time : Z;
  current_id : option string;
  drum_track : MidiTrack
}.

(** [while cond: body], unrolled at most [fuel] times. *)
Fixpoint while_loop {S : Type} (cond : S -> bool) (body : S -> M (flow S))
  (fuel : nat) (s : S) : M S :=
  fun g =>
    if cond s then
      match fuel with
      | O => Raise OutOfFuel
      | Datatypes.S fuel' =>
          match body s g with
          | Ok (Continue s', g') => while_loop cond body fuel' s' g'
          | Ok (Break s', g') => Ok (s', g')
          | Raise e => Raise e
          end
      end
    else Ok (s, g).

(** ** en_musictester.py *)

Module EnMusictester.

Definition SCALE_OPTIONS : list (string * list Z) :=
  [ ("Rock (Minor Pentatonic)", [0; 3; 5; 7; 10; 12]);
    ("Blues (Blues Scale)", [0; 3; 5; 6; 7; 10; 12]);
    ("Metal (Phrygian Dominant)", [0; 1; 4; 5; 7; 8; 10; 12]);
    ("Ballad (Major Scale)", [0; 2; 4; 5; 7; 9; 11; 12]);
    ("Classical (Harmonic Minor)", [0; 2; 3; 5; 7; 8; 11; 12]) ].

Definition get_drums_pattern_map : list (string * list (string * Z)) :=
  get_drum_pattern_map.

(** The [for] loop of [write_drum_measure]; yields the final
    [accum_time] and the track. *)
Fixpoint measure_loop (sorted_pattern : list (string * Z))
  (step_tick channel accum_time : Z) (drum_track : MidiTrack)
  : M (Z * MidiTrack) :=
  match sorted_pattern with
  | [] => ret (accum_time, drum_track)
  | (drum_key, step) :: rest =>
      let event_tick := (step - 1) * step_tick in
      let delta_time := event_tick - accum_time in
      let accum_time := event_tick in
      match lookup drum_key DRUM_NOTE_MAP with
      | Some note_num =>
          velocity <- randint 70 100 ;;
          measure_loop rest step_tick channel (accum_time + 50)
            (drum_track ++ [note_on note_num velocity delta_time channel;
                            note_off note_num 0 50 channel])
      | None => measure_loop rest step_tick channel accum_time drum_track
      end
  end.

Definition write_drum_measure (drum_track : MidiTrack)
  (pattern : list (string * Z)) (measure_ticks channel : Z) : M MidiTrack :=
  let step_tick := measure_ticks / 16 in
  '(accum_time, drum_track) <-
     measure_loop (sorted pattern) step_tick channel 0 drum_track ;;
  let remainder := measure_ticks - accum_time in
  let remainder := if remainder <? 0 then 0 else remainder in
  if remainder >? 0
  then ret (drum_track ++ [note_on 36 0 remainder channel])
  else ret drum_track.

(** The [for] loop of [write_drum_partial_measure]; its only exit before
    the end of the pattern is the [break] on a step past the budget. *)
Fixpoint partial_loop (sorted_pattern : list (string * Z))
  (leftover_ticks channel accum_time : Z) (drum_track : MidiTrack)
  : M (Z * MidiTrack) :=
  match sorted_pattern with
  | [] => ret (accum_time, drum_track)
  | (drum_key, step) :: rest =>
      let event_tick := (step - 1) * 120 in
      if event_tick >? leftover_ticks then ret (accum_time, drum_track)
      else
        let delta_time := event_tick - accum_time in
        let accum_time := event_tick in
        match lookup drum_key DRUM_NOTE_MAP with
        | Some note_num =>
            velocity <- randint 70 100 ;;
            let off_time :=
              if event_tick + 50 >? leftover_ticks
              then (let off_time := leftover_ticks - event_tick in
                    if off_time <? 0 then 0 else off_time)
              else 50 in
            partial_loop rest leftover_ticks channel (accum_time + off_time)
              (drum_track ++ [note_on note_num velocity delta_time channel;
                              note_off note_num 0 off_time channel])
        | None => partial_loop rest leftover_ticks channel accum_time drum_track
        end
  end.

Definition write_drum_partial_measure (drum_track : MidiTrack)
  (pattern : list (string * Z)) (leftover_ticks channel : Z) : M MidiTrack :=
  '(accum_time, drum_track) <-
     partial_loop (sorted pattern) leftover_ticks channel 0 drum_track ;;
  let remainder := leftover_ticks - accum_time in
  if remainder >? 0
  then ret (drum_track ++ [note_on 36 0 remainder channel])
  else ret drum_track.

(** One pass through the body of the [while] of
    [generate_drum_to_fit_time]. *)
Definition fit_body (total_melody_ticks channel : Z) (s : drum_state)
  : M (flow drum_state) :=
  let measure_ticks := 1920 in
  let pattern_map := get_drums_pattern_map in
  current_pattern_id <-
    match current_id s with
    | Some id => if String.eqb id "" then choice (keys pattern_map) else ret id
    | None => choice (keys pattern_map)
    end ;;
  match lookup current_pattern_id pattern_map with
  | None => raise KeyError
  | Some pattern =>
      let leftover := total_melody_ticks - current_time s in
      if leftover <=? 0
      then ret (Break (mkDrum (current_time s) (Some current_pattern_id)
                         (drum_track s)))
      else if leftover >=? measure_ticks then
        track <- write_drum_measure (drum_track s) pattern measure_ticks channel ;;
        next_pattern_id <- choose_next_pattern current_pattern_id ;;
        ret (Continue (mkDrum (current_time s + measure_ticks)
                         next_pattern_id track))
      else
        track <- write_drum_partial_measure (drum_track s) pattern leftover
                   channel ;;
        ret (Break (mkDrum (current_time s + leftover)
                      (Some current_pattern_id) track))
  end.

(** [generate_drum_to_fit_time]; the final loop state stands for the
    mutated track and the local [current_time]. *)
Definition generate_drum_to_fit_time (fuel : nat) (drum_track : MidiTrack)
  (total_melody_ticks channel : Z) : M drum_state :=
  current_pattern_id <- choice (keys get_drums_pattern_map) ;;
  while_loop (fun s => current_time s <? total_melody_ticks)
    (fit_body total_melody_ticks channel) fuel
    (mkDrum 0 (Some current_pattern_id) drum_track).

(** [min] and [max] of a list; [ValueError] on an empty one. *)
Definition py_min (l : list nat) : result nat :=
  match l with
  | [] => Raise ValueError
  | x :: l' => Ok (fold_left Nat.min l' x)
  end.

Definition py_max (l : list nat) : result nat :=
  match l with
  | [] => Raise ValueError
  | x :: l' => Ok (fold_left Nat.max l' x)
  end.

(** [range(lo, hi)]. *)
Definition range (lo hi : nat) : list nat := seq lo (hi - lo).

(** Consecutive slices of [ary] of the given sizes. *)
Fixpoint slices (sizes : list nat) (ary : list nat) : list (list nat) :=
  match sizes with
  | [] => []
  | n :: sizes' => firstn n ary :: slices sizes' (skipn n ary)
  end.

(** [numpy.array_split(ary, Nsections)]: [Nsections] consecutive slices,
    the first [len(ary) % Nsections] one element longer than the others;
    [ValueError] when there is no section to make. *)
Definition array_split (ary : list nat) (Nsections : nat)
  : result (list (list nat)) :=
  match Nsections with
  | O => Raise ValueError
  | _ =>
      let Ntotal := List.length ary in
      let Neach_section := Nat.div Ntotal Nsections in
      let extras := Nat.modulo Ntotal Nsections in
      let section_sizes :=
        repeat (Datatypes.S Neach_section) extras
        ++ repeat Neach_section (Nsections - extras) in
      Ok (slices section_sizes ary)
  end.

(** The inner [for idx, seg in enumerate(splitted_ranges)]: the index of
    the first segment with [seg[0] <= length <= seg[-1]], if any;
    indexing an empty segment is an [IndexError]. *)
Fixpoint find_segment (length : nat) (idx : nat)
  (splitted_ranges : list (list nat)) : result (option nat) :=
  match splitted_ranges with
  | [] => Ok None
  | seg :: rest =>
      match seg with
      | [] => Raise IndexError
      | seg0 :: _ =>
          if (seg0 <=? length)%nat && (length <=? last seg seg0)%nat
          then Ok (Some idx)
          else find_segment length (Datatypes.S idx) rest
      end
  end.

(** The outer [for length in word_lengths]. *)
Fixpoint map_lengths (word_lengths : list nat)
  (splitted_ranges : list (list nat)) (mapped_indices : list nat)
  : result (list nat) :=
  match word_lengths with
  | [] => Ok mapped_indices
  | length :: rest =>
      match find_segment length 0 splitted_ranges with
      | Raise e => Raise e
      | Ok (Some idx) =>
          map_lengths rest splitted_ranges (mapped_indices ++ [idx])
      | Ok None => map_lengths rest splitted_ranges mapped_indices
      end
  end.

(** Melody generation of [on_generate_midi], up to the degree indices. *)
Definition mapped_indices (words : list string) (n_scales : nat)
  : result (list nat) :=
  let word_lengths := map String.length words in
  match py_min word_lengths with
  | Raise e => Raise e
  | Ok min_len =>
      match py_max word_lengths with
      | Raise e => Raise e
      | Ok max_len =>
          match array_split (range min_len (max_len + 1)) n_scales with
          | Raise e => Raise e
          | Ok splitted_ranges => map_lengths word_lengths splitted_ranges []
          end
      end
  end.

End EnMusictester.

(** ** Python string operations, on code points below 256 *)

Module Str.

(** [str.isspace] of one character. *)
Definition isspace (c : ascii) : bool :=
  let n := nat_of_ascii c in
  ((9 <=? n) && (n <=? 13) || (28 <=? n) && (n <=? 32)
   || (n =? 133) || (n =? 160))%nat.

(** The line boundaries of [str.splitlines]. *)
Definition is_linebreak (c : ascii) : bool :=
  let n := nat_of_ascii c in
  ((10 <=? n) && (n <=? 13) || (28 <=? n) && (n <=? 30) || (n =? 133))%nat.

Definition CR : ascii := ascii_of_nat 13.
Definition LF : ascii := ascii_of_nat 10.

Fixpoint splitlines_from (line text : string) : list string :=
  match text with
  | EmptyString =>
      match line with
      | EmptyString => []
      | _ => [line]
      end
  | String c text' =>
      if is_linebreak c then
        line ::
          (if Ascii.eqb c CR then
             match text' with
             | String c' text'' =>
                 if Ascii.eqb c' LF then splitlines_from "" text''
                 else splitlines_from "" text'
             | EmptyString => splitlines_from "" text'
             end
           else splitlines_from "" text')
      else splitlines_from (line ++ String c "")%string text'
  end.

Definition splitlines (text : string) : list string :=
  splitlines_from "" text.

Fixpoint lstrip (s : string) : string :=
  match s with
  | EmptyString => ""
  | String c s' => if isspace c then lstrip s' else s
  end.

Fixpoint rstrip (s : string) : string :=
  match s with
  | EmptyString => ""
  | String c s' =>
      match rstrip s' with
      | EmptyString => if isspace c then "" else String c ""
      | t => String c t
      end
  end.

Definition strip (s : string) : string := rstrip (lstrip s).

Definition lower_char (c : ascii) : ascii :=
  let n := nat_of_ascii c in
  if ((65 <=? n) && (n <=? 90)
      || (192 <=? n) && (n <=? 222) && negb (n =? 215))%nat
  then ascii_of_nat (n + 32)
  else c.

Fixpoint lower (s : string) : string :=
  match s with
  | EmptyString => ""
  | String c s' => String (lower_char c) (lower s')
  end.

Definition startswith (s p : string) : bool := String.prefix p s.

(** [s[1:]]. *)
Definition tail (s : string) : string :=
  match s with
  | EmptyString => ""
  | String _ s' => s'
  end.

(** [s.split()]: the maximal runs of characters that are not spaces. *)
Fixpoint split_from (word s : string) : list string :=
  match s with
  | EmptyString =>
      match word with
      | EmptyString => []
      | _ => [word]
      end
  | String c s' =>
      if isspace c then
        match word with
        | EmptyString => split_from "" s'
        | _ => word :: split_from "" s'
        end
      else split_from (word ++ String c "")%string s'
  end.

Definition split (s : string) : list string := split_from "" s.

(** [re.split(r"\s+", s)]: the pieces between maximal runs of spaces,
    empty pieces at either end included; [gap] tells that the scan is
    inside such a run. *)
Fixpoint re_split_from (gap : bool) (piece s : string) : list string :=
  match s with
  | EmptyString => [piece]
  | String c s' =>
      if isspace c then
        if gap then re_split_from true piece s'
        else piece :: re_split_from true "" s'
      else re_split_from false (piece ++ String c "")%string s'
  end.

Definition re_split_spaces (s : string) : list string :=
  re_split_from false "" s.

(** [re.sub(r"[,\.\?!;:]", "", w)]. *)
Definition is_punct (c : ascii) : bool :=
  let n := nat_of_ascii c in
  ((n =? 44) || (n =? 46) || (n =? 63) || (n =? 33) || (n =? 59)
   || (n =? 58))%nat.

Fixpoint remove_punct (w : string) : string :=
  match w with
  | EmptyString => ""
  | String c w' =>
      if is_punct c then remove_punct w' else String c (remove_punct w')
  end.

Definition nonempty (s : string) : bool :=
  match s with
  | EmptyString => false
  | _ => true
  end.

(** [[re.sub(..., "", w) for w in re.split(r"\s+", ln) if w.strip()]]. *)
Definition clean_words (ln : string) : list string :=
  map remove_punct
    (filter (fun w => nonempty (strip w)) (re_split_spaces ln)).

End Str.

(** ** random_music.py *)

Module RandomMusic.

Definition TYPE_INSTRUMENTS : list (string * list Z) :=
  [ ("rock", [29; 30; 31; 24; 25]);
    ("metal", [30; 31; 80; 81]);
    ("pop", [0; 4; 24; 40; 73]);
    ("classical", [40; 41; 42; 43; 44; 45; 46]);
    ("default", [0; 24; 32; 40; 56; 57; 72; 73; 74]) ].

Definition MAJOR_SCALE : list Z := [0; 2; 4; 5; 7; 9; 11; 12].

(** A note event of a section: (note_num, velocity, dur, gap). *)
Definition note_event : Type := (Z * Z * Z * Z)%type.

(** The [for w in words] of [generate_section_data]. *)
Fixpoint section_loop (words : list string) (is_chorus : bool)
  (note_durations : list Z) (base_note : Z)
  (section_data : list note_event) (total_length : Z)
  : M (list note_event * Z) :=
  match words with
  | [] => ret (section_data, total_length)
  | w :: rest =>
      let l := String.length w in
      if (l <=? 0)%nat
      then section_loop rest is_chorus note_durations base_note
             section_data total_length
      else
        let idx_scale := Nat.modulo l (List.length MAJOR_SCALE) in
        match nth_error MAJOR_SCALE idx_scale with
        | None => raise IndexError
        | Some pitch_offset =>
            let note_num := base_note + pitch_offset in
            dur <- choice note_durations ;;
            velocity <- (if is_chorus then randint 100 127
                         else randint 80 120) ;;
            gap <- (if is_chorus then randint 0 120 else ret 0) ;;
            section_loop rest is_chorus note_durations base_note
              (section_data ++ [(note_num, velocity, dur, gap)])
              (total_length + (dur + gap))
        end
  end.

Definition generate_section_data (words : list string) (is_chorus : bool)
  : M (list note_event * Z) :=
  let note_durations := if is_chorus then [480; 960; 1920]
                        else [240; 480; 960] in
  let base_note := if is_chorus then 64 else 60 in
  section_loop words is_chorus note_durations base_note [] 0.

(** The [for] of [apply_section_data_to_channel], from a given track and
    running total. *)
Fixpoint apply_loop (section_data : list note_event) (channel : Z)
  (track : MidiTrack) (total_used : Z) : MidiTrack * Z :=
  match section_data with
  | [] => (track, total_used)
  | (note_num, velocity, dur, gap) :: rest =>
      let track := track ++ [note_on note_num velocity 0 channel;
                             note_off note_num 0 dur channel] in
      let total_used := total_used + dur in
      if gap >? 0
      then apply_loop rest channel
             (track ++ [note_on note_num 0 gap channel]) (total_used + gap)
      else apply_loop rest channel track total_used
  end.

Definition apply_section_data_to_channel (track : MidiTrack)
  (section_data : list note_event) (channel bpm : Z) : MidiTrack * Z :=
  apply_loop section_data channel track 0.

(** [max(track_lengths) if track_lengths else 0]. *)
Definition max_or_zero (track_lengths : list Z) : Z :=
  match track_lengths with
  | [] => 0
  | x :: l => fold_left Z.max l x
  end.

(** [TYPE_INSTRUMENTS.get(music_type, TYPE_INSTRUMENTS["default"])]. *)
Definition instrument_pool (music_type : string) : result (list Z) :=
  match lookup "default" TYPE_INSTRUMENTS with
  | None => Raise KeyError
  | Some fallback =>
      match lookup music_type TYPE_INSTRUMENTS with
      | Some pool => Ok pool
      | None => Ok fallback
      end
  end.

(** The [for (drum_key, step) in sorted_pat] of
    [write_full_drum_measure]. *)
Fixpoint full_loop (sorted_pat : list (string * Z)) (step_tick accum : Z)
  (track : MidiTrack) : M (Z * MidiTrack) :=
  match sorted_pat with
  | [] => ret (accum, track)
  | (drum_key, step) :: rest =>
      let event_tick := (step - 1) * step_tick in
      let delta := event_tick - accum in
      let accum := event_tick in
      match lookup drum_key DRUM_NOTE_MAP with
      | Some note_num =>
          vel <- randint 60 100 ;;
          full_loop rest step_tick (accum + 50)
            (track ++ [note_on note_num vel delta 9; note_off note_num 0 50 9])
      | None => full_loop rest step_tick accum track
      end
  end.

Definition write_full_drum_measure (track : MidiTrack)
  (pattern : list (string * Z)) (current_time measure_ticks : Z)
  : M (MidiTrack * Z) :=
  let step_tick := measure_ticks / 16 in
  '(accum, track) <- full_loop (sorted pattern) step_tick 0 track ;;
  let remain := measure_ticks - accum in
  let remain := if remain <? 0 then 0 else remain in
  ret (track ++ [note_on 36 0 remain 9], current_time + measure_ticks).

(** The [for] of [write_partial_drum_measure], with both of its
    [break]s. *)
Fixpoint partial_loop (sorted_pat : list (string * Z)) (leftover accum : Z)
  (track : MidiTrack) : M (Z * MidiTrack) :=
  match sorted_pat with
  | [] => ret (accum, track)
  | (drum_key, step) :: rest =>
      let event_tick := (step - 1) * 120 in
      if event_tick >? leftover then ret (accum, track)
      else
        let delta := event_tick - accum in
        let accum := event_tick in
        match lookup drum_key DRUM_NOTE_MAP with
        | Some note_num =>
            vel <- randint 60 100 ;;
            let off_time :=
              if event_tick + 50 >? leftover
              then (let off_time := leftover - event_tick in
                    if off_time <? 0 then 0 else off_time)
              else 50 in
            let track := track ++ [note_on note_num vel delta 9;
                                   note_off note_num 0 off_time 9] in
            let accum := accum + off_time in
            if accum >=? leftover then ret (accum, track)
            else partial_loop rest leftover accum track
        | None =>
            if accum >=? leftover then ret (accum, track)
            else partial_loop rest leftover accum track
        end
  end.

Definition write_partial_drum_measure (track : MidiTrack)
  (pattern : list (string * Z)) (current_time leftover : Z)
  : M (MidiTrack * Z) :=
  '(accum, track) <- partial_loop (sorted pattern) leftover 0 track ;;
  let remain := leftover - accum in
  if remain >? 0
  then ret (track ++ [note_on 36 0 remain 9], current_time + leftover)
  else ret (track, current_time + leftover).

(** One pass through the body of the [while] of [create_drum_track]. *)
Definition drum_body (total_length : Z) (s : drum_state)
  : M (flow drum_state) :=
  let measure_ticks := 1920 in
  let pattern_map := get_drum_pattern_map in
  let leftover := total_length - current_time s in
  if leftover <=? 0 then ret (Break s)
  else
    current_id <-
      match current_id s with
      | Some id => if String.eqb id "" then choice (keys pattern_map)
                   else ret id
      | None => choice (keys pattern_map)
      end ;;
    match lookup current_id pattern_map with
    | None => raise KeyError
    | Some pattern =>
        if leftover >=? measure_ticks then
          '(track, current_time) <-
             write_full_drum_measure (drum_track s) pattern (current_time s)
               measure_ticks ;;
          next_id <- choose_next_pattern current_id ;;
          ret (Continue (mkDrum current_time next_id track))
        else
          '(track, current_time) <-
             write_partial_drum_measure (drum_track s) pattern
               (current_time s) leftover ;;
          ret (Break (mkDrum current_time (Some current_id) track))
    end.

(** [lines_to_words] of [song_mode], the same cleaning as the loop over
    the lines in [bgm_mode]. *)
Definition lines_to_words (lns : list string) : list string :=
  flat_map Str.clean_words lns.

(** The [for ln in lines] of [song_mode]: (normal_lines, chorus_lines). *)
Fixpoint partition_lines (lines normal_lines chorus_lines : list string)
  : list string * list string :=
  match lines with
  | [] => (normal_lines, chorus_lines)
  | ln :: rest =>
      let ln_stripped := Str.lstrip ln in
      if Str.startswith ln_stripped ">"
      then partition_lines rest normal_lines
             (chorus_lines ++ [Str.strip (Str.tail ln_stripped)])
      else partition_lines rest (normal_lines ++ [Str.strip ln]) chorus_lines
  end.

(** [detect_music_type]; [split()[0]] of a string without a word is an
    [IndexError]. *)
Definition detect_music_type (text : string) : result string :=
  match Str.splitlines text with
  | [] => Ok "default"
  | line0 :: _ =>
      let first_line := Str.lower (Str.strip line0) in
      if Str.startswith first_line "#" then
        match Str.split (Str.tail first_line) with
        | [] => Raise IndexError
        | candidate :: _ =>
            match lookup candidate TYPE_INSTRUMENTS with
            | Some _ => Ok candidate
            | None => Ok "default"
            end
        end
      else Ok "default"
  end.

Section Mido.

(** [mido.bpm2tempo], a function of the MIDI library; the callers pass
    it a tempo of at least 1. *)
Variable bpm2tempo : Z -> Z.

(** The head every melody channel gets before its notes: tempo,
    instrument drawn from the pool, volume. *)
Definition channel_head (ch bpm : Z) (music_type : string) : M MidiTrack :=
  let track := [] in
  let tempo_val := bpm2tempo bpm in
  let track := track ++ [set_tempo tempo_val 0] in
  match instrument_pool music_type with
  | Raise e => raise e
  | Ok pool =>
      program <- choice pool ;;
      let track := track ++ [program_change program ch 0] in
      ret (track ++ [control_change ch 7 127 0])
  end.

(** The [for ch in channels] of [bgm_mode].  A track is appended to
    [mid.tracks] when created and filled afterwards through the same
    object; in the model it joins [mid] once filled. *)
Fixpoint bgm_channels (channels : list Z) (section_data : list note_event)
  (bpm : Z) (music_type : string) (mid : list MidiTrack)
  (track_lengths : list Z) : M (list MidiTrack * list Z) :=
  match channels with
  | [] => ret (mid, track_lengths)
  | ch :: rest =>
      track <- channel_head ch bpm music_type ;;
      let '(track, used) :=
        apply_section_data_to_channel track section_data ch bpm in
      bgm_channels rest section_data bpm music_type (mid ++ [track])
        (track_lengths ++ [used])
  end.

Definition bgm_mode (mid : list MidiTrack) (text : string) (bpm : Z)
  (music_type : string) : M (list MidiTrack * Z) :=
  let lines := Str.splitlines text in
  let all_words := flat_map Str.clean_words lines in
  let loops := 2%nat in
  let repeated_words := concat (repeat all_words loops) in
  '(section_data, sec_len) <- generate_section_data repeated_words false ;;
  let channels := [0; 1] in
  '(mid, track_lengths) <-
     bgm_channels channels section_data bpm music_type mid [] ;;
  ret (mid, max_or_zero track_lengths).

(** The [for ch in channels] of [song_mode]: A, B, A again. *)
Fixpoint song_channels (channels : list Z) (A_data B_data : list note_event)
  (bpm : Z) (music_type : string) (mid : list MidiTrack)
  (track_lengths : list Z) : M (list MidiTrack * list Z) :=
  match channels with
  | [] => ret (mid, track_lengths)
  | ch :: rest =>
      track <- channel_head ch bpm music_type ;;
      let length_total := 0 in
      let '(track, used) :=
        apply_section_data_to_channel track A_data ch bpm in
      let length_total := length_total + used in
      let '(track, used) :=
        apply_section_data_to_channel track B_data ch bpm in
      let length_total := length_total + used in
      let '(track, used) :=
        apply_section_data_to_channel track A_data ch bpm in
      let length_total := length_total + used in
      song_channels rest A_data B_data bpm music_type (mid ++ [track])
        (track_lengths ++ [length_total])
  end.

Definition song_mode (mid : list MidiTrack) (text : string) (bpm : Z)
  (music_type : string) : M (list MidiTrack * Z) :=
  let lines := Str.splitlines text in
  let '(normal_lines, chorus_lines) := partition_lines lines [] [] in
  let a_words := lines_to_words normal_lines in
  let b_words := lines_to_words chorus_lines in
  match b_words with
  | [] => bgm_mode mid text bpm music_type
  | _ =>
      '(A_data, A_len) <- generate_section_data a_words false ;;
      '(B_data, B_len) <- generate_section_data b_words true ;;
      let channels := [0; 1] in
      '(mid, track_lengths) <-
         song_channels channels A_data B_data bpm music_type mid [] ;;
      ret (mid, max_or_zero track_lengths)
  end.

(** [create_drum_track]; yields [mid] with the drum track and the final
    loop state. *)
Definition create_drum_track (fuel : nat) (mid : list MidiTrack)
  (total_length bpm : Z) : M (list MidiTrack * drum_state) :=
  let track := [] in
  let tempo_val := bpm2tempo bpm in
  let track := track ++ [set_tempo tempo_val 0] in
  let track := track ++ [control_change 9 7 127 0] in
  current_id <- choice (keys get_drum_pattern_map) ;;
  s <- while_loop (fun s => current_time s <? total_length)
         (drum_body total_length) fuel (mkDrum 0 (Some current_id) track) ;;
  ret (mid ++ [drum_track s], s).

End Mido.

End RandomMusic.

(** ** The handlers of the two windows

    What a handler does between reading its widgets and asking where to
    save: the message box it shows and returns on, or the score it
    builds.  The dialogs themselves and the writing of the file are not
    part of the model. *)

Inductive reply : Type :=
| Warning (message : string)
| Error (message : string)
| Score (mid : list MidiTrack).

(** [TextToMidiSyncApp] of en_musictester.py. *)
Module TextToMidiSyncApp.

Definition KEY_OPTIONS : list (string * Z) :=
  [ ("Low (C3)", 60); ("Normal (D3)", 62); ("High (E3)", 64) ].

(** The [for idx in mapped_indices] of [on_generate_midi]. *)
Fixpoint melody_loop (mapped_indices : list nat) (scale_intervals : list Z)
  (base_note : Z) (note_durations : list Z) (melody_track : MidiTrack)
  (current_time_melody : Z) : M (MidiTrack * Z) :=
  match mapped_indices with
  | [] => ret (melody_track, current_time_melody)
  | idx :: rest =>
      match nth_error scale_intervals idx with
      | None => raise IndexError
      | Some interval =>
          let note_num := base_note + interval in
          dur <- choice note_durations ;;
          velocity <- randint 90 127 ;;
          melody_loop rest scale_intervals base_note note_durations
            (melody_track ++ [note_on note_num velocity 0 0;
                              note_off note_num 0 dur 0])
            (current_time_melody + dur)
      end
  end.

Section Mido.

Variable bpm2tempo : Z -> Z.

(** [on_generate_midi], from the content of the widgets. *)
Definition on_generate_midi (fuel : nat)
  (text_area scale_name key_name : string)
  (bpm reverb_amount chorus_amount : Z) : M reply :=
  let text := Str.strip text_area in
  if negb (Str.nonempty text) then ret (Warning "Text is empty.")
  else
    let words := Str.clean_words text in
    match words with
    | [] => ret (Warning "No valid words found.")
    | _ =>
        match lookup scale_name EnMusictester.SCALE_OPTIONS with
        | None => ret (Error "Invalid Scale selection.")
        | Some scale_intervals =>
            match lookup key_name KEY_OPTIONS with
            | None => ret (Error "Invalid Key selection.")
            | Some base_note =>
                if bpm <=? 0 then ret (Error "BPM must be >= 1.")
                else
                  let n_scales := List.length scale_intervals in
                  match EnMusictester.mapped_indices words n_scales with
                  | Raise e => raise e
                  | Ok mapped_indices =>
                      let tempo_val := bpm2tempo bpm in
                      let melody_track :=
                        [set_tempo tempo_val 0;
                         program_change 0 0 0;
                         control_change 0 7 127 0;
                         control_change 0 91 reverb_amount 0;
                         control_change 0 93 chorus_amount 0] in
                      let note_durations := [480; 960; 1920] in
                      '(melody_track, total_melody_ticks) <-
                         melody_loop mapped_indices scale_intervals base_note
                           note_durations melody_track 0 ;;
                      let drum_track0 :=
                        [set_tempo tempo_val 0;
                         control_change 9 7 127 0;
                         control_change 9 91 reverb_amount 0;
                         control_change 9 93 chorus_amount 0] in
                      s <- EnMusictester.generate_drum_to_fit_time fuel
                             drum_track0 total_melody_ticks 9 ;;
                      ret (Score [melody_track; drum_track s])
                  end
            end
        end
    end.

End Mido.

End TextToMidiSyncApp.

(** [BGMSongApp] of random_music.py. *)
Module BGMSongApp.

Section Mido.

Variable bpm2tempo : Z -> Z.

(** [on_generate], from the content of the widgets. *)
Definition on_generate (fuel : nat) (txt_input : string) (bpm_var : Z)
  (mode : string) : M reply :=
  let text := Str.rstrip txt_input in
  if negb (Str.nonempty text) then ret (Warning "No text input.")
  else
    let bpm := if bpm_var <? 1 then 120 else bpm_var in
    match RandomMusic.detect_music_type text with
    | Raise e => raise e
    | Ok music_type =>
        let mid := [] in
        '(mid, total_len) <-
           (if String.eqb mode "BGM"
            then RandomMusic.bgm_mode bpm2tempo mid text bpm music_type
            else RandomMusic.song_mode bpm2tempo mid text bpm music_type) ;;
        '(mid, _) <-
           RandomMusic.create_drum_track bpm2tempo fuel mid total_len bpm ;;
        ret (Score mid)
    end.

End Mido.

End BGMSongApp.

(** ** Vocabulary of the statements *)

(** The role of a pair is one that [DRUM_NOTE_MAP] knows. *)
Definition known_key (p : string * Z) : bool :=
  match lookup (fst p) DRUM_NOTE_MAP with
  | Some _ => true
  | None => false
  end.

(** The steps grow strictly, from above [lo]. *)
Fixpoint ascending (lo : Z) (pat : list (string * Z)) : bool :=
  match pat with
  | [] => true
  | (_, step) :: rest => (lo <? step) && ascending step rest
  end.

(** What the renderers rely on: once sorted, a pattern has strictly
    growing steps of 1..16 and only known roles. *)
Definition well_formed (pattern : list (string * Z)) : bool :=
  ascending 0 (sorted pattern)
  && forallb known_key (sorted pattern)
  && forallb (fun p => snd p <=? 16) (sorted pattern).

(** The tick of the pair's step is within the budget. *)
Definition within (leftover : Z) (p : string * Z) : bool :=
  (snd p - 1) * 120 <=? leftover.

(** The notes struck by a track: its note-ons of positive velocity. *)
Definition struck (evs : MidiTrack) : list Z :=
  flat_map (fun m => match m with
                     | note_on n v _ _ => if 0 <? v then [n] else []
                     | _ => []
                     end) evs.

(** The notes of the pairs of a pattern. *)
Definition drum_notes (pairs : list (string * Z)) : list Z :=
  flat_map (fun p => match lookup (fst p) DRUM_NOTE_MAP with
                     | Some n => [n]
                     | None => []
                     end) pairs.

Definition nonneg_time (m : Message) : Prop := 0 <= time_of m.

(** A note-off lasts at most the 50 ticks of a full one, and at least 0. *)
Definition off_clamped (m : Message) : Prop :=
  match m with
  | note_off _ _ t _ => 0 <= t <= 50
  | _ => True
  end.

(** A note-off of the full 50 ticks. *)
Definition full_off (m : Message) : Prop :=
  match m with
  | note_off _ _ t _ => t = 50
  | _ => True
  end.

(** The filler that pads a measure by [remain] ticks, when there are
    ticks to pad. *)
Definition filler (remain channel : Z) : MidiTrack :=
  if remain >? 0 then [note_on 36 0 remain channel] else [].

(** The current pattern is unset or names a pattern of the map. *)
Definition id_ok (id : option string) : bool :=
  match id with
  | None => true
  | Some id =>
      String.eqb id ""
      || match lookup id get_drum_pattern_map with
         | Some _ => true
         | None => false
         end
  end.

(** One pass through the body of a drum loop either renders a full
    measure and goes on 1920 ticks later, or renders what is left and
    leaves the loop at the target. *)
Definition pass_spec (total : Z) (body : drum_state -> M (flow drum_state))
  (s : drum_state) (g : rng) : Prop :=
  exists s' g' evs,
    drum_track s' = drum_track s ++ evs
    /\ ((body s g = Ok (Continue s', g')
         /\ 1920 <= total - current_time s
         /\ current_time s' = current_time s + 1920
         /\ total_ticks evs = 1920
         /\ id_ok (current_id s') = true)
        \/ (body s g = Ok (Break s', g')
            /\ total - current_time s < 1920
            /\ current_time s' = total
            /\ total_ticks evs = total - current_time s)).

(** What a rendered partial measure owes its budget: [hits] strikes the
    pairs whose tick is within [leftover] and no other, its note-offs
    are clamped, none but the last one shortened, and with the filler
    behind it the track never runs past the budget and ends on it. *)
Definition partial_ok (leftover channel : Z) (pattern : list (string * Z))
  (hits : MidiTrack) : Prop :=
  let evs := hits ++ filler (leftover - total_ticks hits) channel in
  struck evs = drum_notes (filter (within leftover) (sorted pattern))
  /\ Forall off_clamped evs
  /\ Forall full_off (removelast hits)
  /\ Forall nonneg_time evs
  /\ (forall n, total_ticks (firstn n evs) <= leftover)
  /\ total_ticks evs = leftover.

(** The cumulative probability at entry [k] of a transition list, added
    up in binary64 from [accum] as the walk does. *)
Fixpoint cumulative (choices : list (string * float)) (accum : float)
  (k : nat) : float :=
  match choices with
  | [] => accum
  | (_, prob) :: rest =>
      match k with
      | O => (accum + prob)%float
      | S k' => cumulative rest (accum + prob)%float k'
      end
  end.

(** The probabilities of a transition list, added up in binary64. *)
Definition total_probability (choices : list (string * float)) : float :=
  fold_left (fun accum c => (accum + snd c)%float) choices 0%float.

(** Entry [k] is the first one whose cumulative probability exceeds [r]. *)
Definition first_exceeding (choices : list (string * float)) (r : float)
  (k : nat) : Prop :=
  (r <? cumulative choices 0 k)%float = true
  /\ forall j, (j < k)%nat -> (r <? cumulative choices 0 j)%float = false.

(** No entry has a cumulative probability that exceeds [r]. *)
Definition none_exceeding (choices : list (string * float)) (r : float)
  : Prop :=
  forall k, (k < List.length choices)%nat ->
            (r <? cumulative choices 0 k)%float = false.

(** The loop state with its current pattern set. *)
Definition with_id (s : drum_state) (id : string) : drum_state :=
  mkDrum (current_time s) (Some id) (drum_track s).

(** The policy of a section: allowed durations and base note. *)
Definition durations_of (is_chorus : bool) : list Z :=
  if is_chorus then [480; 960; 1920] else [240; 480; 960].

Definition base_note_of (is_chorus : bool) : Z :=
  if is_chorus then 64 else 60.

(** The bounds of a note event under the policy. *)
Definition event_ok (is_chorus : bool) (e : RandomMusic.note_event) : Prop :=
  let '(note_num, velocity, dur, gap) := e in
  In dur (durations_of is_chorus)
  /\ 0 < dur
  /\ (if is_chorus
      then 100 <= velocity <= 127 /\ 0 <= gap <= 120
      else 80 <= velocity <= 120 /\ gap = 0).

(** The sum of (duration + gap) over the events of a section. *)
Definition section_ticks (data : list RandomMusic.note_event) : Z :=
  fold_right (fun e acc => let '(_, _, dur, gap) := e in dur + gap + acc)
    0 data.

(** The words that get a note: those that are not empty. *)
Definition sung (words : list string) : list string :=
  filter (fun w => negb (String.length w <=? 0)%nat) words.

(** The pitch of a word: the scale degree its length picks, on the base
    note of the policy. *)
Definition pitch_of (is_chorus : bool) (w : string) : Z :=
  base_note_of is_chorus
  + nth (Nat.modulo (String.length w) (List.length RandomMusic.MAJOR_SCALE))
      RandomMusic.MAJOR_SCALE 0.

Definition note_num_of (e : RandomMusic.note_event) : Z :=
  let '(note_num, _, _, _) := e in note_num.

(** The messages a note event becomes on a channel. *)
Definition render_event (channel : Z) (e : RandomMusic.note_event)
  : MidiTrack :=
  let '(note_num, velocity, dur, gap) := e in
  [note_on note_num velocity 0 channel; note_off note_num 0 dur channel]
  ++ (if gap >? 0 then [note_on note_num 0 gap channel] else []).

Definition render (channel : Z) (section_data : list RandomMusic.note_event)
  : MidiTrack :=
  flat_map (render_event channel) section_data.

(** A message without its channel. *)
Definition off_channel (m : Message) : Message :=
  match m with
  | note_on n v t _ => note_on n v t 0
  | note_off n v t _ => note_off n v t 0
  | program_change p _ t => program_change p 0 t
  | control_change _ c v t => control_change 0 c v t
  | set_tempo tempo t => set_tempo tempo t
  end.

(** The three messages that open a melody track. *)
Definition head_of (tempo program ch : Z) : MidiTrack :=
  [set_tempo tempo 0; program_change program ch 0; control_change ch 7 127 0].

(** The words of the verse and of the chorus of a text. *)
Definition verse_words (text : string) : list string :=
  RandomMusic.lines_to_words
    (fst (RandomMusic.partition_lines (Str.splitlines text) [] [])).

Definition chorus_words (text : string) : list string :=
  RandomMusic.lines_to_words
    (snd (RandomMusic.partition_lines (Str.splitlines text) [] [])).

(** The words of a text, all lines together, as [bgm_mode] loops them. *)
Definition looped_words (text : string) : list string :=
  let all_words := flat_map Str.clean_words (Str.splitlines text) in
  all_words ++ all_words.

(** Some character of the string is not a space. *)
Fixpoint has_nonspace (s : string) : bool :=
  match s with
  | EmptyString => false
  | String c s' => negb (Str.isspace c) || has_nonspace s'
  end.

(** The first line of the text, stripped, either does not start with
    [#] or has a character that is not a space after the [#]. *)
Definition marker_ok (text : string) : Prop :=
  match Str.splitlines text with
  | [] => True
  | line0 :: _ =>
      Str.startswith (Str.strip line0) "#" = false
      \/ has_nonspace (Str.tail (Str.strip line0)) = true
  end.

(** A verse line and a chorus line, for the examples. *)
Definition sample_song : string :=
  "hello world" ++ String Str.LF "> la la, la".

(** The sizes [array_split] gives its sections, for [Ntotal] elements. *)
Definition section_sizes (Ntotal Nsections : nat) : list nat :=
  repeat (S (Nat.div Ntotal Nsections)) (Nat.modulo Ntotal Nsections)
  ++ repeat (Nat.div Ntotal Nsections)
       (Nsections - Nat.modulo Ntotal Nsections).

(** The section that holds position [d] of the whole, for sections of
    the given sizes. *)
Fixpoint locate (sizes : list nat) (d : nat) : nat :=
  match sizes with
  | [] => 0%nat
  | n :: rest => if (d <? n)%nat then 0%nat else S (locate rest (d - n))
  end.

(** No size is larger than the one before it. *)
Fixpoint nonincreasing (sizes : list nat) : Prop :=
  match sizes with
  | [] => True
  | n :: rest =>
      match rest with
      | [] => True
      | m :: _ => (m <= n)%nat
      end /\ nonincreasing rest
  end.

(** How many sections are not empty. *)
Definition count_pos (sizes : list nat) : nat :=
  List.length (filter (fun n => (0 <? n)%nat) sizes).

(** What a rendered full measure is made of: [hits] strikes every pair
    of the pattern, in step order, each with a note-off of the full 50
    ticks and no delta-time below 0, and the filler of [remain] ticks,
    at least 70, completes the 1920 ticks. *)
Definition full_measure_ok (pattern : list (string * Z)) (hits : MidiTrack)
  (remain : Z) : Prop :=
  struck hits = drum_notes (sorted pattern)
  /\ List.length hits = (2 * List.length pattern)%nat
  /\ Forall full_off hits
  /\ Forall nonneg_time hits
  /\ 70 <= remain
  /\ total_ticks hits + remain = 1920.

(** The two messages that open the drum track of [create_drum_track]. *)
Definition drum_head (tempo : Z) : MidiTrack :=
  [set_tempo tempo 0; control_change 9 7 127 0].

(** A message a drum track may hold, on its channel: a hit of kick,
    snare or hi-hat at a velocity of [lo]..100, or the filler at
    velocity 0, after a delta-time that is not negative; a note-off of
    such a note after 0..50 ticks; the tempo and the controller
    messages that open the track, at delta-time 0, with controller and
    value in 0..127. *)
Definition drum_message (channel lo : Z) (m : Message) : Prop :=
  match m with
  | note_on n v t c =>
      c = channel /\ In n [36; 38; 42] /\ (v = 0 \/ lo <= v <= 100) /\ 0 <= t
  | note_off n v t c =>
      c = channel /\ In n [36; 38; 42] /\ v = 0 /\ 0 <= t <= 50
  | control_change c control value t =>
      c = channel /\ 0 <= control <= 127 /\ 0 <= value <= 127 /\ t = 0
  | set_tempo _ t => t = 0
  | program_change _ _ _ => False
  end.

(** The state a pass leaves, whether it goes on or not. *)
Definition flow_state {S : Type} (f : flow S) : S :=
  match f with
  | Continue s => s
  | Break s => s
  end.

(** Some character of the string satisfies [p]. *)
Fixpoint any_char (p : ascii -> bool) (s : string) : bool :=
  match s with
  | EmptyString => false
  | String c s' => p c || any_char p s'
  end.

(** A cleaned word: no space and none of the marks [, . ? ! ; :]. *)
Definition clean_word (w : string) : Prop :=
  any_char Str.isspace w = false /\ any_char Str.is_punct w = false.


(** A fixed source for the examples. *)
Definition sample_rng : rng :=
  mkRng (fun k => Z.of_nat k * 7 + 3) (fun _ => 0.5%float) 0.

(** ** The monad and the draws *)

Lemma bind_ret {A B : Type} (a : A) (k : A -> M B) (g : rng) :
  bind (ret a) k g = k a g.
Proof. reflexivity. Qed.

Lemma bind_randint {B : Type} (a b : Z) (k : Z -> M B) (g : rng) :
  a <= b ->
  bind (randint a b) k g = k (a + ints g (cursor g) mod (b - a + 1)) (advance g).
Proof.
  intros Hab. unfold bind, randint.
  destruct (b <? a) eqn:E; [apply Z.ltb_lt in E; lia | reflexivity].
Qed.

Lemma randint_range (a b x : Z) :
  a <= b -> a <= a + x mod (b - a + 1) <= b.
Proof.
  intros Hab. pose proof (Z.mod_pos_bound x (b - a + 1)). lia.
Qed.

Lemma choice_ok {A : Type} (seq : list A) (g : rng) :
  seq <> [] -> exists x, choice seq g = Ok (x, advance g) /\ In x seq.
Proof.
  intros Hne. unfold choice.
  destruct (nth_error seq
              (Z.to_nat (ints g (cursor g) mod Z.of_nat (List.length seq))))
    as [x|] eqn:E.
  - exists x. split; [reflexivity | eapply nth_error_In; eassumption].
  - exfalso. apply nth_error_None in E.
    assert (0 < Z.of_nat (List.length seq)).
    { destruct seq; [congruence | simpl; lia]. }
    pose proof (Z.mod_pos_bound (ints g (cursor g))
                  (Z.of_nat (List.length seq))).
    lia.
Qed.

Lemma total_ticks_app (t1 t2 : MidiTrack) :
  total_ticks (t1 ++ t2) = total_ticks t1 + total_ticks t2.
Proof.
  unfold total_ticks. induction t1 as [|m t1 IH]; simpl; [reflexivity | lia].
Qed.

(** Sums the delta-times of the explicit messages of the goal. *)
Ltac ticks :=
  rewrite ?total_ticks_app; unfold total_ticks in *;
  cbn [fold_right time_of] in *; try lia.

Lemma total_ticks_firstn (evs : MidiTrack) (n : nat) :
  Forall nonneg_time evs -> total_ticks (firstn n evs) <= total_ticks evs.
Proof.
  intros H. revert n. induction H as [|m evs Hm _ IH]; intros n.
  - rewrite firstn_nil. lia.
  - destruct n as [|n]; simpl.
    + unfold nonneg_time in Hm.
      assert (0 <= total_ticks evs) by (specialize (IH 0%nat); simpl in IH; exact IH).
      unfold total_ticks in *. lia.
    + specialize (IH n). unfold total_ticks in *. lia.
Qed.

(** ** Sorting a pattern *)

Lemma insert_by_step_forallb (f : string * Z -> bool) x l :
  forallb f (insert_by_step x l) = f x && forallb f l.
Proof.
  induction l as [|y l IH]; simpl.
  - reflexivity.
  - destruct (snd x <=? snd y); simpl; [reflexivity|].
    rewrite IH. destruct (f x), (f y); reflexivity.
Qed.

Lemma sorted_forallb (f : string * Z -> bool) pattern :
  forallb f (sorted pattern) = forallb f pattern.
Proof.
  induction pattern as [|x l IH]; simpl; [reflexivity|].
  rewrite insert_by_step_forallb, IH. reflexivity.
Qed.

Lemma pattern_map_cases (id : string) (pattern : list (string * Z)) :
  lookup id get_drum_pattern_map = Some pattern ->
  pattern = DRUM_PATTERN_A \/ pattern = DRUM_PATTERN_B
  \/ pattern = DRUM_PATTERN_C.
Proof.
  unfold get_drum_pattern_map. simpl.
  destruct (String.eqb id "A"); [intros [= <-]; auto|].
  destruct (String.eqb id "B"); [intros [= <-]; auto|].
  destruct (String.eqb id "C"); [intros [= <-]; auto|].
  discriminate.
Qed.

Lemma pattern_map_well_formed (id : string) (pattern : list (string * Z)) :
  lookup id get_drum_pattern_map = Some pattern -> well_formed pattern = true.
Proof.
  intros H. destruct (pattern_map_cases _ _ H) as [-> | [-> | ->]];
    reflexivity.
Qed.

Lemma ascending_beyond (pat : list (string * Z)) :
  forall lo leftover,
    ascending lo pat = true -> leftover < lo * 120 ->
    filter (within leftover) pat = [].
Proof.
  induction pat as [|[k s] rest IH]; intros lo leftover Hasc Hlt; simpl.
  - reflexivity.
  - simpl in Hasc. apply andb_true_iff in Hasc as [Hlo Hrest].
    apply Z.ltb_lt in Hlo.
    unfold within at 1. simpl.
    destruct ((s - 1) * 120 <=? leftover) eqn:E.
    + apply Z.leb_le in E. lia.
    + apply (IH s); [assumption | lia].
Qed.

Lemma known_key_lookup (k : string) (s : Z) :
  known_key (k, s) = true -> exists n, lookup k DRUM_NOTE_MAP = Some n.
Proof.
  unfold known_key, fst.
  destruct (lookup k DRUM_NOTE_MAP) as [n|]; [eauto | discriminate].
Qed.

Lemma drum_note_velocity (a x : Z) :
  0 < a <= 100 -> (0 <? a + x mod (100 - a + 1)) = true.
Proof.
  intros Ha. apply Z.ltb_lt.
  pose proof (Z.mod_pos_bound x (100 - a + 1)). lia.
Qed.

(** A pair put before the rest of a partial measure: its note-off is
    a full one unless nothing follows it. *)
Lemma short_last_cons (on : Message) (n off channel : Z) (evs : MidiTrack)
  (rest : list (string * Z)) (leftover : Z) :
  off = 50 \/ filter (within leftover) rest = [] ->
  List.length evs = (2 * List.length (filter (within leftover) rest))%nat ->
  Forall full_off (removelast evs) ->
  match on with note_off _ _ _ _ => False | _ => True end ->
  Forall full_off (removelast ([on; note_off n 0 off channel] ++ evs)).
Proof.
  intros Hlast Hlen Hshort Hon.
  assert (Hon' : full_off on) by (destruct on; [exact I | contradiction | exact I ..]).
  destruct evs as [|m evs].
  - cbn [app removelast]. constructor; [exact Hon' | constructor].
  - rewrite removelast_app by discriminate.
    destruct Hlast as [-> | Hnone];
      [|rewrite Hnone in Hlen; discriminate Hlen].
    cbn [app]. constructor; [exact Hon'|].
    constructor; [reflexivity | exact Hshort].
Qed.

(** ** Rendering one measure: en_musictester.py *)

(** The partial-measure loop on a pattern with growing steps and known
    roles: it cannot fail, leaves [accum_time] equal to the ticks
    emitted, never past the budget, and strikes exactly the pairs whose
    tick is within the budget. *)
Lemma en_partial_loop_spec (pat : list (string * Z)) :
  forall lo leftover channel accum track g,
    ascending lo pat = true -> forallb known_key pat = true ->
    accum <= lo * 120 -> accum <= leftover ->
    exists evs accum' g',
      EnMusictester.partial_loop pat leftover channel accum track g
      = Ok ((accum', track ++ evs), g')
      /\ total_ticks evs = accum' - accum
      /\ accum' <= leftover
      /\ Forall nonneg_time evs
      /\ Forall off_clamped evs
      /\ struck evs = drum_notes (filter (within leftover) pat)
      /\ List.length evs
         = (2 * List.length (filter (within leftover) pat))%nat
      /\ Forall full_off (removelast evs).
Proof.
  induction pat as [|[k s] rest IH];
    intros lo leftover channel accum track g Hasc Hkn Hlo Hle.
  - exists [], accum, g. simpl. rewrite app_nil_r.
    repeat split; try constructor; try lia.
  - simpl in Hasc, Hkn.
    apply andb_true_iff in Hasc as [Hs Hasc]. apply Z.ltb_lt in Hs.
    apply andb_true_iff in Hkn as [Hk Hkn].
    destruct (known_key_lookup _ _ Hk) as [n Hn].
    cbn [EnMusictester.partial_loop].
    destruct ((s - 1) * 120 >? leftover) eqn:Hbr.
    + apply Z.gtb_lt in Hbr.
      exists [], accum, g. rewrite app_nil_r.
      rewrite (ascending_beyond ((k, s) :: rest) (s - 1) leftover);
        [| simpl; rewrite Hasc;
           replace (s - 1 <? s) with true by (symmetry; apply Z.ltb_lt; lia);
           reflexivity
         | lia].
      repeat split; try constructor; try (cbn; lia).
    + assert (Hin : (s - 1) * 120 <= leftover).
      { destruct (Z.gtb_spec ((s - 1) * 120) leftover); [discriminate | lia]. }
      rewrite Hn, bind_randint by lia.
      set (v := 70 + ints g (cursor g) mod (100 - 70 + 1)).
      set (off := if (s - 1) * 120 + 50 >? leftover
                  then (if leftover - (s - 1) * 120 <? 0 then 0
                        else leftover - (s - 1) * 120)
                  else 50).
      assert (Hoff : 0 <= off <= 50 /\ (s - 1) * 120 + off <= leftover).
      { unfold off. destruct (Z.gtb_spec ((s - 1) * 120 + 50) leftover);
          [destruct (Z.ltb_spec (leftover - (s - 1) * 120) 0) |]; lia. }
      assert (Hlast : off = 50 \/ filter (within leftover) rest = []).
      { unfold off. destruct (Z.gtb_spec ((s - 1) * 120 + 50) leftover);
          [right; apply (ascending_beyond rest s); [assumption | lia]
          | left; reflexivity]. }
      destruct (IH s leftover channel ((s - 1) * 120 + off)
                  (track ++ [note_on n v ((s - 1) * 120 - accum) channel;
                             note_off n 0 off channel]) (advance g))
        as (evs & accum' & g' & Hrun & Htot & Hbound & Hnn & Hcl & Hst
            & Hlen & Hshort);
        [assumption | assumption | lia | lia |].
      exists ([note_on n v ((s - 1) * 120 - accum) channel;
               note_off n 0 off channel] ++ evs), accum', g'.
      rewrite app_assoc.
      split; [exact Hrun|].
      split; [rewrite total_ticks_app, Htot; unfold total_ticks; simpl; lia|].
      split; [exact Hbound|].
      split; [repeat constructor; unfold nonneg_time; simpl; try lia; exact Hnn|].
      split; [repeat constructor; simpl; try lia; exact Hcl|].
      assert (Hfilter : filter (within leftover) ((k, s) :: rest)
                        = (k, s) :: filter (within leftover) rest).
      { cbn [filter]. unfold within at 1. cbn [snd].
        replace ((s - 1) * 120 <=? leftover) with true
          by (symmetry; apply Z.leb_le; exact Hin).
        reflexivity. }
      rewrite Hfilter.
      split; [|split].
      * unfold drum_notes, struck. cbn [flat_map fst app]. rewrite Hn.
        unfold v. rewrite (drum_note_velocity 70) by lia.
        f_equal. exact Hst.
      * cbn [List.length app]. rewrite Hlen. lia.
      * apply (short_last_cons _ _ _ _ _ _ _ Hlast Hlen Hshort). exact I.
Qed.

Lemma well_formed_parts (pattern : list (string * Z)) :
  well_formed pattern = true ->
  ascending 0 (sorted pattern) = true
  /\ forallb known_key (sorted pattern) = true
  /\ forallb (fun p => snd p <=? 16) (sorted pattern) = true.
Proof.
  unfold well_formed. intros H.
  apply andb_true_iff in H as [H H3]. apply andb_true_iff in H as [H1 H2].
  auto.
Qed.

Lemma struck_app (t1 t2 : MidiTrack) : struck (t1 ++ t2) = struck t1 ++ struck t2.
Proof. unfold struck. apply flat_map_app. Qed.

Lemma struck_filler (remain channel : Z) : struck (filler remain channel) = [].
Proof. unfold filler. destruct (remain >? 0); reflexivity. Qed.

Lemma total_ticks_filler (remain channel : Z) :
  0 <= remain -> total_ticks (filler remain channel) = remain.
Proof.
  intros H. unfold filler.
  destruct (Z.gtb_spec remain 0); cbn; lia.
Qed.

Lemma filler_shape (remain channel : Z) :
  0 <= remain ->
  Forall nonneg_time (filler remain channel)
  /\ Forall off_clamped (filler remain channel).
Proof.
  intros H. unfold filler.
  destruct (remain >? 0); split; repeat constructor; unfold nonneg_time;
    simpl; lia.
Qed.

(** [write_drum_partial_measure] on a well-formed pattern and a budget
    that is not negative. *)
Lemma en_write_partial_spec (pattern : list (string * Z))
  (leftover channel : Z) (track : MidiTrack) (g : rng) :
  well_formed pattern = true -> 0 <= leftover ->
  exists hits g',
    EnMusictester.write_drum_partial_measure track pattern leftover channel g
    = Ok (track ++ hits ++ filler (leftover - total_ticks hits) channel, g')
    /\ total_ticks hits <= leftover
    /\ Forall nonneg_time hits
    /\ Forall off_clamped hits
    /\ struck hits = drum_notes (filter (within leftover) (sorted pattern))
    /\ Forall full_off (removelast hits).
Proof.
  intros Hwf Hle.
  destruct (well_formed_parts _ Hwf) as (Hasc & Hkn & _).
  destruct (en_partial_loop_spec (sorted pattern) 0 leftover channel 0 track g)
    as (hits & accum' & g' & Hrun & Htot & Hbound & Hnn & Hcl & Hst & _
        & Hshort);
    [assumption | assumption | lia | lia |].
  exists hits, g'.
  unfold EnMusictester.write_drum_partial_measure, bind. rewrite Hrun.
  replace (leftover - total_ticks hits) with (leftover - accum') by lia.
  split.
  - unfold filler, ret. destruct (leftover - accum' >? 0).
    + rewrite app_assoc. reflexivity.
    + rewrite app_nil_r. reflexivity.
  - repeat split; try assumption; lia.
Qed.

(** The full-measure loop, at 120 ticks a step. *)
Lemma en_measure_loop_spec (pat : list (string * Z)) :
  forall channel accum track g,
    forallb known_key pat = true ->
    forallb (fun p => snd p <=? 16) pat = true ->
    accum <= 1850 ->
    exists evs accum' g',
      EnMusictester.measure_loop pat 120 channel accum track g
      = Ok ((accum', track ++ evs), g')
      /\ total_ticks evs = accum' - accum
      /\ accum' <= 1850.
Proof.
  induction pat as [|[k s] rest IH]; intros channel accum track g Hkn Hst Hacc.
  - exists [], accum, g. cbn. rewrite app_nil_r. repeat split; lia.
  - simpl in Hkn, Hst.
    apply andb_true_iff in Hkn as [Hk Hkn].
    apply andb_true_iff in Hst as [Hs Hst]. apply Z.leb_le in Hs.
    destruct (known_key_lookup _ _ Hk) as [n Hn].
    cbn [EnMusictester.measure_loop]. rewrite Hn, bind_randint by lia.
    set (v := 70 + ints g (cursor g) mod (100 - 70 + 1)).
    destruct (IH channel ((s - 1) * 120 + 50)
                (track ++ [note_on n v ((s - 1) * 120 - accum) channel;
                           note_off n 0 50 channel]) (advance g))
      as (evs & accum' & g' & Hrun & Htot & Hbound);
      [assumption | assumption | lia |].
    exists ([note_on n v ((s - 1) * 120 - accum) channel;
             note_off n 0 50 channel] ++ evs), accum', g'.
    rewrite app_assoc. split; [exact Hrun|].
    split; [|exact Hbound].
    rewrite total_ticks_app, Htot. ticks.
Qed.

(** [write_drum_measure] emits the ticks of one measure. *)
Lemma en_write_measure_spec (pattern : list (string * Z)) (channel : Z)
  (track : MidiTrack) (g : rng) :
  well_formed pattern = true ->
  exists evs g',
    EnMusictester.write_drum_measure track pattern 1920 channel g
    = Ok (track ++ evs, g')
    /\ total_ticks evs = 1920.
Proof.
  intros Hwf. destruct (well_formed_parts _ Hwf) as (_ & Hkn & Hst).
  destruct (en_measure_loop_spec (sorted pattern) channel 0 track g)
    as (evs & accum' & g' & Hrun & Htot & Hbound);
    [assumption | assumption | lia |].
  unfold EnMusictester.write_drum_measure, bind.
  change (1920 / 16) with 120. rewrite Hrun.
  destruct (Z.ltb_spec (1920 - accum') 0); [lia|].
  destruct (Z.gtb_spec (1920 - accum') 0); [|lia].
  exists (evs ++ [note_on 36 0 (1920 - accum') channel]), g'.
  rewrite app_assoc. split; [reflexivity|].
  rewrite total_ticks_app, Htot. ticks.
Qed.

(** ** Rendering one measure: random_music.py *)

(** The partial-measure loop with its second [break]: the same account
    as in the other program, since a loop that stops on a full budget
    has no pair left within it. *)
Lemma rm_partial_loop_spec (pat : list (string * Z)) :
  forall lo leftover accum track g,
    ascending lo pat = true -> forallb known_key pat = true ->
    accum <= lo * 120 -> accum <= leftover ->
    exists evs accum' g',
      RandomMusic.partial_loop pat leftover accum track g
      = Ok ((accum', track ++ evs), g')
      /\ total_ticks evs = accum' - accum
      /\ accum' <= leftover
      /\ Forall nonneg_time evs
      /\ Forall off_clamped evs
      /\ struck evs = drum_notes (filter (within leftover) pat)
      /\ List.length evs
         = (2 * List.length (filter (within leftover) pat))%nat
      /\ Forall full_off (removelast evs).
Proof.
  induction pat as [|[k s] rest IH];
    intros lo leftover accum track g Hasc Hkn Hlo Hle.
  - exists [], accum, g. simpl. rewrite app_nil_r.
    repeat split; try constructor; try lia.
  - simpl in Hasc, Hkn.
    apply andb_true_iff in Hasc as [Hs Hasc]. apply Z.ltb_lt in Hs.
    apply andb_true_iff in Hkn as [Hk Hkn].
    destruct (known_key_lookup _ _ Hk) as [n Hn].
    cbn [RandomMusic.partial_loop].
    destruct ((s - 1) * 120 >? leftover) eqn:Hbr.
    + apply Z.gtb_lt in Hbr.
      exists [], accum, g. rewrite app_nil_r.
      rewrite (ascending_beyond ((k, s) :: rest) (s - 1) leftover);
        [| simpl; rewrite Hasc;
           replace (s - 1 <? s) with true by (symmetry; apply Z.ltb_lt; lia);
           reflexivity
         | lia].
      repeat split; try constructor; try (cbn; lia).
    + assert (Hin : (s - 1) * 120 <= leftover).
      { destruct (Z.gtb_spec ((s - 1) * 120) leftover); [discriminate | lia]. }
      rewrite Hn, bind_randint by lia.
      set (v := 60 + ints g (cursor g) mod (100 - 60 + 1)).
      set (off := if (s - 1) * 120 + 50 >? leftover
                  then (if leftover - (s - 1) * 120 <? 0 then 0
                        else leftover - (s - 1) * 120)
                  else 50).
      assert (Hoff : 0 <= off <= 50 /\ (s - 1) * 120 + off <= leftover).
      { unfold off. destruct (Z.gtb_spec ((s - 1) * 120 + 50) leftover);
          [destruct (Z.ltb_spec (leftover - (s - 1) * 120) 0) |]; lia. }
      assert (Hhead : struck [note_on n v ((s - 1) * 120 - accum) 9;
                              note_off n 0 off 9] = [n]).
      { unfold struck, v. cbn [flat_map app].
        rewrite (drum_note_velocity 60) by lia. reflexivity. }
      assert (Hkeep : filter (within leftover) ((k, s) :: rest)
                      = (k, s) :: filter (within leftover) rest).
      { cbn [filter]. unfold within at 1. cbn [snd].
        replace ((s - 1) * 120 <=? leftover) with true
          by (symmetry; apply Z.leb_le; exact Hin).
        reflexivity. }
      assert (Hfilter : drum_notes (filter (within leftover) ((k, s) :: rest))
                        = n :: drum_notes (filter (within leftover) rest)).
      { rewrite Hkeep. unfold drum_notes. cbn [flat_map fst app].
        rewrite Hn. reflexivity. }
      assert (Hlast : off = 50 \/ filter (within leftover) rest = []).
      { unfold off. destruct (Z.gtb_spec ((s - 1) * 120 + 50) leftover);
          [right; apply (ascending_beyond rest s); [assumption | lia]
          | left; reflexivity]. }
      destruct ((s - 1) * 120 + off >=? leftover) eqn:Hfull.
      * assert (Hge : leftover <= (s - 1) * 120 + off).
        { destruct (Z.geb_spec ((s - 1) * 120 + off) leftover);
            [lia | discriminate]. }
        exists [note_on n v ((s - 1) * 120 - accum) 9; note_off n 0 off 9],
          ((s - 1) * 120 + off), (advance g).
        split; [reflexivity|].
        split; [ticks|].
        split; [lia|].
        split; [repeat constructor; unfold nonneg_time; simpl; lia|].
        split; [repeat constructor; simpl; lia|].
        rewrite Hhead, Hfilter, Hkeep.
        rewrite (ascending_beyond rest s leftover) by (try assumption; lia).
        split; [reflexivity|].
        split; [reflexivity|].
        cbn [removelast]. repeat constructor.
      * destruct (IH s leftover ((s - 1) * 120 + off)
                    (track ++ [note_on n v ((s - 1) * 120 - accum) 9;
                               note_off n 0 off 9]) (advance g))
          as (evs & accum' & g' & Hrun & Htot & Hbound & Hnn & Hcl & Hst
              & Hlen & Hshort);
          [assumption | assumption | lia | lia |].
        exists ([note_on n v ((s - 1) * 120 - accum) 9;
                 note_off n 0 off 9] ++ evs), accum', g'.
        rewrite app_assoc.
        split; [exact Hrun|].
        split; [rewrite total_ticks_app, Htot; ticks|].
        split; [exact Hbound|].
        split; [repeat constructor; unfold nonneg_time; simpl; try lia;
                exact Hnn|].
        split; [repeat constructor; simpl; try lia; exact Hcl|].
        rewrite struck_app, Hhead, Hfilter, Hst, Hkeep.
        split; [reflexivity|].
        split; [cbn [List.length app]; rewrite Hlen; lia|].
        apply (short_last_cons _ _ _ _ _ _ _ Hlast Hlen Hshort). exact I.
Qed.

Lemma rm_write_partial_spec (pattern : list (string * Z))
  (current_time leftover : Z) (track : MidiTrack) (g : rng) :
  well_formed pattern = true -> 0 <= leftover ->
  exists hits g',
    RandomMusic.write_partial_drum_measure track pattern current_time
      leftover g
    = Ok ((track ++ hits ++ filler (leftover - total_ticks hits) 9,
           current_time + leftover), g')
    /\ total_ticks hits <= leftover
    /\ Forall nonneg_time hits
    /\ Forall off_clamped hits
    /\ struck hits = drum_notes (filter (within leftover) (sorted pattern))
    /\ Forall full_off (removelast hits).
Proof.
  intros Hwf Hle.
  destruct (well_formed_parts _ Hwf) as (Hasc & Hkn & _).
  destruct (rm_partial_loop_spec (sorted pattern) 0 leftover 0 track g)
    as (hits & accum' & g' & Hrun & Htot & Hbound & Hnn & Hcl & Hst & _
        & Hshort);
    [assumption | assumption | lia | lia |].
  exists hits, g'.
  unfold RandomMusic.write_partial_drum_measure, bind. rewrite Hrun.
  replace (leftover - total_ticks hits) with (leftover - accum') by lia.
  split.
  - unfold filler, ret. destruct (leftover - accum' >? 0).
    + rewrite app_assoc. reflexivity.
    + rewrite app_nil_r. reflexivity.
  - repeat split; try assumption; lia.
Qed.

Lemma rm_full_loop_spec (pat : list (string * Z)) :
  forall accum track g,
    forallb known_key pat = true ->
    forallb (fun p => snd p <=? 16) pat = true ->
    accum <= 1850 ->
    exists evs accum' g',
      RandomMusic.full_loop pat 120 accum track g
      = Ok ((accum', track ++ evs), g')
      /\ total_ticks evs = accum' - accum
      /\ accum' <= 1850.
Proof.
  induction pat as [|[k s] rest IH]; intros accum track g Hkn Hst Hacc.
  - exists [], accum, g. cbn. rewrite app_nil_r. repeat split; lia.
  - simpl in Hkn, Hst.
    apply andb_true_iff in Hkn as [Hk Hkn].
    apply andb_true_iff in Hst as [Hs Hst]. apply Z.leb_le in Hs.
    destruct (known_key_lookup _ _ Hk) as [n Hn].
    cbn [RandomMusic.full_loop]. rewrite Hn, bind_randint by lia.
    set (v := 60 + ints g (cursor g) mod (100 - 60 + 1)).
    destruct (IH ((s - 1) * 120 + 50)
                (track ++ [note_on n v ((s - 1) * 120 - accum) 9;
                           note_off n 0 50 9]) (advance g))
      as (evs & accum' & g' & Hrun & Htot & Hbound);
      [assumption | assumption | lia |].
    exists ([note_on n v ((s - 1) * 120 - accum) 9; note_off n 0 50 9] ++ evs),
      accum', g'.
    rewrite app_assoc. split; [exact Hrun|].
    split; [|exact Hbound].
    rewrite total_ticks_app, Htot. ticks.
Qed.

Lemma rm_write_full_spec (pattern : list (string * Z)) (current_time : Z)
  (track : MidiTrack) (g : rng) :
  well_formed pattern = true ->
  exists evs g',
    RandomMusic.write_full_drum_measure track pattern current_time 1920 g
    = Ok ((track ++ evs, current_time + 1920), g')
    /\ total_ticks evs = 1920.
Proof.
  intros Hwf. destruct (well_formed_parts _ Hwf) as (_ & Hkn & Hst).
  destruct (rm_full_loop_spec (sorted pattern) 0 track g)
    as (evs & accum' & g' & Hrun & Htot & Hbound);
    [assumption | assumption | lia |].
  unfold RandomMusic.write_full_drum_measure, bind.
  change (1920 / 16) with 120. rewrite Hrun.
  destruct (Z.ltb_spec (1920 - accum') 0); [lia|].
  exists (evs ++ [note_on 36 0 (1920 - accum') 9]), g'.
  rewrite app_assoc. split; [reflexivity|].
  rewrite total_ticks_app, Htot. ticks.
Qed.

(** ** The Markov walk *)

Lemma choose_walk_in (choices : list (string * float)) :
  forall r accum p,
    choose_walk choices r accum = Some p -> In p (map fst choices).
Proof.
  induction choices as [|[pat_id prob] rest IH]; intros r accum p; simpl.
  - discriminate.
  - destruct (r <? accum + prob)%float.
    + intros [= <-]. left. reflexivity.
    + intros H. right. eapply IH. eassumption.
Qed.

Lemma markov_cases (id : string) (choices : list (string * float)) :
  lookup id DRUM_MARKOV = Some choices ->
  choices = [("A", 0.4%float); ("B", 0.4%float); ("C", 0.2%float)]
  \/ choices = [("A", 0.3%float); ("B", 0.2%float); ("C", 0.5%float)]
  \/ choices = [("A", 0.6%float); ("B", 0.4%float)].
Proof.
  unfold DRUM_MARKOV. cbn [lookup].
  destruct (String.eqb id "A"); [intros [= <-]; auto|].
  destruct (String.eqb id "B"); [intros [= <-]; auto|].
  destruct (String.eqb id "C"); [intros [= <-]; auto|].
  discriminate.
Qed.

(** Whatever is drawn, the next pattern is unset or a pattern of the
    map, and the draw cannot fail. *)
Lemma choose_next_pattern_ok (id : string) (g : rng) :
  exists next g',
    choose_next_pattern id g = Ok (next, g') /\ id_ok next = true.
Proof.
  unfold choose_next_pattern.
  destruct (lookup id DRUM_MARKOV) as [choices|] eqn:E.
  - unfold bind, random_random, ret.
    exists (choose_walk choices (units g (cursor g)) 0%float), (advance g).
    split; [reflexivity|].
    destruct (choose_walk choices (units g (cursor g)) 0%float) as [p|] eqn:W;
      [|reflexivity].
    apply choose_walk_in in W.
    destruct (markov_cases _ _ E) as [-> | [-> | ->]]; simpl in W;
      intuition (subst; reflexivity).
  - exists None, g. split; reflexivity.
Qed.

(** [if not current_id: current_id = random.choice(...)], followed by
    the lookup of the pattern: it always lands on a pattern of the map. *)
Lemma resolve_current_id (cur : option string) (g : rng) :
  id_ok cur = true ->
  exists id pattern g1,
    match cur with
    | Some id =>
        if String.eqb id "" then choice (keys get_drum_pattern_map)
        else ret id
    | None => choice (keys get_drum_pattern_map)
    end g = Ok (id, g1)
    /\ lookup id get_drum_pattern_map = Some pattern.
Proof.
  intros Hok.
  assert (Hchoice : exists id pattern g1,
             choice (keys get_drum_pattern_map) g = Ok (id, g1)
             /\ lookup id get_drum_pattern_map = Some pattern).
  { destruct (choice_ok (keys get_drum_pattern_map) g) as (x & Hx & Hin);
      [discriminate|].
    simpl in Hin.
    destruct Hin as [<- | [<- | [<- | []]]];
      do 3 eexists; (split; [exact Hx | reflexivity]). }
  destruct cur as [id|]; [|exact Hchoice].
  destruct (String.eqb id "") eqn:E; [exact Hchoice|].
  unfold id_ok in Hok. rewrite E in Hok. cbn [orb] in Hok.
  destruct (lookup id get_drum_pattern_map) as [pattern|] eqn:L;
    [|discriminate].
  exists id, pattern, g. split; [reflexivity | exact L].
Qed.

(** ** The scheduler loop *)

Section Scheduler.

Variable total : Z.
Variable body : drum_state -> M (flow drum_state).

Hypothesis body_pass :
  forall s g, id_ok (current_id s) = true -> current_time s < total ->
              pass_spec total body s g.

Lemma while_loop_fits (fuel : nat) :
  forall s g,
    id_ok (current_id s) = true ->
    total - current_time s <= Z.of_nat fuel * 1920 ->
    exists s' g' evs,
      while_loop (fun s => current_time s <? total) body fuel s g
      = Ok (s', g')
      /\ drum_track s' = drum_track s ++ evs
      /\ total_ticks evs = Z.max 0 (total - current_time s)
      /\ current_time s' = Z.max (current_time s) total.
Proof.
  induction fuel as [|fuel IH]; intros s g Hid Hfuel.
  - exists s, g, []. cbn [while_loop].
    destruct (Z.ltb_spec (current_time s) total); [lia|].
    rewrite app_nil_r. repeat split; ticks.
  - cbn [while_loop].
    destruct (Z.ltb_spec (current_time s) total) as [Hlt|Hge].
    + destruct (body_pass s g Hid Hlt)
        as (s1 & g1 & evs1 & Htrack & [Hfull | Hpart]).
      * destruct Hfull as (Hrun & Hleft & Htime & Hticks & Hid1).
        rewrite Hrun.
        destruct (IH s1 g1 Hid1) as (s' & g' & evs & Hloop & Htr & Htk & Hct);
          [lia|].
        exists s', g', (evs1 ++ evs). rewrite Hloop.
        split; [reflexivity|].
        split; [rewrite Htr, Htrack, app_assoc; reflexivity|].
        split; [rewrite total_ticks_app, Htk, Hticks, Htime; lia|].
        rewrite Hct, Htime. lia.
      * destruct Hpart as (Hrun & _ & Htime & Hticks).
        rewrite Hrun. exists s1, g1, evs1.
        repeat split; try assumption; lia.
    + exists s, g, []. rewrite app_nil_r. repeat split; ticks.
Qed.

End Scheduler.

Lemma en_fit_body_pass (total channel : Z) (s : drum_state) (g : rng) :
  id_ok (current_id s) = true -> current_time s < total ->
  pass_spec total (EnMusictester.fit_body total channel) s g.
Proof.
  intros Hid Hlt.
  destruct (resolve_current_id (current_id s) g Hid)
    as (id & pattern & g1 & Hres & Hlook).
  pose proof (pattern_map_well_formed _ _ Hlook) as Hwf.
  unfold pass_spec, EnMusictester.fit_body,
    EnMusictester.get_drums_pattern_map, bind.
  rewrite Hres, Hlook.
  destruct (Z.leb_spec (total - current_time s) 0); [lia|].
  destruct (Z.geb_spec (total - current_time s) 1920) as [Hfull|Hpart].
  - destruct (en_write_measure_spec pattern channel (drum_track s) g1 Hwf)
      as (evs & g2 & Hrun & Hticks).
    destruct (choose_next_pattern_ok id g2) as (next & g3 & Hnext & Hok).
    rewrite Hrun, Hnext.
    exists (mkDrum (current_time s + 1920) next (drum_track s ++ evs)), g3, evs.
    split; [reflexivity|]. left.
    repeat split; try assumption; try reflexivity; lia.
  - destruct (en_write_partial_spec pattern (total - current_time s) channel
                (drum_track s) g1 Hwf)
      as (hits & g2 & Hrun & Hle & _); [lia|].
    rewrite Hrun.
    eexists (mkDrum _ _ _), g2, _.
    split; [reflexivity|]. right.
    split; [reflexivity|].
    split; [lia|].
    split; [cbn [current_time]; lia|].
    rewrite total_ticks_app, total_ticks_filler; lia.
Qed.

Lemma rm_drum_body_pass (total : Z) (s : drum_state) (g : rng) :
  id_ok (current_id s) = true -> current_time s < total ->
  pass_spec total (RandomMusic.drum_body total) s g.
Proof.
  intros Hid Hlt.
  destruct (resolve_current_id (current_id s) g Hid)
    as (id & pattern & g1 & Hres & Hlook).
  pose proof (pattern_map_well_formed _ _ Hlook) as Hwf.
  unfold pass_spec, RandomMusic.drum_body, bind.
  destruct (Z.leb_spec (total - current_time s) 0); [lia|].
  rewrite Hres, Hlook.
  destruct (Z.geb_spec (total - current_time s) 1920) as [Hfull|Hpart].
  - destruct (rm_write_full_spec pattern (current_time s) (drum_track s) g1
                Hwf) as (evs & g2 & Hrun & Hticks).
    destruct (choose_next_pattern_ok id g2) as (next & g3 & Hnext & Hok).
    rewrite Hrun, Hnext.
    exists (mkDrum (current_time s + 1920) next (drum_track s ++ evs)), g3, evs.
    split; [reflexivity|]. left.
    repeat split; try assumption; try reflexivity; lia.
  - destruct (rm_write_partial_spec pattern (current_time s)
                (total - current_time s) (drum_track s) g1 Hwf)
      as (hits & g2 & Hrun & Hle & _); [lia|].
    rewrite Hrun.
    eexists (mkDrum _ _ _), g2, _.
    split; [reflexivity|]. right.
    split; [reflexivity|].
    split; [lia|].
    split; [cbn [current_time]; lia|].
    rewrite total_ticks_app, total_ticks_filler; lia.
Qed.

(** Fuel for a target: one pass per started measure. *)
Lemma fuel_covers (total : Z) (fuel : nat) :
  (Z.to_nat (total / 1920) < fuel)%nat -> total - 0 <= Z.of_nat fuel * 1920.
Proof.
  intros Hfuel.
  destruct (Z_lt_le_dec total 0) as [Hneg|Hpos]; [lia|].
  pose proof (Z.div_pos total 1920 Hpos ltac:(lia)).
  pose proof (Z.mod_pos_bound total 1920 ltac:(lia)).
  pose proof (Z.div_mod total 1920 ltac:(lia)).
  lia.
Qed.

(** [generate_drum_to_fit_time] with enough fuel: it returns, having
    appended to the track events that last the target, and its
    [current_time] has reached the target. *)
Lemma en_generate_fits (fuel : nat) (track : MidiTrack) (total channel : Z)
  (g : rng) :
  (Z.to_nat (total / 1920) < fuel)%nat ->
  exists s g' evs,
    EnMusictester.generate_drum_to_fit_time fuel track total channel g
    = Ok (s, g')
    /\ drum_track s = track ++ evs
    /\ total_ticks evs = Z.max 0 total
    /\ current_time s = Z.max 0 total.
Proof.
  intros Hfuel.
  unfold EnMusictester.generate_drum_to_fit_time,
    EnMusictester.get_drums_pattern_map, bind.
  destruct (resolve_current_id None g eq_refl)
    as (id & pattern & g1 & Hres & Hlook).
  rewrite Hres.
  destruct (while_loop_fits total (EnMusictester.fit_body total channel)
              (en_fit_body_pass total channel) fuel
              (mkDrum 0 (Some id) track) g1)
    as (s & g' & evs & Hloop & Htrack & Hticks & Htime).
  - unfold id_ok. cbn [current_id]. rewrite Hlook. apply orb_true_r.
  - apply fuel_covers. exact Hfuel.
  - exists s, g', evs. cbn [current_time drum_track] in *.
    rewrite Z.sub_0_r in Hticks.
    repeat split; assumption.
Qed.

(** [create_drum_track] with enough fuel: the drum track joins [mid] and
    lasts the target. *)
Lemma rm_create_fits (bpm2tempo : Z -> Z) (fuel : nat)
  (mid : list MidiTrack) (total bpm : Z) (g : rng) :
  (Z.to_nat (total / 1920) < fuel)%nat ->
  exists s g',
    RandomMusic.create_drum_track bpm2tempo fuel mid total bpm g
    = Ok ((mid ++ [drum_track s], s), g')
    /\ total_ticks (drum_track s) = Z.max 0 total
    /\ current_time s = Z.max 0 total.
Proof.
  intros Hfuel.
  unfold RandomMusic.create_drum_track, bind.
  destruct (resolve_current_id None g eq_refl)
    as (id & pattern & g1 & Hres & Hlook).
  rewrite Hres.
  destruct (while_loop_fits total (RandomMusic.drum_body total)
              (rm_drum_body_pass total) fuel
              (mkDrum 0 (Some id)
                 (([] ++ [set_tempo (bpm2tempo bpm) 0])
                  ++ [control_change 9 7 127 0])) g1)
    as (s & g' & evs & Hloop & Htrack & Hticks & Htime).
  - unfold id_ok. cbn [current_id]. rewrite Hlook. apply orb_true_r.
  - apply fuel_covers. exact Hfuel.
  - exists s, g'. rewrite Hloop. cbn [current_time drum_track] in *.
    rewrite Z.sub_0_r in Hticks.
    split; [reflexivity|].
    split; [|assumption].
    rewrite Htrack, total_ticks_app, Hticks. ticks.
Qed.

Lemma partial_ok_intro (leftover channel : Z) (pattern : list (string * Z))
  (hits : MidiTrack) :
  total_ticks hits <= leftover ->
  Forall nonneg_time hits ->
  Forall off_clamped hits ->
  struck hits = drum_notes (filter (within leftover) (sorted pattern)) ->
  Forall full_off (removelast hits) ->
  partial_ok leftover channel pattern hits.
Proof.
  intros Hle Hnn Hcl Hst Hshort. unfold partial_ok.
  destruct (filler_shape (leftover - total_ticks hits) channel) as [Fnn Fcl];
    [lia|].
  assert (Hnn' : Forall nonneg_time
                   (hits ++ filler (leftover - total_ticks hits) channel))
    by (apply Forall_app; split; assumption).
  assert (Htot : total_ticks
                   (hits ++ filler (leftover - total_ticks hits) channel)
                 = leftover)
    by (rewrite total_ticks_app, total_ticks_filler; lia).
  split; [rewrite struck_app, struck_filler, app_nil_r; exact Hst|].
  split; [apply Forall_app; split; assumption|].
  split; [exact Hshort|].
  split; [exact Hnn'|].
  split; [|exact Htot].
  intros n. rewrite <- Htot at 2. apply total_ticks_firstn. exact Hnn'.
Qed.

(** ** The drum track and the melody *)

(** C1. For every target duration that is not negative, the drum
    scheduler of either program, given fuel for one pass per started
    measure, returns a drum track whose delta-times sum to exactly the
    target: [generate_drum_to_fit_time] appends events of that total to
    the track it is given, [create_drum_track] adds to [mid] a track of
    that total. *)
Theorem drum_track_fits_target (bpm2tempo : Z -> Z) (fuel : nat)
  (track : MidiTrack) (mid : list MidiTrack) (total channel bpm : Z)
  (g : rng) :
  0 <= total ->
  (Z.to_nat (total / 1920) < fuel)%nat ->
  (exists s g' evs,
      EnMusictester.generate_drum_to_fit_time fuel track total channel g
      = Ok (s, g')
      /\ drum_track s = track ++ evs
      /\ total_ticks evs = total)
  /\ (exists s g',
         RandomMusic.create_drum_track bpm2tempo fuel mid total bpm g
         = Ok ((mid ++ [drum_track s], s), g')
         /\ total_ticks (drum_track s) = total).
Proof.
  intros Hpos Hfuel. split.
  - destruct (en_generate_fits fuel track total channel g Hfuel)
      as (s & g' & evs & Hrun & Htrack & Hticks & _).
    exists s, g', evs. repeat split; try assumption. lia.
  - destruct (rm_create_fits bpm2tempo fuel mid total bpm g Hfuel)
      as (s & g' & Hrun & Hticks & _).
    exists s, g'. split; [assumption | lia].
Qed.

Lemma drum_track_fits_target_witness :
  (exists s g' evs,
      EnMusictester.generate_drum_to_fit_time 2 [] 2500 9 sample_rng
      = Ok (s, g')
      /\ drum_track s = [] ++ evs
      /\ total_ticks evs = 2500)
  /\ (exists s g',
         RandomMusic.create_drum_track (fun _ => 500000) 2 [] 2500 120
           sample_rng
         = Ok (([] ++ [drum_track s], s), g')
         /\ total_ticks (drum_track s) = 2500).
Proof.
  apply (drum_track_fits_target (fun _ => 500000) 2 [] [] 2500 9 120
           sample_rng).
  - lia.
  - vm_compute. lia.
Defined.

(** C2. For every pattern of the table and every budget of
    0 < leftover < 1920, the partial-measure renderer of either program
    strikes the pairs whose step tick is within the budget and none of
    those past it, keeps every note-off between 0 and 50 ticks, only the
    last one shorter than 50, pads what is left with the filler event,
    never lets the accumulated ticks pass the budget, and emits
    delta-times that sum to the budget. *)
Theorem partial_measure_fits_budget (id : string)
  (pattern : list (string * Z)) (leftover channel current_time : Z)
  (track : MidiTrack) (g : rng) :
  lookup id get_drum_pattern_map = Some pattern ->
  0 < leftover < 1920 ->
  (exists hits g',
      EnMusictester.write_drum_partial_measure track pattern leftover
        channel g
      = Ok (track ++ hits ++ filler (leftover - total_ticks hits) channel, g')
      /\ partial_ok leftover channel pattern hits)
  /\ (exists hits g',
         RandomMusic.write_partial_drum_measure track pattern current_time
           leftover g
         = Ok ((track ++ hits ++ filler (leftover - total_ticks hits) 9,
                current_time + leftover), g')
         /\ partial_ok leftover 9 pattern hits).
Proof.
  intros Hlook Hleft.
  pose proof (pattern_map_well_formed _ _ Hlook) as Hwf.
  split.
  - destruct (en_write_partial_spec pattern leftover channel track g Hwf)
      as (hits & g' & Hrun & Hle & Hnn & Hcl & Hst & Hshort); [lia|].
    exists hits, g'. split; [exact Hrun|].
    apply partial_ok_intro; assumption.
  - destruct (rm_write_partial_spec pattern current_time leftover track g Hwf)
      as (hits & g' & Hrun & Hle & Hnn & Hcl & Hst & Hshort); [lia|].
    exists hits, g'. split; [exact Hrun|].
    apply partial_ok_intro; assumption.
Qed.

Lemma partial_measure_fits_budget_witness :
  (exists hits g',
      EnMusictester.write_drum_partial_measure [] DRUM_PATTERN_C 70 9
        sample_rng
      = Ok ([] ++ hits ++ filler (70 - total_ticks hits) 9, g')
      /\ partial_ok 70 9 DRUM_PATTERN_C hits)
  /\ (exists hits g',
         RandomMusic.write_partial_drum_measure [] DRUM_PATTERN_C 1920 70
           sample_rng
         = Ok (([] ++ hits ++ filler (70 - total_ticks hits) 9, 1920 + 70), g')
         /\ partial_ok 70 9 DRUM_PATTERN_C hits).
Proof.
  apply (partial_measure_fits_budget "C" DRUM_PATTERN_C 70 9 1920 []
           sample_rng).
  - reflexivity.
  - lia.
Defined.

(** C7. The drum loop of either program terminates for every target:
    fuel for one pass per started measure is enough for it to return,
    with the elapsed ticks on the target (on 0 for a target that is
    negative).  A pass with a full measure left goes on with the elapsed
    ticks 1920 higher, a pass with less left leaves the loop at once
    with the elapsed ticks on the target. *)
Theorem drum_loop_terminates (bpm2tempo : Z -> Z) (fuel : nat)
  (track : MidiTrack) (mid : list MidiTrack) (total channel bpm : Z)
  (g : rng) :
  (Z.to_nat (total / 1920) < fuel)%nat ->
  (exists s g',
      EnMusictester.generate_drum_to_fit_time fuel track total channel g
      = Ok (s, g')
      /\ current_time s = Z.max 0 total)
  /\ (exists s g',
         RandomMusic.create_drum_track bpm2tempo fuel mid total bpm g
         = Ok ((mid ++ [drum_track s], s), g')
         /\ current_time s = Z.max 0 total)
  /\ (forall s g0,
         id_ok (current_id s) = true ->
         1920 <= total - current_time s ->
         (exists s' g',
             EnMusictester.fit_body total channel s g0 = Ok (Continue s', g')
             /\ current_time s' = current_time s + 1920)
         /\ (exists s' g',
                RandomMusic.drum_body total s g0 = Ok (Continue s', g')
                /\ current_time s' = current_time s + 1920))
  /\ (forall s g0,
         id_ok (current_id s) = true ->
         0 < total - current_time s < 1920 ->
         (exists s' g',
             EnMusictester.fit_body total channel s g0 = Ok (Break s', g')
             /\ current_time s' = total)
         /\ (exists s' g',
                RandomMusic.drum_body total s g0 = Ok (Break s', g')
                /\ current_time s' = total)).
Proof.
  intros Hfuel.
  split; [|split; [|split]].
  - destruct (en_generate_fits fuel track total channel g Hfuel)
      as (s & g' & evs & Hrun & _ & _ & Htime).
    exists s, g'. split; assumption.
  - destruct (rm_create_fits bpm2tempo fuel mid total bpm g Hfuel)
      as (s & g' & Hrun & _ & Htime).
    exists s, g'. split; assumption.
  - intros s g0 Hid Hfull. split.
    + destruct (en_fit_body_pass total channel s g0 Hid)
        as (s' & g' & evs & _ & [(Hrun & _ & Htime & _) | (_ & Hlt & _)]);
        [lia | | lia].
      exists s', g'. split; assumption.
    + destruct (rm_drum_body_pass total s g0 Hid)
        as (s' & g' & evs & _ & [(Hrun & _ & Htime & _) | (_ & Hlt & _)]);
        [lia | | lia].
      exists s', g'. split; assumption.
  - intros s g0 Hid Hpart. split.
    + destruct (en_fit_body_pass total channel s g0 Hid)
        as (s' & g' & evs & _ & [(_ & Hge & _) | (Hrun & _ & Htime & _)]);
        [lia | lia |].
      exists s', g'. split; assumption.
    + destruct (rm_drum_body_pass total s g0 Hid)
        as (s' & g' & evs & _ & [(_ & Hge & _) | (Hrun & _ & Htime & _)]);
        [lia | lia |].
      exists s', g'. split; assumption.
Qed.

Lemma drum_loop_terminates_witness :
  exists s g',
    EnMusictester.generate_drum_to_fit_time 4 [] 5767 9 sample_rng
    = Ok (s, g')
    /\ current_time s = Z.max 0 5767.
Proof.
  apply (proj1 (drum_loop_terminates (fun _ => 500000) 4 [] [] 5767 9 120
                  sample_rng ltac:(vm_compute; lia))).
Defined.

(** ** The transition table *)

Lemma choose_walk_some (choices : list (string * float)) :
  forall r accum p,
    choose_walk choices r accum = Some p ->
    exists k,
      nth_error (map fst choices) k = Some p
      /\ (r <? cumulative choices accum k)%float = true
      /\ forall j, (j < k)%nat ->
                   (r <? cumulative choices accum j)%float = false.
Proof.
  induction choices as [|[pat_id prob] rest IH]; intros r accum p.
  - discriminate.
  - cbn [choose_walk].
    destruct (r <? accum + prob)%float eqn:E.
    + intros [= <-]. exists 0%nat.
      split; [reflexivity|]. split; [exact E|]. intros j Hj. inversion Hj.
    + intros H. destruct (IH _ _ _ H) as (k & Hnth & Hk & Hbefore).
      exists (S k). split; [exact Hnth|]. split; [exact Hk|].
      intros [|j] Hj; [exact E|]. apply Hbefore. apply PeanoNat.lt_S_n, Hj.
Qed.

Lemma choose_walk_none (choices : list (string * float)) :
  forall r accum,
    choose_walk choices r accum = None <->
    (forall k, (k < List.length choices)%nat ->
               (r <? cumulative choices accum k)%float = false).
Proof.
  induction choices as [|[pat_id prob] rest IH]; intros r accum.
  - split; [intros _ k Hk; inversion Hk | reflexivity].
  - cbn [choose_walk]. split.
    + destruct (r <? accum + prob)%float eqn:E; [discriminate|].
      intros H [|k] Hk; [exact E|].
      cbn [cumulative]. apply (proj1 (IH _ _) H).
      simpl in Hk. apply PeanoNat.lt_S_n, Hk.
    + intros H.
      pose proof (H 0%nat (PeanoNat.Nat.lt_0_succ _)) as H0.
      cbn [cumulative] in H0. rewrite H0.
      apply IH. intros k Hk.
      apply (H (S k)). simpl. apply (proj1 (PeanoNat.Nat.succ_lt_mono _ _)), Hk.
Qed.

(** Every row of the table adds up to 1 in binary64, so a draw below 1
    is below the last cumulative probability. *)
Lemma markov_row_matches (id : string) (choices : list (string * float))
  (r : float) :
  lookup id DRUM_MARKOV = Some choices ->
  (r <? 1)%float = true ->
  choose_walk choices r 0%float <> None.
Proof.
  intros Hrow Hr.
  destruct (markov_cases _ _ Hrow) as [-> | [-> | ->]]; cbn;
    repeat match goal with
           | |- (if ?c then _ else _) <> None =>
               first [ rewrite Hr; discriminate
                     | destruct c; [discriminate|] ]
           end.
Qed.

Lemma markov_row_total (id : string) (choices : list (string * float)) :
  lookup id DRUM_MARKOV = Some choices ->
  total_probability choices = 1%float.
Proof.
  intros Hrow.
  destruct (markov_cases _ _ Hrow) as [-> | [-> | ->]]; reflexivity.
Qed.

Lemma choose_next_pattern_row (id : string) (choices : list (string * float))
  (g : rng) :
  lookup id DRUM_MARKOV = Some choices ->
  choose_next_pattern id g
  = Ok (choose_walk choices (units g (cursor g)) 0%float, advance g).
Proof.
  intros Hrow. unfold choose_next_pattern. rewrite Hrow. reflexivity.
Qed.

(** A pass that finds the current pattern unset draws one of the map
    and goes on as if that one had been current. *)
Lemma unset_id_falls_back (total channel : Z) (s : drum_state) (g : rng) :
  current_id s = None ->
  exists id,
    choice (keys get_drum_pattern_map) g = Ok (id, advance g)
    /\ In id (keys get_drum_pattern_map)
    /\ EnMusictester.fit_body total channel s g
       = EnMusictester.fit_body total channel (with_id s id) (advance g)
    /\ (current_time s < total ->
        RandomMusic.drum_body total s g
        = RandomMusic.drum_body total (with_id s id) (advance g)).
Proof.
  intros Hnone.
  destruct (choice_ok (keys get_drum_pattern_map) g) as (id & Hch & Hin);
    [discriminate|].
  exists id. split; [exact Hch|]. split; [exact Hin|].
  assert (Hne : String.eqb id "" = false)
    by (simpl in Hin; destruct Hin as [<- | [<- | [<- | []]]]; reflexivity).
  unfold EnMusictester.fit_body, RandomMusic.drum_body,
    EnMusictester.get_drums_pattern_map, with_id, bind.
  cbn [current_id current_time drum_track]. rewrite Hnone, Hch, Hne.
  split; [reflexivity|].
  intros Hlt. destruct (Z.leb_spec (total - current_time s) 0); [lia|].
  rewrite Hch. reflexivity.
Qed.

(** C6, as the code has it.  Given the draw [r], [choose_next_pattern]
    returns the first entry of the current row whose cumulative
    probability exceeds [r], and no entry exactly when none does.  Every
    row of the table adds up to 1, so for [r] in [0, 1) an entry is
    always returned.  A pass of the scheduler that finds the current
    pattern unset picks one of the map with [random.choice] and goes
    on. *)
Theorem markov_walk_always_matches (id : string)
  (choices : list (string * float)) (g : rng) :
  lookup id DRUM_MARKOV = Some choices ->
  let r := units g (cursor g) in
  choose_next_pattern id g = Ok (choose_walk choices r 0%float, advance g)
  /\ (forall p, choose_walk choices r 0%float = Some p ->
                exists k, nth_error (map fst choices) k = Some p
                          /\ first_exceeding choices r k)
  /\ (choose_walk choices r 0%float = None <-> none_exceeding choices r)
  /\ total_probability choices = 1%float
  /\ (in_unit r -> exists p, choose_walk choices r 0%float = Some p)
  /\ (forall total channel s g0,
         current_id s = None ->
         exists id',
           choice (keys get_drum_pattern_map) g0 = Ok (id', advance g0)
           /\ In id' (keys get_drum_pattern_map)
           /\ EnMusictester.fit_body total channel s g0
              = EnMusictester.fit_body total channel (with_id s id')
                  (advance g0)
           /\ (current_time s < total ->
               RandomMusic.drum_body total s g0
               = RandomMusic.drum_body total (with_id s id') (advance g0))).
Proof.
  intros Hrow r.
  split; [apply choose_next_pattern_row; exact Hrow|].
  split; [intros p Hp; apply choose_walk_some in Hp; exact Hp|].
  split; [apply choose_walk_none|].
  split; [eapply markov_row_total; eassumption|].
  split; [|intros; apply unset_id_falls_back; assumption].
  intros [_ Hr].
  pose proof (markov_row_matches id choices r Hrow Hr) as Hne.
  destruct (choose_walk choices r 0%float) as [p|]; [eauto | congruence].
Qed.

Lemma markov_walk_always_matches_witness :
  choose_next_pattern "C" sample_rng = Ok (Some "A", advance sample_rng).
Proof.
  apply (proj1 (markov_walk_always_matches "C"
                  [("A", 0.6%float); ("B", 0.4%float)] sample_rng eq_refl)).
Defined.

(** C6 as stated fails: it holds a no-match draw to be possible because
    some rows would not add up to 1.  Every row does, and no draw of
    [0, 1) leaves [choose_next_pattern] without a match on a state of
    the table. *)
Lemma markov_no_match_refuted :
  (forall id choices, lookup id DRUM_MARKOV = Some choices ->
                      total_probability choices = 1%float)
  /\ ~ (exists id choices g g',
           lookup id DRUM_MARKOV = Some choices
           /\ in_unit (units g (cursor g))
           /\ choose_next_pattern id g = Ok (None, g')).
Proof.
  split; [exact markov_row_total|].
  intros (id & choices & g & g' & Hrow & [_ Hr] & Hnone).
  rewrite (choose_next_pattern_row id choices g Hrow) in Hnone.
  injection Hnone as Hwalk _.
  exact (markov_row_matches id choices _ Hrow Hr Hwalk).
Qed.

(** ** Section data *)

Lemma bind_ok {A B : Type} (c : M A) (k : A -> M B) (g g1 : rng) (a : A) :
  c g = Ok (a, g1) -> bind c k g = k a g1.
Proof. intros H. unfold bind. rewrite H. reflexivity. Qed.

Lemma major_scale_degree (l : nat) :
  nth_error RandomMusic.MAJOR_SCALE
    (Nat.modulo l (List.length RandomMusic.MAJOR_SCALE))
  = Some (nth (Nat.modulo l (List.length RandomMusic.MAJOR_SCALE))
            RandomMusic.MAJOR_SCALE 0).
Proof.
  apply nth_error_nth'. apply PeanoNat.Nat.mod_upper_bound. discriminate.
Qed.

Lemma durations_positive (is_chorus : bool) (dur : Z) :
  In dur (durations_of is_chorus) -> 0 < dur.
Proof.
  destruct is_chorus; simpl; intros [<- | [<- | [<- | []]]]; lia.
Qed.

Lemma section_ticks_app (d1 d2 : list RandomMusic.note_event) :
  section_ticks (d1 ++ d2) = section_ticks d1 + section_ticks d2.
Proof.
  unfold section_ticks.
  induction d1 as [|[[[n v] d] p] d1 IH]; simpl; [reflexivity | lia].
Qed.

(** The loop of [generate_section_data] from any accumulated data and
    total: it cannot fail, appends one event within the bounds for each
    word that is not empty, in order, and adds their ticks to the
    total. *)
Lemma section_loop_spec (is_chorus : bool) (words : list string) :
  forall section_data total_length g,
  exists evs g',
    RandomMusic.section_loop words is_chorus (durations_of is_chorus)
      (base_note_of is_chorus) section_data total_length g
    = Ok ((section_data ++ evs, total_length + section_ticks evs), g')
    /\ Forall (event_ok is_chorus) evs
    /\ map note_num_of evs = map (pitch_of is_chorus) (sung words).
Proof.
  induction words as [|w rest IH]; intros section_data total_length g.
  - exists [], g. cbn [RandomMusic.section_loop ret]. rewrite app_nil_r.
    unfold section_ticks. cbn [fold_right]. rewrite Z.add_0_r.
    split; [reflexivity|].
    split; [constructor | reflexivity].
  - cbn [RandomMusic.section_loop]. unfold sung. cbn [filter]. fold (sung rest).
    destruct (String.length w <=? 0)%nat; cbn [negb]; [apply IH|].
    rewrite major_scale_degree.
    destruct (choice_ok (durations_of is_chorus) g) as (dur & Hch & Hdur);
      [destruct is_chorus; discriminate|].
    rewrite (bind_ok _ _ _ _ _ Hch).
    assert (Hev : exists velocity gap g1,
               forall (B : Type) (k : Z -> Z -> M B),
                 bind (if is_chorus then randint 100 127 else randint 80 120)
                   (fun velocity =>
                      bind (if is_chorus then randint 0 120 else ret 0)
                        (fun gap => k velocity gap)) (advance g)
                 = k velocity gap g1
               /\ event_ok is_chorus
                    (pitch_of is_chorus w, velocity, dur, gap)).
    { destruct is_chorus.
      - do 3 eexists. intros B k.
        rewrite bind_randint by lia. rewrite bind_randint by lia.
        split; [reflexivity|].
        unfold event_ok.
        split; [exact Hdur|].
        split; [exact (durations_positive true dur Hdur)|].
        split; apply randint_range; lia.
      - do 3 eexists. intros B k.
        rewrite bind_randint by lia. rewrite bind_ret.
        split; [reflexivity|].
        unfold event_ok.
        split; [exact Hdur|].
        split; [exact (durations_positive false dur Hdur)|].
        split; [apply randint_range; lia | reflexivity]. }
    destruct Hev as (velocity & gap & g1 & Hev).
    destruct (Hev _ (fun velocity gap =>
                RandomMusic.section_loop rest is_chorus
                  (durations_of is_chorus) (base_note_of is_chorus)
                  (section_data
                   ++ [(base_note_of is_chorus
                        + nth (Nat.modulo (String.length w)
                                 (List.length RandomMusic.MAJOR_SCALE))
                            RandomMusic.MAJOR_SCALE 0, velocity, dur, gap)])
                  (total_length + (dur + gap)))) as [Hrun Hok].
    rewrite Hrun. fold (pitch_of is_chorus w).
    destruct (IH (section_data ++ [(pitch_of is_chorus w, velocity, dur, gap)])
                (total_length + (dur + gap)) g1)
      as (evs & g' & Hrest & Hall & Hnotes).
    exists ((pitch_of is_chorus w, velocity, dur, gap) :: evs), g'.
    split.
    + rewrite Hrest. rewrite <- app_assoc.
      f_equal. f_equal. f_equal.
      change ((pitch_of is_chorus w, velocity, dur, gap) :: evs)
        with ([(pitch_of is_chorus w, velocity, dur, gap)] ++ evs).
      rewrite section_ticks_app. unfold section_ticks at 2. simpl. lia.
    + split; [constructor; assumption|].
      cbn [map note_num_of]. f_equal. exact Hnotes.
Qed.

(** [generate_section_data] from the policy of the section. *)
Lemma generate_section_data_spec (words : list string) (is_chorus : bool)
  (g : rng) :
  exists section_data g',
    RandomMusic.generate_section_data words is_chorus g
    = Ok ((section_data, section_ticks section_data), g')
    /\ Forall (event_ok is_chorus) section_data
    /\ map note_num_of section_data = map (pitch_of is_chorus) (sung words).
Proof.
  destruct (section_loop_spec is_chorus words [] 0 g)
    as (evs & g' & Hrun & Hall & Hnotes).
  exists evs, g'. split; [|split; assumption].
  unfold RandomMusic.generate_section_data.
  change (if is_chorus then [480; 960; 1920] else [240; 480; 960])
    with (durations_of is_chorus).
  change (if is_chorus then 64 else 60) with (base_note_of is_chorus).
  rewrite Hrun. reflexivity.
Qed.

(** C8. [generate_section_data] always returns, with one event for each
    word that is not empty, in order.  Each event has a duration of the
    allowed set of the policy, hence positive, a velocity of 100..127
    for a chorus and of 80..120 otherwise, a gap of 0..120 for a chorus
    and of 0 otherwise, and the pitch its word picks; the returned total
    is the sum of (duration + gap) over the events. *)
Theorem section_data_within_bounds (words : list string) (is_chorus : bool)
  (g : rng) :
  exists section_data total_length g',
    RandomMusic.generate_section_data words is_chorus g
    = Ok ((section_data, total_length), g')
    /\ total_length = section_ticks section_data
    /\ List.length section_data = List.length (sung words)
    /\ map note_num_of section_data = map (pitch_of is_chorus) (sung words)
    /\ Forall (fun e : RandomMusic.note_event =>
                 let '(_, velocity, dur, gap) := e in
                 In dur (durations_of is_chorus)
                 /\ 0 < dur
                 /\ 0 <= gap
                 /\ (is_chorus = true ->
                     100 <= velocity <= 127 /\ gap <= 120)
                 /\ (is_chorus = false ->
                     80 <= velocity <= 120 /\ gap = 0))
         section_data.
Proof.
  destruct (generate_section_data_spec words is_chorus g)
    as (section_data & g' & Hrun & Hall & Hnotes).
  exists section_data, (section_ticks section_data), g'.
  split; [exact Hrun|]. split; [reflexivity|].
  split.
  { rewrite <- (length_map note_num_of), Hnotes. apply length_map. }
  split; [exact Hnotes|].
  eapply Forall_impl; [|exact Hall].
  intros [[[note_num velocity] dur] gap] (Hdur & Hpos & Hpolicy).
  split; [exact Hdur|]. split; [exact Hpos|].
  destruct is_chorus.
  - split; [lia|]. split; [intros _; lia | discriminate].
  - split; [lia|]. split; [discriminate | intros _; exact Hpolicy].
Qed.

(** ** Section data on the channels *)

Lemma apply_loop_spec (section_data : list RandomMusic.note_event) :
  forall channel track total_used,
    RandomMusic.apply_loop section_data channel track total_used
    = (track ++ render channel section_data,
       total_used + total_ticks (render channel section_data)).
Proof.
  induction section_data as [|[[[n v] d] p] rest IH];
    intros channel track total_used.
  - cbn. rewrite app_nil_r, Z.add_0_r. reflexivity.
  - cbn [RandomMusic.apply_loop render flat_map render_event].
    fold (render channel rest).
    destruct (p >? 0); rewrite IH; rewrite <- !app_assoc; cbn [app];
      f_equal; ticks.
Qed.

Lemma apply_section_data_spec (track : MidiTrack)
  (section_data : list RandomMusic.note_event) (channel bpm : Z) :
  RandomMusic.apply_section_data_to_channel track section_data channel bpm
  = (track ++ render channel section_data,
     total_ticks (render channel section_data)).
Proof.
  unfold RandomMusic.apply_section_data_to_channel.
  rewrite apply_loop_spec. reflexivity.
Qed.

Lemma render_ticks (is_chorus : bool) (channel : Z)
  (section_data : list RandomMusic.note_event) :
  Forall (event_ok is_chorus) section_data ->
  total_ticks (render channel section_data) = section_ticks section_data.
Proof.
  induction 1 as [|[[[n v] d] p] rest Hok _ IH]; [reflexivity|].
  cbn [render flat_map render_event]. fold (render channel rest).
  rewrite total_ticks_app, IH.
  unfold section_ticks at 2. cbn [fold_right]. fold (section_ticks rest).
  destruct Hok as (_ & _ & Hgap).
  assert (0 <= p) by (destruct is_chorus; lia).
  destruct (Z.gtb_spec p 0); ticks.
Qed.

Lemma render_off_channel (ch ch' : Z)
  (section_data : list RandomMusic.note_event) :
  map off_channel (render ch section_data)
  = map off_channel (render ch' section_data).
Proof.
  induction section_data as [|[[[n v] d] p] rest IH]; [reflexivity|].
  cbn [render flat_map render_event]. fold (render ch rest) (render ch' rest).
  rewrite !map_app, IH. destruct (p >? 0); reflexivity.
Qed.

Lemma instrument_pool_ok (music_type : string) :
  exists pool,
    RandomMusic.instrument_pool music_type = Ok pool /\ pool <> [].
Proof.
  unfold RandomMusic.instrument_pool, RandomMusic.TYPE_INSTRUMENTS.
  cbn [lookup String.eqb Ascii.eqb Bool.eqb andb].
  repeat match goal with
         | |- context [if String.eqb music_type ?k then _ else _] =>
             destruct (String.eqb music_type k)
         end;
    eexists; (split; [reflexivity | discriminate]).
Qed.

Lemma channel_head_spec (bpm2tempo : Z -> Z) (ch bpm : Z)
  (music_type : string) (g : rng) :
  exists program,
    RandomMusic.channel_head bpm2tempo ch bpm music_type g
    = Ok (head_of (bpm2tempo bpm) program ch, advance g).
Proof.
  unfold RandomMusic.channel_head.
  destruct (instrument_pool_ok music_type) as (pool & Hpool & Hne).
  rewrite Hpool.
  destruct (choice_ok pool g Hne) as (program & Hch & _).
  exists program. rewrite (bind_ok _ _ _ _ _ Hch). reflexivity.
Qed.

Lemma head_ticks (tempo program ch : Z) :
  total_ticks (head_of tempo program ch) = 0.
Proof. reflexivity. Qed.

(** C5. In BGM mode the section data is generated once, from the words
    of all lines looped twice, and both melody channels get it: each
    track is its head (tempo, the program drawn for the channel, volume)
    followed by the rendering of the same events, so that, channel
    apart, the two note sequences are equal message for message and
    both tracks last the same ticks, the total returned. *)
Theorem bgm_channels_in_unison (bpm2tempo : Z -> Z) (mid : list MidiTrack)
  (text : string) (bpm : Z) (music_type : string) (g : rng) :
  exists section_data g1 program0 program1 g',
    RandomMusic.generate_section_data (looped_words text) false g
    = Ok ((section_data, section_ticks section_data), g1)
    /\ RandomMusic.bgm_mode bpm2tempo mid text bpm music_type g
       = Ok ((mid
              ++ [head_of (bpm2tempo bpm) program0 0 ++ render 0 section_data]
              ++ [head_of (bpm2tempo bpm) program1 1 ++ render 1 section_data],
              section_ticks section_data), g')
    /\ map off_channel (render 0 section_data)
       = map off_channel (render 1 section_data)
    /\ total_ticks (head_of (bpm2tempo bpm) program0 0 ++ render 0 section_data)
       = section_ticks section_data
    /\ total_ticks (head_of (bpm2tempo bpm) program1 1 ++ render 1 section_data)
       = section_ticks section_data.
Proof.
  destruct (generate_section_data_spec (looped_words text) false g)
    as (section_data & g1 & Hgen & Hall & _).
  destruct (channel_head_spec bpm2tempo 0 bpm music_type g1)
    as (program0 & Hhead0).
  destruct (channel_head_spec bpm2tempo 1 bpm music_type (advance g1))
    as (program1 & Hhead1).
  exists section_data, g1, program0, program1, (advance (advance g1)).
  pose proof (render_ticks false 0 section_data Hall) as Hticks0.
  pose proof (render_ticks false 1 section_data Hall) as Hticks1.
  split; [exact Hgen|].
  split.
  - unfold RandomMusic.bgm_mode. cbn [repeat concat]. rewrite app_nil_r.
    fold (looped_words text).
    rewrite (bind_ok _ _ _ _ _ Hgen).
    assert (Hchannels :
              RandomMusic.bgm_channels bpm2tempo [0; 1] section_data bpm
                music_type mid [] g1
              = Ok ((mid
                     ++ [head_of (bpm2tempo bpm) program0 0
                         ++ render 0 section_data]
                     ++ [head_of (bpm2tempo bpm) program1 1
                         ++ render 1 section_data],
                     [section_ticks section_data;
                      section_ticks section_data]),
                    advance (advance g1))).
    { cbn [RandomMusic.bgm_channels].
      rewrite (bind_ok _ _ _ _ _ Hhead0), apply_section_data_spec.
      rewrite (bind_ok _ _ _ _ _ Hhead1), apply_section_data_spec.
      rewrite Hticks0, Hticks1, <- app_assoc. reflexivity. }
    rewrite (bind_ok _ _ _ _ _ Hchannels). unfold ret.
    cbn [RandomMusic.max_or_zero fold_left]. rewrite Z.max_id. reflexivity.
  - split; [apply render_off_channel|].
    rewrite !total_ticks_app, !head_ticks, Hticks0, Hticks1. split; reflexivity.
Qed.

(** C4. In SONG mode on a text with at least one chorus word, the verse
    data and the chorus data are each generated once, and the track of
    either channel is its head followed by verse, chorus, verse: the
    first and the third section are the rendering of the one verse data,
    the same events in the same order, and no draw but the two programs
    follows the generation.  The total returned is twice the verse plus
    the chorus. *)
Theorem song_verse_replayed (bpm2tempo : Z -> Z) (mid : list MidiTrack)
  (text : string) (bpm : Z) (music_type : string) (g : rng) :
  chorus_words text <> [] ->
  exists A_data B_data g1 g2 program0 program1,
    RandomMusic.generate_section_data (verse_words text) false g
    = Ok ((A_data, section_ticks A_data), g1)
    /\ RandomMusic.generate_section_data (chorus_words text) true g1
       = Ok ((B_data, section_ticks B_data), g2)
    /\ RandomMusic.song_mode bpm2tempo mid text bpm music_type g
       = Ok ((mid
              ++ [head_of (bpm2tempo bpm) program0 0
                  ++ render 0 A_data ++ render 0 B_data ++ render 0 A_data]
              ++ [head_of (bpm2tempo bpm) program1 1
                  ++ render 1 A_data ++ render 1 B_data ++ render 1 A_data],
              2 * section_ticks A_data + section_ticks B_data),
             advance (advance g2)).
Proof.
  intros Hchorus.
  destruct (generate_section_data_spec (verse_words text) false g)
    as (A_data & g1 & HgenA & HallA & _).
  destruct (generate_section_data_spec (chorus_words text) true g1)
    as (B_data & g2 & HgenB & HallB & _).
  destruct (channel_head_spec bpm2tempo 0 bpm music_type g2)
    as (program0 & Hhead0).
  destruct (channel_head_spec bpm2tempo 1 bpm music_type (advance g2))
    as (program1 & Hhead1).
  exists A_data, B_data, g1, g2, program0, program1.
  split; [exact HgenA|]. split; [exact HgenB|].
  unfold RandomMusic.song_mode.
  unfold verse_words in HgenA. unfold chorus_words in HgenB, Hchorus.
  destruct (RandomMusic.partition_lines (Str.splitlines text) [] [])
    as [normal_lines chorus_lines].
  cbn [fst snd] in HgenA, HgenB, Hchorus.
  destruct (RandomMusic.lines_to_words chorus_lines) as [|b b_words] eqn:Hb;
    [contradiction|].
  rewrite (bind_ok _ _ _ _ _ HgenA). rewrite (bind_ok _ _ _ _ _ HgenB).
  assert (Hchannels :
            RandomMusic.song_channels bpm2tempo [0; 1] A_data B_data bpm
              music_type mid [] g2
            = Ok ((mid
                   ++ [head_of (bpm2tempo bpm) program0 0
                       ++ render 0 A_data ++ render 0 B_data
                       ++ render 0 A_data]
                   ++ [head_of (bpm2tempo bpm) program1 1
                       ++ render 1 A_data ++ render 1 B_data
                       ++ render 1 A_data],
                   [2 * section_ticks A_data + section_ticks B_data;
                    2 * section_ticks A_data + section_ticks B_data]),
                  advance (advance g2))).
  { cbn [RandomMusic.song_channels].
    rewrite (bind_ok _ _ _ _ _ Hhead0), !apply_section_data_spec.
    rewrite (bind_ok _ _ _ _ _ Hhead1), !apply_section_data_spec.
    rewrite !(render_ticks false _ A_data HallA).
    rewrite !(render_ticks true _ B_data HallB).
    rewrite <- !app_assoc. unfold ret. cbn [app].
    replace (0 + section_ticks A_data + section_ticks B_data
             + section_ticks A_data)
      with (2 * section_ticks A_data + section_ticks B_data) by lia.
    reflexivity. }
  rewrite (bind_ok _ _ _ _ _ Hchannels). unfold ret.
  cbn [RandomMusic.max_or_zero fold_left]. rewrite Z.max_id. reflexivity.
Qed.

Lemma song_verse_replayed_witness :
  exists A_data B_data g1 g2 program0 program1,
    RandomMusic.generate_section_data (verse_words sample_song) false
      sample_rng
    = Ok ((A_data, section_ticks A_data), g1)
    /\ RandomMusic.generate_section_data (chorus_words sample_song) true g1
       = Ok ((B_data, section_ticks B_data), g2)
    /\ RandomMusic.song_mode (fun _ => 500000) [] sample_song 120 "rock"
         sample_rng
       = Ok (([]
              ++ [head_of 500000 program0 0
                  ++ render 0 A_data ++ render 0 B_data ++ render 0 A_data]
              ++ [head_of 500000 program1 1
                  ++ render 1 A_data ++ render 1 B_data ++ render 1 A_data],
              2 * section_ticks A_data + section_ticks B_data),
             advance (advance g2)).
Proof.
  apply (song_verse_replayed (fun _ => 500000) [] sample_song 120 "rock"
           sample_rng).
  vm_compute. discriminate.
Defined.

(** ** The genre marker *)

Lemma lower_char_hash (c : ascii) :
  Ascii.eqb (Str.lower_char c) "#" = Ascii.eqb c "#".
Proof.
  destruct c as [b0 b1 b2 b3 b4 b5 b6 b7].
  destruct b0, b1, b2, b3, b4, b5, b6, b7; reflexivity.
Qed.

Lemma isspace_lower_char (c : ascii) :
  Str.isspace (Str.lower_char c) = Str.isspace c.
Proof.
  destruct c as [b0 b1 b2 b3 b4 b5 b6 b7].
  destruct b0, b1, b2, b3, b4, b5, b6, b7; reflexivity.
Qed.

Lemma prefix_empty (s : string) : String.prefix "" s = true.
Proof. destruct s; reflexivity. Qed.

Lemma startswith_hash (s : string) :
  Str.startswith s "#"
  = match s with
    | EmptyString => false
    | String c _ => Ascii.eqb c "#"
    end.
Proof.
  unfold Str.startswith. destruct s as [|c s]; [reflexivity|].
  cbn [String.prefix].
  destruct (ascii_dec "#" c) as [<- | Hne].
  - rewrite prefix_empty. reflexivity.
  - symmetry. apply Ascii.eqb_neq. congruence.
Qed.

Lemma startswith_lower (s : string) :
  Str.startswith (Str.lower s) "#" = Str.startswith s "#".
Proof.
  rewrite !startswith_hash. destruct s as [|c s]; [reflexivity|].
  apply lower_char_hash.
Qed.

Lemma tail_lower (s : string) : Str.tail (Str.lower s) = Str.lower (Str.tail s).
Proof. destruct s; reflexivity. Qed.

Lemma has_nonspace_lower (s : string) :
  has_nonspace (Str.lower s) = has_nonspace s.
Proof.
  induction s as [|c s IH]; [reflexivity|].
  cbn [Str.lower has_nonspace]. rewrite isspace_lower_char, IH. reflexivity.
Qed.

(** [split()] of a string with a character that is not a space has a
    first word. *)
Lemma split_from_nonempty (s : string) :
  forall word,
    has_nonspace s = true \/ word <> "" -> Str.split_from word s <> [].
Proof.
  induction s as [|c s IH]; intros word H; cbn [Str.split_from].
  - destruct H as [H | H]; [discriminate|].
    destruct word; [congruence | discriminate].
  - cbn [has_nonspace] in H.
    destruct (Str.isspace c).
    + destruct word as [|a word]; [|discriminate].
      apply IH. destruct H as [H | H]; [left; exact H | congruence].
    + apply IH. right. destruct word; discriminate.
Qed.

Lemma lookup_in_keys {V : Type} (k : string) (d : list (string * V)) :
  In k (keys d) <-> lookup k d <> None.
Proof.
  induction d as [|[k' v] d IH]; simpl.
  - split; [intros [] | congruence].
  - destruct (String.eqb_spec k k') as [-> | Hne].
    + split; [discriminate | auto].
    + rewrite <- IH. split; [intros [E | H]; [congruence | exact H] | auto].
Qed.

(** C10. On a text whose first line, stripped, either does not start
    with [#] or has a character that is not a space after the [#],
    [detect_music_type] returns a key of [TYPE_INSTRUMENTS]: "default"
    for the empty text, for a first line without the marker and for a
    marker that is no key, the marker itself when it is a key.  The
    precondition is needed: on the text "#" the first word of the
    remainder does not exist and the function raises [IndexError]. *)
Theorem detect_music_type_total (text : string) :
  marker_ok text ->
  (exists ty,
      RandomMusic.detect_music_type text = Ok ty
      /\ In ty (keys RandomMusic.TYPE_INSTRUMENTS)
      /\ (text = "" -> ty = "default")
      /\ (forall line0 rest,
             Str.splitlines text = line0 :: rest ->
             let first_line := Str.lower (Str.strip line0) in
             (Str.startswith first_line "#" = false -> ty = "default")
             /\ (forall candidate more,
                    Str.startswith first_line "#" = true ->
                    Str.split (Str.tail first_line) = candidate :: more ->
                    (In candidate (keys RandomMusic.TYPE_INSTRUMENTS) ->
                     ty = candidate)
                    /\ (~ In candidate (keys RandomMusic.TYPE_INSTRUMENTS) ->
                        ty = "default"))))
  /\ RandomMusic.detect_music_type "#" = Raise IndexError.
Proof.
  intros Hok. split; [|reflexivity].
  assert (Hdefault : In "default" (keys RandomMusic.TYPE_INSTRUMENTS))
    by (simpl; tauto).
  unfold RandomMusic.detect_music_type, marker_ok in *.
  destruct (Str.splitlines text) as [|line0 rest] eqn:Hlines.
  - exists "default".
    split; [reflexivity|]. split; [exact Hdefault|].
    split; [reflexivity|]. intros l r [=].
  - set (first_line := Str.lower (Str.strip line0)) in *.
    assert (Hempty : text = "" -> False).
    { intros ->. discriminate Hlines. }
    destruct (Str.startswith first_line "#") eqn:Hhash.
    + assert (Hword : Str.split (Str.tail first_line) <> []).
      { unfold first_line in *. rewrite startswith_lower in Hhash.
        destruct Hok as [Hno | Hsome]; [congruence|].
        apply split_from_nonempty. left.
        rewrite tail_lower, has_nonspace_lower. exact Hsome. }
      destruct (Str.split (Str.tail first_line)) as [|candidate more]
        eqn:Hsplit; [congruence|].
      destruct (lookup candidate RandomMusic.TYPE_INSTRUMENTS) as [pool|]
        eqn:Hkey.
      * exists candidate.
        assert (Hin : In candidate (keys RandomMusic.TYPE_INSTRUMENTS))
          by (apply lookup_in_keys; congruence).
        split; [reflexivity|]. split; [exact Hin|].
        split; [intros E; destruct (Hempty E)|].
        intros l r [= <- <-]. fold first_line. rewrite Hhash, Hsplit.
        split; [discriminate|].
        intros c m _ [= <- <-]. split; [reflexivity | contradiction].
      * exists "default".
        split; [reflexivity|]. split; [exact Hdefault|].
        split; [reflexivity|].
        intros l r [= <- <-]. fold first_line. rewrite Hhash, Hsplit.
        split; [reflexivity|].
        intros c m _ [= <- <-]. split; [|reflexivity].
        intros Hin. apply lookup_in_keys in Hin. congruence.
    + exists "default".
      split; [reflexivity|]. split; [exact Hdefault|].
      split; [reflexivity|].
      intros l r [= <- <-]. fold first_line. rewrite Hhash.
      split; [reflexivity | discriminate].
Qed.

Lemma detect_music_type_total_witness :
  exists ty,
    RandomMusic.detect_music_type ("#  Metal now" ++ String Str.LF "la la")
    = Ok ty
    /\ In ty (keys RandomMusic.TYPE_INSTRUMENTS).
Proof.
  destruct (proj1 (detect_music_type_total
                     ("#  Metal now" ++ String Str.LF "la la")
                     (or_intror eq_refl)))
    as (ty & Hrun & Hkey & _).
  exists ty. split; assumption.
Defined.

(** ** The bucketed pitch mapper *)

Section PitchMapper.

Local Open Scope nat_scope.

Lemma firstn_seq_exact (n : nat) :
  forall a s, firstn n (seq a (n + s)) = seq a n.
Proof.
  induction n as [|n IH]; intros a s; [reflexivity|].
  cbn [Nat.add seq firstn]. rewrite IH. reflexivity.
Qed.

Lemma skipn_seq_exact (n : nat) :
  forall a s, skipn n (seq a (n + s)) = seq (a + n) s.
Proof.
  induction n as [|n IH]; intros a s.
  - rewrite Nat.add_0_r. reflexivity.
  - cbn [Nat.add seq skipn]. rewrite IH. f_equal. lia.
Qed.

Lemma last_seq (a n d : nat) : last (seq a (S n)) d = a + n.
Proof. rewrite seq_S. apply last_last. Qed.

Lemma nonincreasing_zero (rest : list nat) :
  nonincreasing (0 :: rest) -> list_sum rest = 0.
Proof.
  induction rest as [|m rest IH]; [reflexivity|].
  cbn [nonincreasing]. intros (Hm & Hrest).
  assert (m = 0) as -> by lia.
  cbn [list_sum fold_right]. apply IH. exact Hrest.
Qed.

Lemma find_segment_cons (length idx seg0 : nat) (seg : list nat)
  (rest : list (list nat)) :
  EnMusictester.find_segment length idx ((seg0 :: seg) :: rest)
  = if (seg0 <=? length) && (length <=? last (seg0 :: seg) seg0)
    then Ok (Some idx)
    else EnMusictester.find_segment length (S idx) rest.
Proof. reflexivity. Qed.

(** The scan of the sections of a range for a length of the range: it
    stops, without indexing an empty section, on the section that holds
    the length. *)
Lemma find_segment_slices (sizes : list nat) :
  forall a x idx,
    nonincreasing sizes ->
    a <= x < a + list_sum sizes ->
    let segs := EnMusictester.slices sizes (seq a (list_sum sizes)) in
    EnMusictester.find_segment x idx segs
    = Ok (Some (idx + locate sizes (x - a)))
    /\ (exists seg, nth_error segs (locate sizes (x - a)) = Some seg
                    /\ In x seg)
    /\ (forall j, j < locate sizes (x - a) ->
                  exists seg, nth_error segs j = Some seg /\ seg <> []).
Proof.
  induction sizes as [|n rest IH]; intros a x idx Hmono Hx.
  - cbn [list_sum fold_right] in Hx. lia.
  - change (list_sum (n :: rest)) with (n + list_sum rest) in *.
    cbn [EnMusictester.slices].
    rewrite firstn_seq_exact, skipn_seq_exact.
    destruct n as [|n].
    + rewrite (nonincreasing_zero rest Hmono) in Hx. lia.
    + cbn [seq]. rewrite find_segment_cons.
      change (a :: seq (S a) n) with (seq a (S n)). rewrite last_seq.
      cbn [locate].
      destruct (Nat.ltb_spec (x - a) (S n)) as [Hin | Hout].
      * replace ((a <=? x) && (x <=? a + n)) with true
          by (symmetry; apply andb_true_iff; split; apply Nat.leb_le; lia).
        rewrite Nat.add_0_r.
        split; [reflexivity|].
        split; [|intros j Hj; lia].
        exists (seq a (S n)). split; [reflexivity|]. apply in_seq. lia.
      * replace ((a <=? x) && (x <=? a + n)) with false
          by (symmetry; apply andb_false_iff; right; apply Nat.leb_gt; lia).
        destruct Hmono as [_ Hmono].
        destruct (IH (a + S n) x (S idx) Hmono) as (Hfind & Hseg & Hbefore);
          [lia|].
        replace (x - a - S n) with (x - (a + S n)) by lia.
        split; [rewrite Hfind; do 2 f_equal; lia|].
        split; [exact Hseg|].
        intros [|j] Hj.
        -- exists (seq a (S n)). split; [reflexivity | discriminate].
        -- apply Hbefore. lia.
Qed.

Lemma map_lengths_spec (splitted : list (list nat)) (f : nat -> nat) :
  forall word_lengths mapped,
    (forall x, In x word_lengths ->
               EnMusictester.find_segment x 0 splitted = Ok (Some (f x))) ->
    EnMusictester.map_lengths word_lengths splitted mapped
    = Ok (mapped ++ map f word_lengths).
Proof.
  induction word_lengths as [|x rest IH]; intros mapped Hfind.
  - cbn. rewrite app_nil_r. reflexivity.
  - cbn [EnMusictester.map_lengths]. rewrite (Hfind x) by (left; reflexivity).
    rewrite IH by (intros y Hy; apply Hfind; right; exact Hy).
    rewrite <- app_assoc. reflexivity.
Qed.

Lemma fold_left_min (l : list nat) :
  forall x,
    (fold_left Nat.min l x = x \/ In (fold_left Nat.min l x) l)
    /\ fold_left Nat.min l x <= x
    /\ Forall (fun y => fold_left Nat.min l x <= y) l.
Proof.
  induction l as [|y l IH]; intros x; cbn [fold_left].
  - repeat split; auto.
  - destruct (IH (Nat.min x y)) as (Hin & Hle & Hall).
    split; [|split].
    + destruct Hin as [E | Hin]; [|right; right; exact Hin].
      rewrite E. destruct (Nat.min_dec x y) as [-> | ->]; [left | right; left];
        reflexivity.
    + lia.
    + constructor; [lia | exact Hall].
Qed.

Lemma fold_left_max (l : list nat) :
  forall x,
    (fold_left Nat.max l x = x \/ In (fold_left Nat.max l x) l)
    /\ x <= fold_left Nat.max l x
    /\ Forall (fun y => y <= fold_left Nat.max l x) l.
Proof.
  induction l as [|y l IH]; intros x; cbn [fold_left].
  - repeat split; auto.
  - destruct (IH (Nat.max x y)) as (Hin & Hle & Hall).
    split; [|split].
    + destruct Hin as [E | Hin]; [|right; right; exact Hin].
      rewrite E. destruct (Nat.max_dec x y) as [-> | ->]; [left | right; left];
        reflexivity.
    + lia.
    + constructor; [lia | exact Hall].
Qed.

Lemma py_min_spec (l : list nat) :
  l <> [] ->
  exists m, EnMusictester.py_min l = Ok m
            /\ In m l /\ Forall (fun y => m <= y) l.
Proof.
  destruct l as [|x l]; [congruence|]. intros _.
  destruct (fold_left_min l x) as (Hin & Hle & Hall).
  exists (fold_left Nat.min l x). split; [reflexivity|].
  split; [destruct Hin as [-> | Hin]; [left; reflexivity | right; exact Hin]|].
  constructor; assumption.
Qed.

Lemma py_max_spec (l : list nat) :
  l <> [] ->
  exists m, EnMusictester.py_max l = Ok m
            /\ In m l /\ Forall (fun y => y <= m) l.
Proof.
  destruct l as [|x l]; [congruence|]. intros _.
  destruct (fold_left_max l x) as (Hin & Hle & Hall).
  exists (fold_left Nat.max l x). split; [reflexivity|].
  split; [destruct Hin as [-> | Hin]; [left; reflexivity | right; exact Hin]|].
  constructor; assumption.
Qed.

Lemma list_sum_repeat (c k : nat) : list_sum (repeat c k) = k * c.
Proof. induction k as [|k IH]; simpl; [reflexivity | rewrite IH; reflexivity]. Qed.

Lemma section_sizes_sum (Ntotal Nsections : nat) :
  Nsections <> 0 -> list_sum (section_sizes Ntotal Nsections) = Ntotal.
Proof.
  intros HN. unfold section_sizes.
  rewrite list_sum_app, !list_sum_repeat.
  pose proof (Nat.div_mod_eq Ntotal Nsections) as Hdm.
  pose proof (Nat.mod_upper_bound Ntotal Nsections HN) as Hr.
  set (q := Ntotal / Nsections) in *. set (r := Ntotal mod Nsections) in *.
  rewrite Nat.mul_succ_r, Nat.mul_sub_distr_r.
  pose proof (Nat.mul_le_mono_r r Nsections q ltac:(lia)).
  rewrite (Nat.mul_comm Nsections q) in Hdm. lia.
Qed.

Lemma nonincreasing_repeat (c k : nat) : nonincreasing (repeat c k).
Proof.
  induction k as [|k IH]; [exact I|].
  cbn [repeat nonincreasing]. split; [|exact IH].
  destruct k; cbn [repeat]; [exact I | lia].
Qed.

Lemma section_sizes_nonincreasing (Ntotal Nsections : nat) :
  nonincreasing (section_sizes Ntotal Nsections).
Proof.
  unfold section_sizes.
  generalize (Ntotal / Nsections) as q, (Ntotal mod Nsections) as r,
    (Nsections - Ntotal mod Nsections) as m.
  intros q r m. induction r as [|r IH].
  - apply nonincreasing_repeat.
  - cbn [repeat app nonincreasing]. split; [|exact IH].
    destruct r; cbn [repeat app]; [destruct m; cbn [repeat]; [exact I | lia] | lia].
Qed.

Lemma section_sizes_length (Ntotal Nsections : nat) :
  Nsections <> 0 ->
  List.length (section_sizes Ntotal Nsections) = Nsections.
Proof.
  intros HN. unfold section_sizes.
  rewrite length_app, !repeat_length.
  pose proof (Nat.mod_upper_bound Ntotal Nsections HN). lia.
Qed.

End PitchMapper.

Section Buckets.

Local Open Scope nat_scope.

Lemma locate_lt (sizes : list nat) :
  forall d, d < list_sum sizes -> locate sizes d < List.length sizes.
Proof.
  induction sizes as [|n rest IH]; intros d Hd.
  - cbn in Hd. lia.
  - change (list_sum (n :: rest)) with (n + list_sum rest) in Hd.
    cbn [locate List.length].
    destruct (Nat.ltb_spec d n); [lia|].
    specialize (IH (d - n)). lia.
Qed.

Lemma locate_first (sizes : list nat) :
  nonincreasing sizes -> 0 < list_sum sizes -> locate sizes 0 = 0.
Proof.
  destruct sizes as [|n rest]; [reflexivity|].
  intros Hmono Hsum.
  change (list_sum (n :: rest)) with (n + list_sum rest) in Hsum.
  destruct n as [|n]; [|reflexivity].
  rewrite (nonincreasing_zero rest Hmono) in Hsum. lia.
Qed.

Lemma count_pos_cons (n : nat) (rest : list nat) :
  count_pos (n :: rest) = (if 0 <? n then 1 else 0) + count_pos rest.
Proof. unfold count_pos. cbn [filter]. destruct (0 <? n); reflexivity. Qed.

Lemma count_pos_none (sizes : list nat) :
  list_sum sizes = 0 -> count_pos sizes = 0.
Proof.
  induction sizes as [|n rest IH]; [reflexivity|].
  change (list_sum (n :: rest)) with (n + list_sum rest). intros H.
  rewrite count_pos_cons, IH by lia.
  destruct (Nat.ltb_spec 0 n); lia.
Qed.

Lemma count_pos_some (sizes : list nat) :
  0 < list_sum sizes -> 0 < count_pos sizes.
Proof.
  induction sizes as [|n rest IH]; [cbn; lia|].
  change (list_sum (n :: rest)) with (n + list_sum rest). intros H.
  rewrite count_pos_cons.
  destruct (Nat.ltb_spec 0 n); [lia|]. apply IH. lia.
Qed.

(** The last position of the whole lies in the last section that is not
    empty. *)
Lemma locate_last (sizes : list nat) :
  nonincreasing sizes -> 0 < list_sum sizes ->
  locate sizes (list_sum sizes - 1) = count_pos sizes - 1.
Proof.
  induction sizes as [|n rest IH]; intros Hmono Hsum; [cbn in Hsum; lia|].
  change (list_sum (n :: rest)) with (n + list_sum rest) in *.
  destruct n as [|n].
  - rewrite (nonincreasing_zero rest Hmono) in Hsum. lia.
  - rewrite count_pos_cons. cbn [locate]. change (0 <? S n) with true.
    destruct (Nat.eq_dec (list_sum rest) 0) as [E | E].
    + rewrite E, (count_pos_none rest E).
      destruct (Nat.ltb_spec (S n + 0 - 1) (S n)); [lia | lia].
    + destruct (Nat.ltb_spec (S n + list_sum rest - 1) (S n)); [lia|].
      replace (S n + list_sum rest - 1 - S n) with (list_sum rest - 1) by lia.
      rewrite IH by (try apply Hmono; lia).
      pose proof (count_pos_some rest ltac:(lia)). lia.
Qed.

Lemma count_pos_app (l1 l2 : list nat) :
  count_pos (l1 ++ l2) = count_pos l1 + count_pos l2.
Proof. unfold count_pos. rewrite filter_app, length_app. reflexivity. Qed.

Lemma count_pos_repeat (c k : nat) :
  count_pos (repeat c k) = if 0 <? c then k else 0.
Proof.
  induction k as [|k IH]; [destruct (0 <? c); reflexivity|].
  cbn [repeat]. rewrite count_pos_cons, IH. destruct (0 <? c); reflexivity.
Qed.

Lemma count_pos_section_sizes (Ntotal Nsections : nat) :
  Nsections <> 0 ->
  count_pos (section_sizes Ntotal Nsections) = Nat.min Nsections Ntotal.
Proof.
  intros HN. unfold section_sizes.
  rewrite count_pos_app, !count_pos_repeat.
  pose proof (Nat.mod_upper_bound Ntotal Nsections HN) as Hr.
  change (0 <? S (Ntotal / Nsections)) with true.
  destruct (Nat.ltb_spec 0 (Ntotal / Nsections)) as [Hq | Hq].
  - assert (Nsections <= Ntotal).
    { destruct (Nat.le_gt_cases Nsections Ntotal) as [H | H]; [exact H|].
      rewrite (Nat.div_small Ntotal Nsections H) in Hq. lia. }
    lia.
  - assert (Ntotal < Nsections)
      by (apply Nat.div_small_iff; [exact HN | lia]).
    rewrite Nat.mod_small by assumption. lia.
Qed.

Lemma slices_lengths (sizes : list nat) :
  forall ary : list nat,
    list_sum sizes <= List.length ary ->
    map (@List.length nat) (EnMusictester.slices sizes ary) = sizes.
Proof.
  induction sizes as [|n rest IH]; intros ary Hlen; [reflexivity|].
  change (list_sum (n :: rest)) with (n + list_sum rest) in Hlen.
  cbn [EnMusictester.slices map]. f_equal.
  - rewrite length_firstn. lia.
  - apply IH. rewrite length_skipn. lia.
Qed.

(** The pitch mapper on a word list that is not empty and a scale with
    a degree: nothing raises, and every word is mapped to the section of
    the length range that holds its length. *)
Lemma mapped_indices_spec (words : list string) (n_scales : nat) :
  words <> [] -> n_scales <> 0 ->
  exists min_len max_len,
    EnMusictester.py_min (map String.length words) = Ok min_len
    /\ EnMusictester.py_max (map String.length words) = Ok max_len
    /\ Forall (fun w => min_len <= String.length w <= max_len) words
    /\ min_len <= max_len
    /\ EnMusictester.array_split
         (EnMusictester.range min_len (max_len + 1)) n_scales
       = Ok (EnMusictester.slices
               (section_sizes (max_len + 1 - min_len) n_scales)
               (EnMusictester.range min_len (max_len + 1)))
    /\ EnMusictester.mapped_indices words n_scales
       = Ok (map (fun w =>
                    locate (section_sizes (max_len + 1 - min_len) n_scales)
                      (String.length w - min_len)) words).
Proof.
  intros Hwords HN.
  assert (Hlens : map String.length words <> [])
    by (destruct words; [congruence | discriminate]).
  destruct (py_min_spec _ Hlens) as (min_len & Hmin & Hmin_in & Hmin_all).
  destruct (py_max_spec _ Hlens) as (max_len & Hmax & Hmax_in & Hmax_all).
  exists min_len, max_len.
  assert (Hbounds : Forall (fun w => min_len <= String.length w <= max_len)
                      words).
  { rewrite Forall_map in Hmin_all, Hmax_all.
    rewrite Forall_forall in *. intros w Hw.
    split; [apply Hmin_all | apply Hmax_all]; exact Hw. }
  assert (Hle : min_len <= max_len).
  { rewrite Forall_forall in Hmax_all. apply Hmax_all. exact Hmin_in. }
  assert (Hsplit : EnMusictester.array_split
                     (EnMusictester.range min_len (max_len + 1)) n_scales
                   = Ok (EnMusictester.slices
                           (section_sizes (max_len + 1 - min_len) n_scales)
                           (EnMusictester.range min_len (max_len + 1)))).
  { unfold EnMusictester.array_split, EnMusictester.range.
    rewrite length_seq. destruct n_scales; [congruence | reflexivity]. }
  repeat (split; [assumption|]).
  unfold EnMusictester.mapped_indices. rewrite Hmin, Hmax, Hsplit.
  rewrite (map_lengths_spec _
             (fun x => locate (section_sizes (max_len + 1 - min_len) n_scales)
                         (x - min_len))).
  - cbn [app]. rewrite map_map. reflexivity.
  - intros x Hx. apply in_map_iff in Hx as (w & <- & Hw).
    rewrite Forall_forall in Hbounds. specialize (Hbounds w Hw).
    unfold EnMusictester.range.
    pose proof (section_sizes_sum (max_len + 1 - min_len) n_scales HN) as Hsum.
    rewrite <- Hsum at 2.
    apply (find_segment_slices
             (section_sizes (max_len + 1 - min_len) n_scales) min_len
             (String.length w) 0
             (section_sizes_nonincreasing _ _)).
    rewrite Hsum. lia.
Qed.

End Buckets.

Section Degrees.

Local Open Scope nat_scope.

(** C3, as the code has it.  For a word list that is not empty and a
    scale of N > 0 degrees, the length range is split into N sections,
    the earlier ones one longer when N does not divide the range, and
    every word gets a degree index below N.  A word of minimum length
    gets degree 0; a word of maximum length gets the last section that
    is not empty, of index min(N, maxLen - minLen + 1) - 1, which is
    N - 1 when the range has at least N lengths. *)
Theorem degree_within_scale (words : list string) (n_scales : nat) :
  words <> [] -> n_scales <> 0 ->
  exists min_len max_len splitted idxs,
    EnMusictester.py_min (map String.length words) = Ok min_len
    /\ EnMusictester.py_max (map String.length words) = Ok max_len
    /\ EnMusictester.array_split
         (EnMusictester.range min_len (max_len + 1)) n_scales
       = Ok splitted
    /\ map (@List.length nat) splitted
       = section_sizes (max_len + 1 - min_len) n_scales
    /\ EnMusictester.mapped_indices words n_scales = Ok idxs
    /\ List.length idxs = List.length words
    /\ Forall (fun idx => idx < n_scales) idxs
    /\ (forall i w, nth_error words i = Some w ->
                    String.length w = min_len ->
                    nth_error idxs i = Some 0)
    /\ (forall i w, nth_error words i = Some w ->
                    String.length w = max_len ->
                    nth_error idxs i
                    = Some (Nat.min n_scales (max_len + 1 - min_len) - 1))
    /\ (n_scales <= max_len + 1 - min_len ->
        forall i w, nth_error words i = Some w ->
                    String.length w = max_len ->
                    nth_error idxs i = Some (n_scales - 1)).
Proof.
  intros Hwords HN.
  destruct (mapped_indices_spec words n_scales Hwords HN)
    as (min_len & max_len & Hmin & Hmax & Hbounds & Hle & Hsplit & Hmap).
  set (sizes := section_sizes (max_len + 1 - min_len) n_scales) in *.
  pose proof (section_sizes_sum (max_len + 1 - min_len) n_scales HN) as Hsum.
  pose proof (section_sizes_nonincreasing (max_len + 1 - min_len) n_scales)
    as Hmono.
  fold sizes in Hsum, Hmono.
  assert (Hlast : forall i w,
             nth_error words i = Some w -> String.length w = max_len ->
             nth_error
               (map (fun w => locate sizes (String.length w - min_len)) words)
               i
             = Some (Nat.min n_scales (max_len + 1 - min_len) - 1)).
  { intros i w Hw Hlen. rewrite (map_nth_error _ _ _ Hw), Hlen.
    replace (max_len - min_len) with (list_sum sizes - 1) by lia.
    rewrite locate_last by (try assumption; lia).
    unfold sizes. rewrite count_pos_section_sizes by assumption.
    reflexivity. }
  exists min_len, max_len,
    (EnMusictester.slices sizes (EnMusictester.range min_len (max_len + 1))),
    (map (fun w => locate sizes (String.length w - min_len)) words).
  split; [exact Hmin|]. split; [exact Hmax|]. split; [exact Hsplit|].
  split.
  { apply slices_lengths. unfold EnMusictester.range.
    rewrite length_seq. subst sizes. lia. }
  split; [exact Hmap|].
  split; [apply length_map|].
  split.
  { apply Forall_map. rewrite Forall_forall in *. intros w Hw.
    specialize (Hbounds w Hw).
    rewrite <- (section_sizes_length (max_len + 1 - min_len) n_scales HN).
    apply locate_lt. fold sizes. lia. }
  split.
  { intros i w Hw Hlen. rewrite (map_nth_error _ _ _ Hw), Hlen, Nat.sub_diag.
    rewrite locate_first by (try assumption; lia). reflexivity. }
  split; [exact Hlast|].
  intros Hwide i w Hw Hlen. rewrite (Hlast i w Hw Hlen).
  rewrite Nat.min_l by exact Hwide. reflexivity.
Qed.

Lemma degree_within_scale_witness :
  exists idxs,
    EnMusictester.mapped_indices ["a"; "bb"; "ccc"] 3 = Ok idxs
    /\ Forall (fun idx => idx < 3) idxs.
Proof.
  destruct (degree_within_scale ["a"; "bb"; "ccc"] 3
              ltac:(discriminate) ltac:(discriminate))
    as (min_len & max_len & splitted & idxs & _ & _ & _ & _ & Hmap & _
        & Hall & _).
  exists idxs. split; assumption.
Defined.

(** C3 as stated fails on a word list with fewer lengths than degrees:
    the one word of ["abc"] has the maximum length and, on a scale of 6
    degrees, gets degree 0, not degree 5. *)
Lemma max_length_degree_counterexample :
  EnMusictester.mapped_indices ["abc"] 6 = Ok [0]
  /\ EnMusictester.py_max (map String.length ["abc"])
     = Ok (String.length "abc")
  /\ nth_error [0] 0 <> Some (6 - 1).
Proof.
  split; [reflexivity|]. split; [reflexivity | discriminate].
Qed.

(** C9. For a word list that is not empty and a scale with a degree, the
    pitch mapping is total: every word length lies in [minLen, maxLen],
    the section that holds it is met, with only sections that are not
    empty before it, so no empty section is indexed, nothing raises and
    exactly one degree index is appended for each word, also when the
    range has fewer lengths than there are sections. *)
Theorem pitch_mapping_total (words : list string) (n_scales : nat) :
  words <> [] -> n_scales <> 0 ->
  exists min_len max_len splitted idxs,
    EnMusictester.py_min (map String.length words) = Ok min_len
    /\ EnMusictester.py_max (map String.length words) = Ok max_len
    /\ Forall (fun w => min_len <= String.length w <= max_len) words
    /\ EnMusictester.array_split
         (EnMusictester.range min_len (max_len + 1)) n_scales
       = Ok splitted
    /\ EnMusictester.mapped_indices words n_scales = Ok idxs
    /\ List.length idxs = List.length words
    /\ (forall i w,
           nth_error words i = Some w ->
           exists idx seg,
             nth_error idxs i = Some idx
             /\ nth_error splitted idx = Some seg
             /\ In (String.length w) seg
             /\ EnMusictester.find_segment (String.length w) 0 splitted
                = Ok (Some idx)
             /\ forall j, j < idx ->
                          exists seg', nth_error splitted j = Some seg'
                                       /\ seg' <> []).
Proof.
  intros Hwords HN.
  destruct (mapped_indices_spec words n_scales Hwords HN)
    as (min_len & max_len & Hmin & Hmax & Hbounds & Hle & Hsplit & Hmap).
  set (sizes := section_sizes (max_len + 1 - min_len) n_scales) in *.
  pose proof (section_sizes_sum (max_len + 1 - min_len) n_scales HN) as Hsum.
  fold sizes in Hsum.
  exists min_len, max_len,
    (EnMusictester.slices sizes (EnMusictester.range min_len (max_len + 1))),
    (map (fun w => locate sizes (String.length w - min_len)) words).
  split; [exact Hmin|]. split; [exact Hmax|]. split; [exact Hbounds|].
  split; [exact Hsplit|]. split; [exact Hmap|].
  split; [apply length_map|].
  intros i w Hw.
  assert (Hin : min_len <= String.length w <= max_len).
  { rewrite Forall_forall in Hbounds. apply Hbounds.
    eapply nth_error_In. exact Hw. }
  destruct (find_segment_slices sizes min_len (String.length w) 0
              (section_sizes_nonincreasing _ _))
    as (Hfind & (seg & Hseg & Hmem) & Hbefore); [rewrite Hsum; lia|].
  unfold EnMusictester.range. rewrite Hsum in Hfind, Hseg, Hbefore.
  exists (locate sizes (String.length w - min_len)), seg.
  split; [exact (map_nth_error
                   (fun w => locate sizes (String.length w - min_len))
                   _ _ Hw)|].
  split; [exact Hseg|]. split; [exact Hmem|].
  split; [exact Hfind | exact Hbefore].
Qed.

Lemma pitch_mapping_total_witness :
  exists idxs,
    EnMusictester.mapped_indices ["abc"; "xyz"] 6 = Ok idxs
    /\ List.length idxs = List.length ["abc"; "xyz"].
Proof.
  destruct (pitch_mapping_total ["abc"; "xyz"] 6
              ltac:(discriminate) ltac:(discriminate))
    as (min_len & max_len & splitted & idxs & _ & _ & _ & _ & Hmap & Hlen & _).
  exists idxs. split; assumption.
Defined.

End Degrees.

(** * Further properties of the programs *)

(** ** A target without ticks *)

Lemma while_loop_skipped {S : Type} (cond : S -> bool)
  (body : S -> M (flow S)) (fuel : nat) (s : S) (g : rng) :
  cond s = false -> while_loop cond body fuel s g = Ok (s, g).
Proof. intros H. destruct fuel; cbn [while_loop]; rewrite H; reflexivity. Qed.

(** X1. For a target of 0 ticks or less the drum scheduler of either
    program draws its first pattern and leaves the loop without a pass,
    whatever the fuel: [generate_drum_to_fit_time] leaves the track as
    it was, [create_drum_track] adds to [mid] a track of the tempo and
    the volume message only. *)
Theorem empty_target_adds_no_drums (bpm2tempo : Z -> Z) (fuel : nat)
  (track : MidiTrack) (mid : list MidiTrack) (total channel bpm : Z)
  (g : rng) :
  total <= 0 ->
  exists id,
    In id (keys get_drum_pattern_map)
    /\ EnMusictester.generate_drum_to_fit_time fuel track total channel g
       = Ok (mkDrum 0 (Some id) track, advance g)
    /\ RandomMusic.create_drum_track bpm2tempo fuel mid total bpm g
       = Ok ((mid ++ [drum_head (bpm2tempo bpm)],
              mkDrum 0 (Some id) (drum_head (bpm2tempo bpm))), advance g).
Proof.
  intros Hle.
  destruct (choice_ok (keys get_drum_pattern_map) g) as (id & Hch & Hin);
    [discriminate|].
  exists id. split; [exact Hin|].
  assert (Hcond : forall t, (current_time (mkDrum 0 (Some id) t) <? total)
                            = false)
    by (intros t; apply Z.ltb_ge; cbn [current_time]; lia).
  split.
  - unfold EnMusictester.generate_drum_to_fit_time,
      EnMusictester.get_drums_pattern_map.
    rewrite (bind_ok _ _ _ _ _ Hch).
    apply while_loop_skipped. apply Hcond.
  - unfold RandomMusic.create_drum_track.
    rewrite (bind_ok _ _ _ _ _ Hch).
    erewrite bind_ok by (apply while_loop_skipped; apply Hcond).
    reflexivity.
Qed.

Lemma empty_target_adds_no_drums_witness :
  exists id,
    In id (keys get_drum_pattern_map)
    /\ EnMusictester.generate_drum_to_fit_time 0 [] 0 9 sample_rng
       = Ok (mkDrum 0 (Some id) [], advance sample_rng)
    /\ RandomMusic.create_drum_track (fun _ => 500000) 0 [] 0 120 sample_rng
       = Ok (([] ++ [drum_head 500000],
              mkDrum 0 (Some id) (drum_head 500000)), advance sample_rng).
Proof.
  apply (empty_target_adds_no_drums (fun _ => 500000) 0 [] [] 0 9 120
           sample_rng).
  lia.
Defined.

(** ** A full measure *)

Lemma sorted_length (pattern : list (string * Z)) :
  List.length (sorted pattern) = List.length pattern.
Proof.
  assert (Hins : forall x l,
             List.length (insert_by_step x l) = S (List.length l)).
  { intros x l. induction l as [|y l IH]; [reflexivity|].
    cbn [insert_by_step]. destruct (snd x <=? snd y); cbn [List.length];
      [reflexivity | rewrite IH; reflexivity]. }
  induction pattern as [|x l IH]; [reflexivity|].
  cbn [sorted fold_right]. fold (sorted l). rewrite Hins, IH. reflexivity.
Qed.

(** The full-measure loop of en_musictester.py on growing steps of at
    most 16 and known roles. *)
Lemma en_measure_loop_all (pat : list (string * Z)) :
  forall lo channel accum track g,
    ascending lo pat = true -> forallb known_key pat = true ->
    forallb (fun p => snd p <=? 16) pat = true ->
    accum <= lo * 120 -> accum <= 1850 ->
    exists evs accum' g',
      EnMusictester.measure_loop pat 120 channel accum track g
      = Ok ((accum', track ++ evs), g')
      /\ total_ticks evs = accum' - accum
      /\ accum' <= 1850
      /\ Forall nonneg_time evs
      /\ Forall full_off evs
      /\ struck evs = drum_notes pat
      /\ List.length evs = (2 * List.length pat)%nat.
Proof.
  induction pat as [|[k s] rest IH];
    intros lo channel accum track g Hasc Hkn Hst Hlo Hacc.
  - exists [], accum, g. cbn [EnMusictester.measure_loop ret].
    rewrite app_nil_r.
    split; [reflexivity|]. split; [ticks|]. split; [exact Hacc|].
    repeat split; constructor.
  - cbn [ascending forallb] in Hasc, Hkn, Hst.
    apply andb_true_iff in Hasc as [Hs Hasc]. apply Z.ltb_lt in Hs.
    apply andb_true_iff in Hkn as [Hk Hkn].
    apply andb_true_iff in Hst as [Hs16 Hst]. apply Z.leb_le in Hs16.
    cbn [snd] in Hs16.
    destruct (known_key_lookup _ _ Hk) as [n Hn].
    cbn [EnMusictester.measure_loop]. rewrite Hn, bind_randint by lia.
    set (v := 70 + ints g (cursor g) mod (100 - 70 + 1)).
    destruct (IH s channel ((s - 1) * 120 + 50)
                (track ++ [note_on n v ((s - 1) * 120 - accum) channel;
                           note_off n 0 50 channel]) (advance g))
      as (evs & accum' & g' & Hrun & Htot & Hbound & Hnn & Hfull & Hstruck
          & Hlen);
      [assumption | assumption | assumption | lia | lia |].
    exists ([note_on n v ((s - 1) * 120 - accum) channel;
             note_off n 0 50 channel] ++ evs), accum', g'.
    rewrite app_assoc. split; [exact Hrun|].
    split; [rewrite total_ticks_app, Htot; ticks|].
    split; [exact Hbound|].
    split; [repeat constructor; unfold nonneg_time; simpl; try lia;
            exact Hnn|].
    split; [repeat constructor; simpl; try reflexivity; exact Hfull|].
    split.
    + rewrite struck_app, Hstruck.
      unfold struck at 1, drum_notes, v. cbn [flat_map fst app].
      rewrite Hn, (drum_note_velocity 70) by lia. reflexivity.
    + cbn [List.length app]. rewrite Hlen. lia.
Qed.

(** The full-measure loop of random_music.py, likewise. *)
Lemma rm_full_loop_all (pat : list (string * Z)) :
  forall lo accum track g,
    ascending lo pat = true -> forallb known_key pat = true ->
    forallb (fun p => snd p <=? 16) pat = true ->
    accum <= lo * 120 -> accum <= 1850 ->
    exists evs accum' g',
      RandomMusic.full_loop pat 120 accum track g
      = Ok ((accum', track ++ evs), g')
      /\ total_ticks evs = accum' - accum
      /\ accum' <= 1850
      /\ Forall nonneg_time evs
      /\ Forall full_off evs
      /\ struck evs = drum_notes pat
      /\ List.length evs = (2 * List.length pat)%nat.
Proof.
  induction pat as [|[k s] rest IH];
    intros lo accum track g Hasc Hkn Hst Hlo Hacc.
  - exists [], accum, g. cbn [RandomMusic.full_loop ret].
    rewrite app_nil_r.
    split; [reflexivity|]. split; [ticks|]. split; [exact Hacc|].
    repeat split; constructor.
  - cbn [ascending forallb] in Hasc, Hkn, Hst.
    apply andb_true_iff in Hasc as [Hs Hasc]. apply Z.ltb_lt in Hs.
    apply andb_true_iff in Hkn as [Hk Hkn].
    apply andb_true_iff in Hst as [Hs16 Hst]. apply Z.leb_le in Hs16.
    cbn [snd] in Hs16.
    destruct (known_key_lookup _ _ Hk) as [n Hn].
    cbn [RandomMusic.full_loop]. rewrite Hn, bind_randint by lia.
    set (v := 60 + ints g (cursor g) mod (100 - 60 + 1)).
    destruct (IH s ((s - 1) * 120 + 50)
                (track ++ [note_on n v ((s - 1) * 120 - accum) 9;
                           note_off n 0 50 9]) (advance g))
      as (evs & accum' & g' & Hrun & Htot & Hbound & Hnn & Hfull & Hstruck
          & Hlen);
      [assumption | assumption | assumption | lia | lia |].
    exists ([note_on n v ((s - 1) * 120 - accum) 9; note_off n 0 50 9] ++ evs),
      accum', g'.
    rewrite app_assoc. split; [exact Hrun|].
    split; [rewrite total_ticks_app, Htot; ticks|].
    split; [exact Hbound|].
    split; [repeat constructor; unfold nonneg_time; simpl; try lia;
            exact Hnn|].
    split; [repeat constructor; simpl; try reflexivity; exact Hfull|].
    split.
    + rewrite struck_app, Hstruck.
      unfold struck at 1, drum_notes, v. cbn [flat_map fst app].
      rewrite Hn, (drum_note_velocity 60) by lia. reflexivity.
    + cbn [List.length app]. rewrite Hlen. lia.
Qed.

(** X2. A full measure of a pattern that, once sorted, has strictly
    growing steps of 1..16 and only known roles, as the three patterns
    of the map have: either renderer strikes every pair of the pattern
    in step order, each with a note-off of the full 50 ticks and no
    negative delta-time, and closes the measure with a filler of at
    least 70 ticks that brings the delta-times to 1920 in all;
    [write_full_drum_measure] returns the time 1920 ticks on. *)
Theorem full_measure_lasts_1920 (pattern : list (string * Z))
  (channel current_time : Z) (track : MidiTrack) (g : rng) :
  well_formed pattern = true ->
  (exists hits remain g',
      EnMusictester.write_drum_measure track pattern 1920 channel g
      = Ok (track ++ hits ++ [note_on 36 0 remain channel], g')
      /\ full_measure_ok pattern hits remain)
  /\ (exists hits remain g',
         RandomMusic.write_full_drum_measure track pattern current_time
           1920 g
         = Ok ((track ++ hits ++ [note_on 36 0 remain 9],
                current_time + 1920), g')
         /\ full_measure_ok pattern hits remain).
Proof.
  intros Hwf. destruct (well_formed_parts _ Hwf) as (Hasc & Hkn & Hst).
  split.
  - destruct (en_measure_loop_all (sorted pattern) 0 channel 0 track g)
      as (hits & accum' & g' & Hrun & Htot & Hbound & Hnn & Hfull & Hstruck
          & Hlen); try assumption; try lia.
    exists hits, (1920 - accum'), g'.
    unfold EnMusictester.write_drum_measure.
    change (1920 / 16) with 120. rewrite (bind_ok _ _ _ _ _ Hrun).
    destruct (Z.ltb_spec (1920 - accum') 0); [lia|].
    destruct (Z.gtb_spec (1920 - accum') 0); [|lia].
    split; [unfold ret; rewrite <- app_assoc; reflexivity|].
    rewrite sorted_length in Hlen.
    repeat split; try assumption; lia.
  - destruct (rm_full_loop_all (sorted pattern) 0 0 track g)
      as (hits & accum' & g' & Hrun & Htot & Hbound & Hnn & Hfull & Hstruck
          & Hlen); try assumption; try lia.
    exists hits, (1920 - accum'), g'.
    unfold RandomMusic.write_full_drum_measure.
    change (1920 / 16) with 120. rewrite (bind_ok _ _ _ _ _ Hrun).
    destruct (Z.ltb_spec (1920 - accum') 0); [lia|].
    split; [unfold ret; rewrite <- app_assoc; reflexivity|].
    rewrite sorted_length in Hlen.
    repeat split; try assumption; lia.
Qed.

Lemma full_measure_lasts_1920_witness :
  exists hits remain g',
    EnMusictester.write_drum_measure [] DRUM_PATTERN_B 1920 9 sample_rng
    = Ok ([] ++ hits ++ [note_on 36 0 remain 9], g')
    /\ full_measure_ok DRUM_PATTERN_B hits remain.
Proof.
  apply (proj1 (full_measure_lasts_1920 DRUM_PATTERN_B 9 0 [] sample_rng
                  eq_refl)).
Defined.

(** ** What a drum track holds *)

Lemma bind_inv {A B : Type} (c : M A) (k : A -> M B) (g : rng)
  (r : B * rng) :
  bind c k g = Ok r -> exists a g1, c g = Ok (a, g1) /\ k a g1 = Ok r.
Proof.
  unfold bind. destruct (c g) as [[a g1]|e]; [|discriminate].
  intros H. exists a, g1. split; [reflexivity | exact H].
Qed.

Lemma drum_note_map_values (k : string) (n : Z) :
  lookup k DRUM_NOTE_MAP = Some n -> In n [36; 38; 42].
Proof.
  unfold DRUM_NOTE_MAP. cbn [lookup].
  destruct (String.eqb k "K"); [intros [= <-]; simpl; tauto|].
  destruct (String.eqb k "S"); [intros [= <-]; simpl; tauto|].
  destruct (String.eqb k "H"); [intros [= <-]; simpl; tauto|].
  discriminate.
Qed.

Lemma drum_hit_ok (channel lo n x delta off : Z) (track : MidiTrack) :
  0 < lo <= 100 -> In n [36; 38; 42] -> 0 <= delta -> 0 <= off <= 50 ->
  Forall (drum_message channel lo) track ->
  Forall (drum_message channel lo)
    (track ++ [note_on n (lo + x mod (100 - lo + 1)) delta channel;
               note_off n 0 off channel]).
Proof.
  intros Hlo Hn Hdelta Hoff Htrack.
  apply Forall_app. split; [exact Htrack|].
  pose proof (Z.mod_pos_bound x (100 - lo + 1) ltac:(lia)).
  constructor; [|constructor; [|constructor]]; cbn [drum_message].
  - split; [reflexivity|]. split; [exact Hn|].
    split; [right; lia | exact Hdelta].
  - split; [reflexivity|]. split; [exact Hn|].
    split; [reflexivity | exact Hoff].
Qed.

Lemma clamped_off_time (event_tick leftover : Z) :
  0 <= (if event_tick + 50 >? leftover
        then (if leftover - event_tick <? 0 then 0
              else leftover - event_tick)
        else 50) <= 50.
Proof.
  destruct (Z.gtb_spec (event_tick + 50) leftover);
    [destruct (Z.ltb_spec (leftover - event_tick) 0) |]; lia.
Qed.

Lemma en_measure_loop_keeps (channel : Z) (pat : list (string * Z)) :
  forall lo accum track g accum' track' g',
    ascending lo pat = true -> accum <= lo * 120 ->
    Forall (drum_message channel 70) track ->
    EnMusictester.measure_loop pat 120 channel accum track g
    = Ok ((accum', track'), g') ->
    Forall (drum_message channel 70) track'.
Proof.
  induction pat as [|[k s] rest IH];
    intros lo accum track g accum' track' g' Hasc Hlo Htrack.
  - cbn [EnMusictester.measure_loop ret]. intros [= _ <- _]. exact Htrack.
  - cbn [ascending] in Hasc.
    apply andb_true_iff in Hasc as [Hs Hasc]. apply Z.ltb_lt in Hs.
    cbn [EnMusictester.measure_loop].
    destruct (lookup k DRUM_NOTE_MAP) as [n|] eqn:Hn.
    + rewrite bind_randint by lia.
      apply (IH s); [exact Hasc | lia |].
      apply drum_hit_ok; try lia; [eapply drum_note_map_values; eassumption
                                  | exact Htrack].
    + apply (IH s); [exact Hasc | lia | exact Htrack].
Qed.

Lemma en_partial_loop_keeps (channel : Z) (pat : list (string * Z)) :
  forall lo leftover accum track g accum' track' g',
    ascending lo pat = true -> accum <= lo * 120 ->
    Forall (drum_message channel 70) track ->
    EnMusictester.partial_loop pat leftover channel accum track g
    = Ok ((accum', track'), g') ->
    Forall (drum_message channel 70) track'.
Proof.
  induction pat as [|[k s] rest IH];
    intros lo leftover accum track g accum' track' g' Hasc Hlo Htrack.
  - cbn [EnMusictester.partial_loop ret]. intros [= _ <- _]. exact Htrack.
  - cbn [ascending] in Hasc.
    apply andb_true_iff in Hasc as [Hs Hasc]. apply Z.ltb_lt in Hs.
    cbn [EnMusictester.partial_loop].
    destruct ((s - 1) * 120 >? leftover);
      [unfold ret; intros [= _ <- _]; exact Htrack|].
    pose proof (clamped_off_time ((s - 1) * 120) leftover) as Hoff.
    destruct (lookup k DRUM_NOTE_MAP) as [n|] eqn:Hn.
    + rewrite bind_randint by lia.
      apply (IH s); [exact Hasc | lia |].
      apply drum_hit_ok; try lia; [eapply drum_note_map_values; eassumption
                                  | exact Htrack].
    + apply (IH s); [exact Hasc | lia | exact Htrack].
Qed.

Lemma rm_full_loop_keeps (pat : list (string * Z)) :
  forall lo accum track g accum' track' g',
    ascending lo pat = true -> accum <= lo * 120 ->
    Forall (drum_message 9 60) track ->
    RandomMusic.full_loop pat 120 accum track g = Ok ((accum', track'), g') ->
    Forall (drum_message 9 60) track'.
Proof.
  induction pat as [|[k s] rest IH];
    intros lo accum track g accum' track' g' Hasc Hlo Htrack.
  - cbn [RandomMusic.full_loop ret]. intros [= _ <- _]. exact Htrack.
  - cbn [ascending] in Hasc.
    apply andb_true_iff in Hasc as [Hs Hasc]. apply Z.ltb_lt in Hs.
    cbn [RandomMusic.full_loop].
    destruct (lookup k DRUM_NOTE_MAP) as [n|] eqn:Hn.
    + rewrite bind_randint by lia.
      apply (IH s); [exact Hasc | lia |].
      apply drum_hit_ok; try lia; [eapply drum_note_map_values; eassumption
                                  | exact Htrack].
    + apply (IH s); [exact Hasc | lia | exact Htrack].
Qed.

Lemma rm_partial_loop_keeps (pat : list (string * Z)) :
  forall lo leftover accum track g accum' track' g',
    ascending lo pat = true -> accum <= lo * 120 ->
    Forall (drum_message 9 60) track ->
    RandomMusic.partial_loop pat leftover accum track g
    = Ok ((accum', track'), g') ->
    Forall (drum_message 9 60) track'.
Proof.
  induction pat as [|[k s] rest IH];
    intros lo leftover accum track g accum' track' g' Hasc Hlo Htrack.
  - cbn [RandomMusic.partial_loop ret]. intros [= _ <- _]. exact Htrack.
  - cbn [ascending] in Hasc.
    apply andb_true_iff in Hasc as [Hs Hasc]. apply Z.ltb_lt in Hs.
    cbn [RandomMusic.partial_loop].
    destruct ((s - 1) * 120 >? leftover);
      [unfold ret; intros [= _ <- _]; exact Htrack|].
    pose proof (clamped_off_time ((s - 1) * 120) leftover) as Hoff.
    destruct (lookup k DRUM_NOTE_MAP) as [n|] eqn:Hn.
    + rewrite bind_randint by lia.
      assert (Hhit : Forall (drum_message 9 60)
                       (track
                        ++ [note_on n
                              (60 + ints g (cursor g) mod (100 - 60 + 1))
                              ((s - 1) * 120 - accum) 9;
                            note_off n 0
                              (if (s - 1) * 120 + 50 >? leftover
                               then (if leftover - (s - 1) * 120 <? 0 then 0
                                     else leftover - (s - 1) * 120)
                               else 50) 9])).
      { apply drum_hit_ok; try lia;
          [eapply drum_note_map_values; eassumption | exact Htrack]. }
      match goal with
      | |- (if ?c then _ else _) _ = _ -> _ => destruct c
      end.
      * unfold ret. intros [= _ <- _]. exact Hhit.
      * apply (IH s); [exact Hasc | lia | exact Hhit].
    + destruct ((s - 1) * 120 >=? leftover).
      * unfold ret. intros [= _ <- _]. exact Htrack.
      * apply (IH s); [exact Hasc | lia | exact Htrack].
Qed.

Lemma filler_keeps (channel lo remain : Z) (track : MidiTrack) :
  0 <= remain ->
  Forall (drum_message channel lo) track ->
  Forall (drum_message channel lo) (track ++ [note_on 36 0 remain channel]).
Proof.
  intros Hr Htrack. apply Forall_app. split; [exact Htrack|].
  constructor; [|constructor]. cbn [drum_message].
  split; [reflexivity|]. split; [simpl; tauto|].
  split; [left; reflexivity | exact Hr].
Qed.

Lemma en_write_measure_keeps (channel : Z) (pattern : list (string * Z))
  (track track' : MidiTrack) (g g' : rng) :
  well_formed pattern = true ->
  Forall (drum_message channel 70) track ->
  EnMusictester.write_drum_measure track pattern 1920 channel g
  = Ok (track', g') ->
  Forall (drum_message channel 70) track'.
Proof.
  intros Hwf Htrack Hrun.
  destruct (well_formed_parts _ Hwf) as (Hasc & _).
  unfold EnMusictester.write_drum_measure in Hrun.
  change (1920 / 16) with 120 in Hrun.
  apply bind_inv in Hrun as ([accum t1] & g1 & Hloop & Hrest).
  pose proof (en_measure_loop_keeps channel (sorted pattern) 0 0 track g
                accum t1 g1 Hasc ltac:(lia) Htrack Hloop) as Ht1.
  cbv zeta in Hrest.
  set (remainder := if 1920 - accum <? 0 then 0 else 1920 - accum) in Hrest.
  assert (0 <= remainder)
    by (unfold remainder; destruct (Z.ltb_spec (1920 - accum) 0); lia).
  destruct (remainder >? 0); unfold ret in Hrest; injection Hrest as <- _.
  - apply filler_keeps; assumption.
  - exact Ht1.
Qed.

Lemma en_write_partial_keeps (channel leftover : Z)
  (pattern : list (string * Z)) (track track' : MidiTrack) (g g' : rng) :
  well_formed pattern = true ->
  Forall (drum_message channel 70) track ->
  EnMusictester.write_drum_partial_measure track pattern leftover channel g
  = Ok (track', g') ->
  Forall (drum_message channel 70) track'.
Proof.
  intros Hwf Htrack Hrun.
  destruct (well_formed_parts _ Hwf) as (Hasc & _).
  unfold EnMusictester.write_drum_partial_measure in Hrun.
  apply bind_inv in Hrun as ([accum t1] & g1 & Hloop & Hrest).
  pose proof (en_partial_loop_keeps channel (sorted pattern) 0 leftover 0
                track g accum t1 g1 Hasc ltac:(lia) Htrack Hloop) as Ht1.
  cbv zeta in Hrest.
  destruct (Z.gtb_spec (leftover - accum) 0).
  - injection Hrest as <- _. apply filler_keeps; [lia | exact Ht1].
  - injection Hrest as <- _. exact Ht1.
Qed.

Lemma rm_write_full_keeps (pattern : list (string * Z)) (current_time t : Z)
  (track track' : MidiTrack) (g g' : rng) :
  well_formed pattern = true ->
  Forall (drum_message 9 60) track ->
  RandomMusic.write_full_drum_measure track pattern current_time 1920 g
  = Ok ((track', t), g') ->
  Forall (drum_message 9 60) track'.
Proof.
  intros Hwf Htrack Hrun.
  destruct (well_formed_parts _ Hwf) as (Hasc & _).
  unfold RandomMusic.write_full_drum_measure in Hrun.
  change (1920 / 16) with 120 in Hrun.
  apply bind_inv in Hrun as ([accum t1] & g1 & Hloop & Hrest).
  pose proof (rm_full_loop_keeps (sorted pattern) 0 0 track g accum t1 g1
                Hasc ltac:(lia) Htrack Hloop) as Ht1.
  cbv zeta in Hrest.
  set (remain := if 1920 - accum <? 0 then 0 else 1920 - accum) in Hrest.
  assert (0 <= remain)
    by (unfold remain; destruct (Z.ltb_spec (1920 - accum) 0); lia).
  unfold ret in Hrest. injection Hrest as <- _ _.
  apply filler_keeps; assumption.
Qed.

Lemma rm_write_partial_keeps (pattern : list (string * Z))
  (current_time leftover t : Z) (track track' : MidiTrack) (g g' : rng) :
  well_formed pattern = true ->
  Forall (drum_message 9 60) track ->
  RandomMusic.write_partial_drum_measure track pattern current_time leftover g
  = Ok ((track', t), g') ->
  Forall (drum_message 9 60) track'.
Proof.
  intros Hwf Htrack Hrun.
  destruct (well_formed_parts _ Hwf) as (Hasc & _).
  unfold RandomMusic.write_partial_drum_measure in Hrun.
  apply bind_inv in Hrun as ([accum t1] & g1 & Hloop & Hrest).
  pose proof (rm_partial_loop_keeps (sorted pattern) 0 leftover 0 track g
                accum t1 g1 Hasc ltac:(lia) Htrack Hloop) as Ht1.
  cbv zeta in Hrest.
  destruct (Z.gtb_spec (leftover - accum) 0).
  - injection Hrest as <- _ _. apply filler_keeps; [lia | exact Ht1].
  - injection Hrest as <- _ _. exact Ht1.
Qed.

Lemma en_fit_body_keeps (total channel : Z) (s : drum_state) (g g' : rng)
  (fl : flow drum_state) :
  Forall (drum_message channel 70) (drum_track s) ->
  EnMusictester.fit_body total channel s g = Ok (fl, g') ->
  Forall (drum_message channel 70) (drum_track (flow_state fl)).
Proof.
  intros Htrack Hrun.
  unfold EnMusictester.fit_body, EnMusictester.get_drums_pattern_map in Hrun.
  cbv zeta in Hrun.
  apply bind_inv in Hrun as (id & g1 & _ & Hrest).
  destruct (lookup id get_drum_pattern_map) as [pattern|] eqn:Hlook;
    [|discriminate Hrest].
  pose proof (pattern_map_well_formed _ _ Hlook) as Hwf.
  destruct (total - current_time s <=? 0).
  - unfold ret in Hrest. injection Hrest as <- _. exact Htrack.
  - destruct (total - current_time s >=? 1920).
    + apply bind_inv in Hrest as (track1 & g2 & Hwrite & Hrest).
      apply bind_inv in Hrest as (next & g3 & _ & Hrest).
      unfold ret in Hrest. injection Hrest as <- _.
      cbn [flow_state drum_track].
      exact (en_write_measure_keeps _ _ _ _ _ _ Hwf Htrack Hwrite).
    + apply bind_inv in Hrest as (track1 & g2 & Hwrite & Hrest).
      unfold ret in Hrest. injection Hrest as <- _.
      cbn [flow_state drum_track].
      exact (en_write_partial_keeps _ _ _ _ _ _ _ Hwf Htrack Hwrite).
Qed.

Lemma rm_drum_body_keeps (total : Z) (s : drum_state) (g g' : rng)
  (fl : flow drum_state) :
  Forall (drum_message 9 60) (drum_track s) ->
  RandomMusic.drum_body total s g = Ok (fl, g') ->
  Forall (drum_message 9 60) (drum_track (flow_state fl)).
Proof.
  intros Htrack Hrun.
  unfold RandomMusic.drum_body in Hrun. cbv zeta in Hrun.
  destruct (total - current_time s <=? 0).
  - unfold ret in Hrun. injection Hrun as <- _. exact Htrack.
  - apply bind_inv in Hrun as (id & g1 & _ & Hrest).
    destruct (lookup id get_drum_pattern_map) as [pattern|] eqn:Hlook;
      [|discriminate Hrest].
    pose proof (pattern_map_well_formed _ _ Hlook) as Hwf.
    destruct (total - current_time s >=? 1920).
    + apply bind_inv in Hrest as ([track1 t1] & g2 & Hwrite & Hrest).
      apply bind_inv in Hrest as (next & g3 & _ & Hrest).
      unfold ret in Hrest. injection Hrest as <- _.
      cbn [flow_state drum_track].
      exact (rm_write_full_keeps _ _ _ _ _ _ _ Hwf Htrack Hwrite).
    + apply bind_inv in Hrest as ([track1 t1] & g2 & Hwrite & Hrest).
      unfold ret in Hrest. injection Hrest as <- _.
      cbn [flow_state drum_track].
      exact (rm_write_partial_keeps _ _ _ _ _ _ _ _ Hwf Htrack Hwrite).
Qed.

(** What every pass keeps, a loop that returns has kept. *)
Lemma while_loop_keeps {S : Type} (I : S -> Prop) (cond : S -> bool)
  (body : S -> M (flow S)) :
  (forall s g fl g', I s -> body s g = Ok (fl, g') -> I (flow_state fl)) ->
  forall fuel s g s' g',
    I s -> while_loop cond body fuel s g = Ok (s', g') -> I s'.
Proof.
  intros Hbody. induction fuel as [|fuel IH]; intros s g s' g' Hs;
    cbn [while_loop]; destruct (cond s).
  - discriminate.
  - intros [= <- _]. exact Hs.
  - destruct (body s g) as [[[s1|s1] g1]|e] eqn:Hrun; [| |discriminate].
    + apply IH. exact (Hbody _ _ _ _ Hs Hrun).
    + intros [= <- _]. exact (Hbody _ _ _ _ Hs Hrun).
  - intros [= <- _]. exact Hs.
Qed.

Lemma en_generate_keeps (fuel : nat) (track : MidiTrack) (total channel : Z)
  (g g' : rng) (s : drum_state) :
  Forall (drum_message channel 70) track ->
  EnMusictester.generate_drum_to_fit_time fuel track total channel g
  = Ok (s, g') ->
  Forall (drum_message channel 70) (drum_track s).
Proof.
  intros Htrack Hrun.
  unfold EnMusictester.generate_drum_to_fit_time in Hrun.
  apply bind_inv in Hrun as (id & g1 & _ & Hloop).
  refine (while_loop_keeps
            (fun s => Forall (drum_message channel 70) (drum_track s))
            _ _ _ _ _ _ _ _ _ Hloop);
    [intros; eapply en_fit_body_keeps; eassumption | exact Htrack].
Qed.

Lemma rm_create_keeps (bpm2tempo : Z -> Z) (fuel : nat)
  (mid mid' : list MidiTrack) (total bpm : Z) (g g' : rng) (s : drum_state) :
  RandomMusic.create_drum_track bpm2tempo fuel mid total bpm g
  = Ok ((mid', s), g') ->
  Forall (drum_message 9 60) (drum_track s).
Proof.
  intros Hrun.
  unfold RandomMusic.create_drum_track in Hrun. cbv zeta in Hrun.
  apply bind_inv in Hrun as (id & g1 & _ & Hrest).
  apply bind_inv in Hrest as (s1 & g2 & Hloop & Hret).
  unfold ret in Hret. injection Hret as _ <- _.
  refine (while_loop_keeps
            (fun s => Forall (drum_message 9 60) (drum_track s))
            _ _ _ _ _ _ _ _ _ Hloop);
    [intros; eapply rm_drum_body_keeps; eassumption
    | cbn [drum_track app]; repeat constructor; lia].
Qed.

(** X3. Whatever the target and the draws, with fuel for one pass per
    started measure the drum scheduler returns a track of drum messages
    only: hits of kick (36), snare (38) or hi-hat (42) on the drum
    channel at a velocity of 70..100 (60..100 in random_music.py),
    fillers at velocity 0, note-offs of 0..50 ticks, and no delta-time
    below 0.  [generate_drum_to_fit_time] keeps this on the track its
    caller opened, [create_drum_track] builds such a track on
    channel 9. *)
Theorem drum_track_holds_drum_messages (bpm2tempo : Z -> Z) (fuel : nat)
  (track : MidiTrack) (mid : list MidiTrack) (total channel bpm : Z)
  (g : rng) :
  (Z.to_nat (total / 1920) < fuel)%nat ->
  Forall (drum_message channel 70) track ->
  (exists s g',
      EnMusictester.generate_drum_to_fit_time fuel track total channel g
      = Ok (s, g')
      /\ Forall (drum_message channel 70) (drum_track s))
  /\ (exists s g',
         RandomMusic.create_drum_track bpm2tempo fuel mid total bpm g
         = Ok ((mid ++ [drum_track s], s), g')
         /\ Forall (drum_message 9 60) (drum_track s)).
Proof.
  intros Hfuel Htrack. split.
  - destruct (en_generate_fits fuel track total channel g Hfuel)
      as (s & g' & evs & Hrun & _).
    exists s, g'. split; [exact Hrun|].
    exact (en_generate_keeps _ _ _ _ _ _ _ Htrack Hrun).
  - destruct (rm_create_fits bpm2tempo fuel mid total bpm g Hfuel)
      as (s & g' & Hrun & _).
    exists s, g'. split; [exact Hrun|].
    exact (rm_create_keeps _ _ _ _ _ _ _ _ _ Hrun).
Qed.

Lemma drum_track_holds_drum_messages_witness :
  exists s g',
    EnMusictester.generate_drum_to_fit_time 2
      [set_tempo 500000 0; control_change 9 7 127 0] 2500 9 sample_rng
    = Ok (s, g')
    /\ Forall (drum_message 9 70) (drum_track s).
Proof.
  apply (proj1 (drum_track_holds_drum_messages (fun _ => 500000) 2
                  [set_tempo 500000 0; control_change 9 7 127 0] [] 2500 9
                  120 sample_rng ltac:(vm_compute; lia)
                  ltac:(repeat constructor; lia))).
Defined.

(** ** Sections on the channels, again *)

Lemma section_ticks_nonneg (is_chorus : bool)
  (section_data : list RandomMusic.note_event) :
  Forall (event_ok is_chorus) section_data -> 0 <= section_ticks section_data.
Proof.
  induction 1 as [|[[[n v] d] p] rest Hok _ IH]; [reflexivity|].
  unfold section_ticks. cbn [fold_right]. fold (section_ticks rest).
  destruct Hok as (_ & Hd & Hgap). destruct is_chorus; lia.
Qed.

(** X4. The length [generate_section_data] reports for a section, the
    length [apply_section_data_to_channel] returns after writing it on a
    channel, and the ticks of the messages it has appended to the track
    are one number, and it is not negative. *)
Theorem section_length_agrees (words : list string) (is_chorus : bool)
  (track : MidiTrack) (channel bpm : Z) (g : rng) :
  exists section_data total_length g' evs,
    RandomMusic.generate_section_data words is_chorus g
    = Ok ((section_data, total_length), g')
    /\ RandomMusic.apply_section_data_to_channel track section_data channel
         bpm
       = (track ++ evs, total_length)
    /\ total_ticks evs = total_length
    /\ 0 <= total_length.
Proof.
  destruct (generate_section_data_spec words is_chorus g)
    as (section_data & g' & Hrun & Hall & _).
  exists section_data, (section_ticks section_data), g',
    (render channel section_data).
  split; [exact Hrun|].
  rewrite apply_section_data_spec,
    (render_ticks is_chorus channel section_data Hall).
  split; [reflexivity|]. split; [reflexivity|].
  exact (section_ticks_nonneg is_chorus section_data Hall).
Qed.

(** [bgm_mode]: one section for the looped words, rendered on both
    channels. *)
Lemma bgm_mode_spec (bpm2tempo : Z -> Z) (mid : list MidiTrack)
  (text : string) (bpm : Z) (music_type : string) (g : rng) :
  exists section_data g1 program0 program1,
    RandomMusic.generate_section_data (looped_words text) false g
    = Ok ((section_data, section_ticks section_data), g1)
    /\ Forall (event_ok false) section_data
    /\ map note_num_of section_data
       = map (pitch_of false) (sung (looped_words text))
    /\ RandomMusic.bgm_mode bpm2tempo mid text bpm music_type g
       = Ok ((mid
              ++ [head_of (bpm2tempo bpm) program0 0 ++ render 0 section_data]
              ++ [head_of (bpm2tempo bpm) program1 1 ++ render 1 section_data],
              section_ticks section_data), advance (advance g1)).
Proof.
  destruct (generate_section_data_spec (looped_words text) false g)
    as (section_data & g1 & Hgen & Hall & Hnotes).
  destruct (channel_head_spec bpm2tempo 0 bpm music_type g1)
    as (program0 & Hhead0).
  destruct (channel_head_spec bpm2tempo 1 bpm music_type (advance g1))
    as (program1 & Hhead1).
  exists section_data, g1, program0, program1.
  split; [exact Hgen|]. split; [exact Hall|]. split; [exact Hnotes|].
  unfold RandomMusic.bgm_mode. cbn [repeat concat]. rewrite app_nil_r.
  fold (looped_words text).
  rewrite (bind_ok _ _ _ _ _ Hgen).
  assert (Hchannels :
            RandomMusic.bgm_channels bpm2tempo [0; 1] section_data bpm
              music_type mid [] g1
            = Ok ((mid
                   ++ [head_of (bpm2tempo bpm) program0 0
                       ++ render 0 section_data]
                   ++ [head_of (bpm2tempo bpm) program1 1
                       ++ render 1 section_data],
                   [section_ticks section_data; section_ticks section_data]),
                  advance (advance g1))).
  { cbn [RandomMusic.bgm_channels].
    rewrite (bind_ok _ _ _ _ _ Hhead0), apply_section_data_spec.
    rewrite (bind_ok _ _ _ _ _ Hhead1), apply_section_data_spec.
    rewrite !(render_ticks false _ section_data Hall), <- app_assoc.
    reflexivity. }
  rewrite (bind_ok _ _ _ _ _ Hchannels). unfold ret.
  cbn [RandomMusic.max_or_zero fold_left]. rewrite Z.max_id. reflexivity.
Qed.

Lemma sung_app (w1 w2 : list string) : sung (w1 ++ w2) = sung w1 ++ sung w2.
Proof. unfold sung. apply filter_app. Qed.

(** X5. [bgm_mode] plays the words of the text twice over: the section
    it builds has two notes for every word that is not empty, and the
    pitches of its second half are those of its first half, in the same
    order; the durations and velocities are drawn note by note. *)
Theorem bgm_plays_the_words_twice (bpm2tempo : Z -> Z)
  (mid : list MidiTrack) (text : string) (bpm : Z) (music_type : string)
  (g : rng) :
  let all_words := flat_map Str.clean_words (Str.splitlines text) in
  let pitches := map (pitch_of false) (sung all_words) in
  exists section_data program0 program1 g',
    RandomMusic.bgm_mode bpm2tempo mid text bpm music_type g
    = Ok ((mid
           ++ [head_of (bpm2tempo bpm) program0 0 ++ render 0 section_data]
           ++ [head_of (bpm2tempo bpm) program1 1 ++ render 1 section_data],
           section_ticks section_data), g')
    /\ map note_num_of section_data = pitches ++ pitches
    /\ List.length section_data = (2 * List.length (sung all_words))%nat.
Proof.
  intros all_words pitches.
  destruct (bgm_mode_spec bpm2tempo mid text bpm music_type g)
    as (section_data & g1 & program0 & program1 & _ & _ & Hnotes & Hrun).
  exists section_data, program0, program1, (advance (advance g1)).
  split; [exact Hrun|].
  assert (Hpitches : map note_num_of section_data = pitches ++ pitches).
  { rewrite Hnotes. unfold looped_words. cbv zeta. fold all_words.
    rewrite sung_app, map_app. reflexivity. }
  split; [exact Hpitches|].
  rewrite <- (length_map note_num_of), Hpitches, length_app.
  unfold pitches. rewrite length_map. lia.
Qed.

(** ** A song without a chorus *)

Lemma partition_lines_no_chorus (lines : list string) :
  forall normal_lines chorus_lines,
    (forall ln, In ln lines ->
                Str.startswith (Str.lstrip ln) ">" = false) ->
    snd (RandomMusic.partition_lines lines normal_lines chorus_lines)
    = chorus_lines.
Proof.
  induction lines as [|ln rest IH]; intros normal_lines chorus_lines Hno;
    [reflexivity|].
  cbn [RandomMusic.partition_lines].
  rewrite (Hno ln) by (left; reflexivity).
  apply IH. intros l Hl. apply Hno. right. exact Hl.
Qed.

(** X6. On a text none of whose lines starts, after its leading spaces,
    with the chorus marker, [song_mode] is [bgm_mode]: the same tracks,
    the same total and the same draws. *)
Theorem song_without_marker_is_bgm (bpm2tempo : Z -> Z)
  (mid : list MidiTrack) (text : string) (bpm : Z) (music_type : string)
  (g : rng) :
  (forall ln, In ln (Str.splitlines text) ->
              Str.startswith (Str.lstrip ln) ">" = false) ->
  RandomMusic.song_mode bpm2tempo mid text bpm music_type g
  = RandomMusic.bgm_mode bpm2tempo mid text bpm music_type g.
Proof.
  intros Hno. unfold RandomMusic.song_mode.
  pose proof (partition_lines_no_chorus (Str.splitlines text) [] [] Hno)
    as Hsnd.
  destruct (RandomMusic.partition_lines (Str.splitlines text) [] [])
    as [normal_lines chorus_lines].
  cbn [snd] in Hsnd. subst chorus_lines. reflexivity.
Qed.

Lemma song_without_marker_is_bgm_witness :
  RandomMusic.song_mode (fun _ => 500000) [] "hello world" 120 "pop"
    sample_rng
  = RandomMusic.bgm_mode (fun _ => 500000) [] "hello world" 120 "pop"
      sample_rng.
Proof.
  apply (song_without_marker_is_bgm (fun _ => 500000) [] "hello world" 120
           "pop" sample_rng).
  vm_compute. intros ln [<- | []]. reflexivity.
Defined.

(** ** The genre marker, again *)

Lemma rstrip_blank (s : string) :
  has_nonspace (Str.rstrip s) = false -> Str.rstrip s = "".
Proof.
  induction s as [|c s IH]; [reflexivity|].
  cbn [Str.rstrip].
  destruct (Str.rstrip s) as [|b r] eqn:E.
  - destruct (Str.isspace c) eqn:Hc; [reflexivity|].
    cbn [has_nonspace]. rewrite Hc. discriminate.
  - cbn [has_nonspace] in *. intros H.
    apply orb_false_iff in H as [_ H]. specialize (IH H). discriminate IH.
Qed.

Lemma tail_rstrip (s : string) :
  Str.tail (Str.rstrip s) = Str.rstrip (Str.tail s).
Proof.
  destruct s as [|c s]; [reflexivity|].
  cbn [Str.rstrip Str.tail].
  destruct (Str.rstrip s) as [|b r]; [|reflexivity].
  destruct (Str.isspace c); reflexivity.
Qed.

Lemma split_from_empty (s : string) :
  forall word, Str.split_from word s = [] ->
               word = "" /\ has_nonspace s = false.
Proof.
  intros word H.
  destruct word as [|a word].
  - split; [reflexivity|].
    destruct (has_nonspace s) eqn:E; [|reflexivity].
    exfalso. apply (split_from_nonempty s ""); [left; exact E | exact H].
  - exfalso. apply (split_from_nonempty s (String a word));
      [right; discriminate | exact H].
Qed.

(** A stripped line that starts with [#] and has no word after it is
    the marker alone. *)
Lemma bare_marker (line0 : string) :
  Str.startswith (Str.lower (Str.strip line0)) "#" = true ->
  Str.split (Str.tail (Str.lower (Str.strip line0))) = [] ->
  Str.strip line0 = "#".
Proof.
  intros Hhash Hsplit.
  rewrite startswith_lower, startswith_hash in Hhash.
  apply split_from_empty in Hsplit as [_ Hblank].
  rewrite tail_lower, has_nonspace_lower in Hblank.
  unfold Str.strip in *. rewrite tail_rstrip in Hblank.
  apply rstrip_blank in Hblank. rewrite <- tail_rstrip in Hblank.
  destruct (Str.rstrip (Str.lstrip line0)) as [|c t]; [discriminate|].
  cbn [Str.tail] in Hblank. subst t.
  apply Ascii.eqb_eq in Hhash. subst c. reflexivity.
Qed.

Lemma splitlines_of_empty (text : string) (line0 : string)
  (rest : list string) :
  Str.splitlines text = line0 :: rest -> Str.nonempty text = true.
Proof. destruct text; [discriminate | reflexivity]. Qed.

(** X7. [detect_music_type] raises nothing but [IndexError], and raises
    it exactly on a text whose first line, stripped, is the marker [#]
    alone.  [on_generate] calls it on the text of the widget before it
    builds anything, so that such a text makes the handler raise. *)
Theorem detect_raises_on_bare_marker (bpm2tempo : Z -> Z) (text : string) :
  (forall e, RandomMusic.detect_music_type text = Raise e -> e = IndexError)
  /\ (RandomMusic.detect_music_type text = Raise IndexError <->
      exists line0 rest,
        Str.splitlines text = line0 :: rest /\ Str.strip line0 = "#")
  /\ (forall fuel txt_input bpm_var mode g,
         Str.rstrip txt_input = text ->
         RandomMusic.detect_music_type text = Raise IndexError ->
         BGMSongApp.on_generate bpm2tempo fuel txt_input bpm_var mode g
         = Raise IndexError).
Proof.
  assert (Hiff : forall e,
             RandomMusic.detect_music_type text = Raise e ->
             e = IndexError
             /\ exists line0 rest,
                 Str.splitlines text = line0 :: rest
                 /\ Str.strip line0 = "#").
  { intros e. unfold RandomMusic.detect_music_type.
    destruct (Str.splitlines text) as [|line0 rest]; [discriminate|].
    destruct (Str.startswith (Str.lower (Str.strip line0)) "#") eqn:Hhash;
      [|discriminate].
    destruct (Str.split (Str.tail (Str.lower (Str.strip line0))))
      as [|candidate more] eqn:Hsplit.
    - intros [= <-]. split; [reflexivity|].
      exists line0, rest. split; [reflexivity|].
      apply bare_marker; assumption.
    - destruct (lookup candidate RandomMusic.TYPE_INSTRUMENTS); discriminate. }
  split; [intros e He; apply (Hiff e He)|].
  split; [split|].
  - intros H. apply (Hiff _ H).
  - intros (line0 & rest & Hlines & Hbare).
    unfold RandomMusic.detect_music_type. rewrite Hlines, Hbare. reflexivity.
  - intros fuel txt_input bpm_var mode g Htext Hraise.
    destruct (Hiff _ Hraise) as (_ & line0 & rest & Hlines & _).
    unfold BGMSongApp.on_generate. cbv zeta. rewrite Htext.
    rewrite (splitlines_of_empty _ _ _ Hlines), Hraise. reflexivity.
Qed.

(** ** Upper and lower case in the marker *)

Lemma is_linebreak_lower_char (c : ascii) :
  Str.is_linebreak (Str.lower_char c) = Str.is_linebreak c.
Proof.
  destruct c as [b0 b1 b2 b3 b4 b5 b6 b7].
  destruct b0, b1, b2, b3, b4, b5, b6, b7; reflexivity.
Qed.

Lemma lower_char_CR (c : ascii) :
  Ascii.eqb (Str.lower_char c) Str.CR = Ascii.eqb c Str.CR.
Proof.
  destruct c as [b0 b1 b2 b3 b4 b5 b6 b7].
  destruct b0, b1, b2, b3, b4, b5, b6, b7; reflexivity.
Qed.

Lemma lower_char_LF (c : ascii) :
  Ascii.eqb (Str.lower_char c) Str.LF = Ascii.eqb c Str.LF.
Proof.
  destruct c as [b0 b1 b2 b3 b4 b5 b6 b7].
  destruct b0, b1, b2, b3, b4, b5, b6, b7; reflexivity.
Qed.

Lemma lower_char_twice (c : ascii) :
  Str.lower_char (Str.lower_char c) = Str.lower_char c.
Proof.
  destruct c as [b0 b1 b2 b3 b4 b5 b6 b7].
  destruct b0, b1, b2, b3, b4, b5, b6, b7; reflexivity.
Qed.

Lemma lower_twice (s : string) : Str.lower (Str.lower s) = Str.lower s.
Proof.
  induction s as [|c s IH]; [reflexivity|].
  cbn [Str.lower]. rewrite lower_char_twice, IH. reflexivity.
Qed.

Lemma lower_append (s t : string) :
  Str.lower (s ++ t)%string = (Str.lower s ++ Str.lower t)%string.
Proof.
  induction s as [|c s IH]; [reflexivity|].
  cbn [String.append Str.lower]. rewrite IH. reflexivity.
Qed.

Lemma splitlines_from_lower_bounded (n : nat) :
  forall text line,
    (String.length text <= n)%nat ->
    Str.splitlines_from (Str.lower line) (Str.lower text)
    = map Str.lower (Str.splitlines_from line text).
Proof.
  induction n as [|n IH]; intros text line Hlen.
  - destruct text; [destruct line; reflexivity | cbn in Hlen; lia].
  - destruct text as [|c text]; [destruct line; reflexivity|].
    cbn [String.length] in Hlen.
    cbn [Str.lower Str.splitlines_from].
    rewrite is_linebreak_lower_char, lower_char_CR.
    destruct (Str.is_linebreak c).
    + cbn [map]. f_equal.
      destruct (Ascii.eqb c Str.CR).
      * destruct text as [|c' text'].
        -- reflexivity.
        -- cbn [Str.lower]. rewrite lower_char_LF.
           cbn [String.length] in Hlen.
           destruct (Ascii.eqb c' Str.LF).
           ++ apply (IH text' ""). lia.
           ++ apply (IH (String c' text') ""). cbn [String.length]. lia.
      * apply (IH text ""). lia.
    + rewrite <- (IH text) by lia.
      rewrite lower_append. reflexivity.
Qed.

Lemma splitlines_from_lower (text line : string) :
  Str.splitlines_from (Str.lower line) (Str.lower text)
  = map Str.lower (Str.splitlines_from line text).
Proof. apply (splitlines_from_lower_bounded (String.length text)). lia. Qed.

Lemma lstrip_lower (s : string) :
  Str.lstrip (Str.lower s) = Str.lower (Str.lstrip s).
Proof.
  induction s as [|c s IH]; [reflexivity|].
  cbn [Str.lower Str.lstrip]. rewrite isspace_lower_char.
  destruct (Str.isspace c); [exact IH | reflexivity].
Qed.

Lemma rstrip_lower (s : string) :
  Str.rstrip (Str.lower s) = Str.lower (Str.rstrip s).
Proof.
  induction s as [|c s IH]; [reflexivity|].
  cbn [Str.lower Str.rstrip]. rewrite IH, isspace_lower_char.
  destruct (Str.rstrip s); cbn [Str.lower];
    [destruct (Str.isspace c); reflexivity | reflexivity].
Qed.

(** X8. The marker is read without regard to case: [detect_music_type]
    gives for a text what it gives for the same text in lower case,
    the genre as well as the error. *)
Theorem detect_ignores_case (text : string) :
  RandomMusic.detect_music_type (Str.lower text)
  = RandomMusic.detect_music_type text.
Proof.
  unfold RandomMusic.detect_music_type, Str.splitlines.
  change "" with (Str.lower "") at 1.
  rewrite splitlines_from_lower.
  destruct (Str.splitlines_from "" text) as [|line0 rest]; [reflexivity|].
  cbn [map]. unfold Str.strip.
  rewrite lstrip_lower, rstrip_lower, lower_twice. reflexivity.
Qed.

(** ** The words of a line *)

Lemma any_char_append (p : ascii -> bool) (s t : string) :
  any_char p (s ++ t)%string = any_char p s || any_char p t.
Proof.
  induction s as [|c s IH]; [reflexivity|].
  cbn [String.append any_char]. rewrite IH. apply orb_assoc.
Qed.

Lemma rstrip_spaceless (w : string) :
  any_char Str.isspace w = false -> Str.rstrip w = w.
Proof.
  induction w as [|c w IH]; [reflexivity|].
  cbn [any_char Str.rstrip]. intros H.
  apply orb_false_iff in H as [Hc Hw]. rewrite (IH Hw), Hc.
  destruct w; reflexivity.
Qed.

Lemma strip_spaceless (w : string) :
  any_char Str.isspace w = false -> Str.strip w = w.
Proof.
  intros H. unfold Str.strip.
  assert (Hl : Str.lstrip w = w).
  { destruct w as [|c w]; [reflexivity|].
    cbn [any_char] in H. apply orb_false_iff in H as [Hc _].
    cbn [Str.lstrip]. rewrite Hc. reflexivity. }
  rewrite Hl. apply rstrip_spaceless. exact H.
Qed.

(** Dropping the empty pieces of [re.split(r"\s+", s)] leaves the words
    of [s.split()]. *)
Lemma re_split_words (s : string) :
  forall gap piece,
    any_char Str.isspace piece = false ->
    (gap = true -> piece = "") ->
    filter (fun w => Str.nonempty (Str.strip w))
      (Str.re_split_from gap piece s)
    = Str.split_from piece s.
Proof.
  induction s as [|c s IH]; intros gap piece Hpiece Hgap.
  - cbn [Str.re_split_from Str.split_from filter].
    rewrite (strip_spaceless piece Hpiece). destruct piece; reflexivity.
  - cbn [Str.re_split_from Str.split_from].
    destruct (Str.isspace c) eqn:Hc.
    + destruct gap.
      * rewrite (Hgap eq_refl). apply IH; [reflexivity | reflexivity].
      * cbn [filter]. rewrite (strip_spaceless piece Hpiece).
        rewrite IH by reflexivity. destruct piece; reflexivity.
    + apply IH; [|discriminate].
      rewrite any_char_append, Hpiece. cbn [any_char]. rewrite Hc.
      reflexivity.
Qed.

Lemma split_from_spaceless (s : string) :
  forall word,
    any_char Str.isspace word = false ->
    Forall (fun w => any_char Str.isspace w = false)
      (Str.split_from word s).
Proof.
  induction s as [|c s IH]; intros word Hword; cbn [Str.split_from].
  - destruct word; [constructor | constructor; [exact Hword | constructor]].
  - destruct (Str.isspace c) eqn:Hc.
    + destruct word as [|a word]; [apply IH; reflexivity|].
      constructor; [exact Hword | apply IH; reflexivity].
    + apply IH. rewrite any_char_append, Hword. cbn [any_char].
      rewrite Hc. reflexivity.
Qed.

Lemma remove_punct_clean (w : string) :
  any_char Str.isspace w = false -> clean_word (Str.remove_punct w).
Proof.
  unfold clean_word. induction w as [|c w IH]; [split; reflexivity|].
  cbn [any_char Str.remove_punct]. intros H.
  apply orb_false_iff in H as [Hc Hw]. destruct (IH Hw) as [IH1 IH2].
  destruct (Str.is_punct c) eqn:Hp; [split; assumption|].
  cbn [any_char]. rewrite Hc, Hp, IH1, IH2. split; reflexivity.
Qed.

(** X9. The words [bgm_mode], [song_mode] and [on_generate_midi] take
    from a line: cleaning the pieces of [re.split(r"\s+", ln)] that are
    not blank gives the words of [ln.split()] without their punctuation
    marks, one for each run of characters that are not spaces, and none
    of them holds a space or one of the marks [, . ? ! ; :]. *)
Theorem clean_words_of_line (ln : string) :
  Str.clean_words ln = map Str.remove_punct (Str.split ln)
  /\ List.length (Str.clean_words ln) = List.length (Str.split ln)
  /\ Forall clean_word (Str.clean_words ln).
Proof.
  assert (Heq : Str.clean_words ln = map Str.remove_punct (Str.split ln)).
  { unfold Str.clean_words, Str.re_split_spaces, Str.split.
    rewrite re_split_words by (reflexivity || discriminate). reflexivity. }
  split; [exact Heq|]. rewrite Heq.
  split; [apply length_map|].
  apply Forall_map.
  eapply Forall_impl; [|apply (split_from_spaceless ln ""); reflexivity].
  intros w Hw. apply remove_punct_clean. exact Hw.
Qed.

(** ** Longer words, higher degrees *)

Section Monotone.

Local Open Scope nat_scope.

Lemma locate_mono (sizes : list nat) :
  forall d1 d2, d1 <= d2 -> locate sizes d1 <= locate sizes d2.
Proof.
  induction sizes as [|n rest IH]; intros d1 d2 Hle; [reflexivity|].
  cbn [locate].
  destruct (Nat.ltb_spec d1 n), (Nat.ltb_spec d2 n); try lia.
  apply le_n_S. apply IH. lia.
Qed.

(** X10. The pitch mapper is monotone in the length of the words: on a
    word list that is not empty and a scale with a degree, a word that
    is not longer than another does not get a higher degree index, so
    that words of one length share their degree. *)
Theorem longer_words_higher_degrees (words : list string) (n_scales : nat) :
  words <> [] -> n_scales <> 0 ->
  exists idxs,
    EnMusictester.mapped_indices words n_scales = Ok idxs
    /\ forall i j wi wj di dj,
         nth_error words i = Some wi -> nth_error words j = Some wj ->
         nth_error idxs i = Some di -> nth_error idxs j = Some dj ->
         (String.length wi <= String.length wj -> di <= dj)
         /\ (String.length wi = String.length wj -> di = dj).
Proof.
  intros Hwords HN.
  destruct (mapped_indices_spec words n_scales Hwords HN)
    as (min_len & max_len & _ & _ & _ & _ & _ & Hmap).
  eexists. split; [exact Hmap|].
  intros i j wi wj di dj Hwi Hwj Hdi Hdj.
  rewrite (map_nth_error _ _ _ Hwi) in Hdi.
  rewrite (map_nth_error _ _ _ Hwj) in Hdj.
  injection Hdi as <-. injection Hdj as <-.
  split.
  - intros Hle. apply locate_mono. lia.
  - intros Heq. rewrite Heq. reflexivity.
Qed.

Lemma longer_words_higher_degrees_witness :
  exists idxs,
    EnMusictester.mapped_indices ["to"; "be"; "or"; "not"; "melodious"] 6
    = Ok idxs.
Proof.
  destruct (longer_words_higher_degrees
              ["to"; "be"; "or"; "not"; "melodious"] 6
              ltac:(discriminate) ltac:(discriminate))
    as (idxs & Hmap & _).
  exists idxs. exact Hmap.
Defined.

End Monotone.

(** ** From the text to the score: en_musictester.py *)
















(** ** From the text to the score: random_music.py *)















(** ** Blank texts *)

Lemma rstrip_nonempty (s : string) :
  Str.nonempty (Str.rstrip s) = has_nonspace s.
Proof.
  induction s as [|c s IH]; [reflexivity|].
  cbn [Str.rstrip has_nonspace]. rewrite <- IH.
  destruct (Str.rstrip s); [|cbn [Str.nonempty]; apply eq_sym, orb_true_r].
  destruct (Str.isspace c); reflexivity.
Qed.

Lemma lstrip_has_nonspace (s : string) :
  has_nonspace (Str.lstrip s) = has_nonspace s.
Proof.
  induction s as [|c s IH]; [reflexivity|].
  cbn [Str.lstrip]. destruct (Str.isspace c) eqn:Hc; [|reflexivity].
  cbn [has_nonspace]. rewrite Hc. exact IH.
Qed.

Lemma strip_nonempty (s : string) :
  Str.nonempty (Str.strip s) = has_nonspace s.
Proof.
  unfold Str.strip. rewrite rstrip_nonempty. apply lstrip_has_nonspace.
Qed.

(** X16. Either handler shows its warning for an empty text exactly on
    a text without a character that is not a space: on such a text it
    returns the warning and draws nothing, and on any other text the
    warning is not what it returns. *)
Theorem blank_text_warns (bpm2tempo : Z -> Z) (fuel : nat)
  (text scale_name key_name mode : string)
  (bpm reverb_amount chorus_amount : Z) (g : rng) :
  (has_nonspace text = false ->
   TextToMidiSyncApp.on_generate_midi bpm2tempo fuel text scale_name key_name
     bpm reverb_amount chorus_amount g
   = Ok (Warning "Text is empty.", g)
   /\ BGMSongApp.on_generate bpm2tempo fuel text bpm mode g
      = Ok (Warning "No text input.", g))
  /\ (has_nonspace text = true ->
      (forall r g',
          TextToMidiSyncApp.on_generate_midi bpm2tempo fuel text scale_name
            key_name bpm reverb_amount chorus_amount g
          = Ok (r, g') ->
          r <> Warning "Text is empty.")
      /\ (forall r g',
             BGMSongApp.on_generate bpm2tempo fuel text bpm mode g
             = Ok (r, g') ->
             exists mid, r = Score mid)).
Proof.
  unfold TextToMidiSyncApp.on_generate_midi, BGMSongApp.on_generate.
  cbv zeta. rewrite strip_nonempty, rstrip_nonempty.
  split; intros Htext; rewrite Htext; cbn [negb].
  - split; reflexivity.
  - split; intros r g' Hrun.
    + destruct (Str.clean_words (Str.strip text)) as [|w ws];
        [unfold ret in Hrun; injection Hrun as <- _; discriminate|].
      destruct (lookup scale_name EnMusictester.SCALE_OPTIONS);
        [|unfold ret in Hrun; injection Hrun as <- _; discriminate].
      destruct (lookup key_name TextToMidiSyncApp.KEY_OPTIONS);
        [|unfold ret in Hrun; injection Hrun as <- _; discriminate].
      destruct (bpm <=? 0);
        [unfold ret in Hrun; injection Hrun as <- _; discriminate|].
      destruct (EnMusictester.mapped_indices (w :: ws) (List.length l));
        [|discriminate Hrun].
      apply bind_inv in Hrun as ([track total] & g1 & _ & Hrun).
      apply bind_inv in Hrun as (s & g2 & _ & Hrun).
      unfold ret in Hrun. injection Hrun as <- _. discriminate.
    + destruct (RandomMusic.detect_music_type (Str.rstrip text));
        [|discriminate Hrun].
      apply bind_inv in Hrun as ([mid1 total] & g1 & _ & Hrun).
      apply bind_inv in Hrun as ([mid2 s] & g2 & _ & Hrun).
      unfold ret in Hrun. injection Hrun as <- _. exists mid2. reflexivity.
Qed.
